(** * Bilingual document translation: paragraph segmentation and
      reconstruction engine

    A shallow embedding of [src/doc/translate.py] and the properties its
    specification states about it.

    Layout: Part I holds the embedding (text utilities, the translation
    engine, the grouping pass, the paragraph and table translators, the
    flowchart handler, the document pipeline); Part II holds the lemmas and
    theorems.

    Modelling conventions.
    - A Python [str] is a list of Unicode code points ([list N]).
    - The python-docx object model is an external collaborator.  A paragraph
      is its list of runs; a run carries its text and, possibly, a drawing
      (which may hold textboxes).  [paragraph.text] is the concatenation of
      the run texts.
    - Python mutates paragraphs in place and inserts new siblings into the
      parent.  A paragraph object is modelled together with the siblings that
      were inserted after it (a [Slot]); the parent's child list is recovered
      by [flatten].  The paragraphs of [doc.paragraphs] are addressed by their
      index in that snapshot, which is the [para_index] the source passes
      around.
    - The translation backend is a parameter, a function of the text sent:
      [None] stands for a raised exception. *)

From Stdlib Require Import NArith ZArith Bool Ascii Sorted Lia.
From stdpp Require Import base option list strings gmap.

Local Open Scope N_scope.

(** ** Part I.  The embedding *)

(** *** Strings *)

Abbreviation str := (list N).

(** An ASCII literal as a Python string. *)
Fixpoint lit (s : string) : str :=
  match s with
  | EmptyString => []
  | String a s' => N_of_ascii a :: lit s'
  end.
Arguments lit _%_string.

Definition in_range (lo hi c : N) : bool := (lo <=? c) && (c <=? hi).

(** [str.isspace] on one character: what [strip], [lstrip] and [rstrip]
    remove when called without argument. *)
Definition is_space (c : N) : bool :=
  in_range 0x09 0x0D c || in_range 0x1C 0x20 c || (c =? 0x85) || (c =? 0xA0)
  || (c =? 0x1680) || in_range 0x2000 0x200A c || (c =? 0x2028)
  || (c =? 0x2029) || (c =? 0x202F) || (c =? 0x205F) || (c =? 0x3000).

(** Start of each run of ten decimal digits of the Unicode general category
    Nd (Unicode 15.0, the tables of CPython 3.12), except the mathematical
    digits, which form one run of fifty. *)
Definition decimal_digit_blocks : list N :=
  [ 0x0030; 0x0660; 0x06F0; 0x07C0; 0x0966; 0x09E6; 0x0A66; 0x0AE6; 0x0B66;
    0x0BE6; 0x0C66; 0x0CE6; 0x0D66; 0x0DE6; 0x0E50; 0x0ED0; 0x0F20; 0x1040;
    0x1090; 0x17E0; 0x1810; 0x1946; 0x19D0; 0x1A80; 0x1A90; 0x1B50; 0x1BB0;
    0x1C40; 0x1C50; 0xA620; 0xA8D0; 0xA900; 0xA9D0; 0xA9F0; 0xAA50; 0xABF0;
    0xFF10; 0x104A0; 0x10D30; 0x11066; 0x110F0; 0x11136; 0x111D0; 0x112F0;
    0x11450; 0x114D0; 0x11650; 0x116C0; 0x11730; 0x118E0; 0x11950; 0x11C50;
    0x11D50; 0x11DA0; 0x11F50; 0x16A60; 0x16AC0; 0x16B50; 0x1E140; 0x1E2F0;
    0x1E4F0; 0x1E950; 0x1FBF0 ].

(** The class [\d] of a [str] pattern. *)
Definition is_digit (c : N) : bool :=
  existsb (fun b => in_range b (b + 9) c) decimal_digit_blocks
  || in_range 0x1D7CE 0x1D7FF c.

Definition FULLWIDTH_COLON : N := 0xFF1A.
Definition COLON : N := 0x3A.
Definition DOT : N := 0x2E.
Definition SPACE : N := 0x20.
Definition TAB : N := 0x09.
Definition NEWLINE : N := 0x0A.
Definition IDEOGRAPHIC_SPACE : N := 0x3000.

Definition mem_char (c : N) (set : str) : bool := existsb (N.eqb c) set.

Fixpoint lstrip_chars (set : str) (s : str) : str :=
  match s with
  | c :: s' => if mem_char c set then lstrip_chars set s' else s
  | [] => []
  end.

Definition rstrip_chars (set : str) (s : str) : str :=
  rev (lstrip_chars set (rev s)).

Fixpoint lstrip (s : str) : str :=
  match s with
  | c :: s' => if is_space c then lstrip s' else s
  | [] => []
  end.

Definition rstrip (s : str) : str := rev (lstrip (rev s)).

Definition strip (s : str) : str := lstrip (rstrip s).

(** Python truthiness of a string. *)
Definition truthy (s : str) : bool :=
  match s with [] => false | _ => true end.

(** [sep.join(parts)]. *)
Fixpoint join (sep : str) (parts : list str) : str :=
  match parts with
  | [] => []
  | [p] => p
  | p :: rest => p ++ sep ++ join sep rest
  end.

Definition str_eqb (a b : str) : bool := bool_decide (a = b).

Fixpoint starts_with (sub s : str) : bool :=
  match sub, s with
  | [], _ => true
  | a :: sub', b :: s' => (a =? b) && starts_with sub' s'
  | _ :: _, [] => false
  end.

(** [s.find(sub)]: lowest index of an occurrence, or -1. *)
Fixpoint find_from (sub s : str) (i : Z) : Z :=
  if starts_with sub s then i
  else match s with
       | [] => (-1)%Z
       | _ :: s' => find_from sub s' (i + 1)%Z
       end.

Definition find (sub s : str) : Z := find_from sub s 0%Z.

(** [s.split(sep)] and [re.split('[...]', s)] for separators of one
    character, given as a class. *)
Fixpoint split_on (sep : N -> bool) (s : str) : list str :=
  match s with
  | [] => [[]]
  | c :: s' =>
      if sep c then [] :: split_on sep s'
      else match split_on sep s' with
           | p :: ps => (c :: p) :: ps
           | [] => [[c]]
           end
  end.

(** *** Regular expressions

    The patterns of the source are concatenations of character classes under
    a quantifier, tried by [re.match] at the start of the string.  The
    matcher below follows the engine's backtracking order: a quantified class
    first takes the longest run it can and gives characters back one at a
    time.  It returns, for each atom, the substring it matched. *)

Inductive quant := One | Plus | Star.

Record atom := Atom { cls : N -> bool; qty : quant }.

Fixpoint span (p : N -> bool) (s : str) : nat :=
  match s with
  | c :: s' => if p c then S (span p s') else 0%nat
  | [] => 0%nat
  end.

Fixpoint try_greedy (k : str -> option (list str)) (s : str) (lo n : nat)
  : option (list str) :=
  if (n <? lo)%nat then None
  else match k (drop n s) with
       | Some caps => Some (take n s :: caps)
       | None => match n with
                 | O => None
                 | S n' => try_greedy k s lo n'
                 end
       end.

(** [dollar] is the anchor [$]: end of string, or just before a final
    newline. *)
Definition at_end (dollar : bool) (s : str) : bool :=
  if dollar then
    match s with
    | [] => true
    | [c] => c =? NEWLINE
    | _ => false
    end
  else true.

Fixpoint match_atoms (re : list atom) (dollar : bool) (s : str)
  : option (list str) :=
  match re with
  | [] => if at_end dollar s then Some [] else None
  | a :: re' =>
      match qty a with
      | One =>
          match s with
          | c :: s' =>
              if cls a c then cons [c] <$> match_atoms re' dollar s' else None
          | [] => None
          end
      | Plus => try_greedy (match_atoms re' dollar) s 1 (span (cls a) s)
      | Star => try_greedy (match_atoms re' dollar) s 0 (span (cls a) s)
      end
  end.

(** [\d+], [\.] and the unescaped [.] (any character but a newline). *)
Definition digits : atom := Atom is_digit Plus.
Definition dot : atom := Atom (N.eqb DOT) One.
Definition any_char : atom := Atom (fun c => negb (c =? NEWLINE)) One.

Definition is_colon (c : N) : bool := (c =? COLON) || (c =? FULLWIDTH_COLON).

(** *** TextDetector *)

(** [re.search('[一-鿿]', text)]. *)
Definition is_chinese (text : str) : bool :=
  existsb (in_range 0x4E00 0x9FFF) text.

(** The four patterns of [get_step_number], in the order of the source.
    The second separator of the three-segment pattern is the unescaped dot
    of the source. *)
Definition number_patterns : list (list atom) :=
  [ [digits; dot; digits; dot; digits; dot; digits];
    [digits; dot; digits; any_char; digits];
    [digits; dot; digits];
    [digits; dot] ].

(** The loop over the patterns: [group(1)] of the first that matches. *)
Fixpoint first_match (patterns : list (list atom)) (s : str) : option str :=
  match patterns with
  | [] => None
  | p :: rest =>
      match match_atoms p false s with
      | Some caps => Some (concat caps)
      | None => first_match rest s
      end
  end.

Definition get_step_number (raw : str) : str :=
  match first_match number_patterns (lstrip raw) with
  | Some g => rstrip_chars [DOT] g
  | None => []
  end.

(** The pattern of [check_colon_format]: one or more characters other than
    the two colons (group 1), one of the two colons, then any characters but
    newlines (group 2) up to the anchor [$]. *)
Definition colon_pattern : list atom :=
  [ Atom (fun c => negb (is_colon c)) Plus;
    Atom is_colon One;
    Atom (fun c => negb (c =? NEWLINE)) Star ].

(** Returns [(has_colon, has_content_after_colon, colon_part, content_part)]. *)
Definition check_colon_format (text : str) : bool * bool * str * str :=
  match match_atoms colon_pattern true (strip text) with
  | Some [g1; _; g2] =>
      let before_colon := strip g1 in
      let after_colon := strip g2 in
      (true, truthy after_colon, before_colon, after_colon)
  | _ => (false, false, [], [])
  end.

(** *** Document object model (python-docx, external)

    Sizes are in half-points, the unit of [w:sz]. *)

Inductive Alignment := LEFT | CENTER | RIGHT | JUSTIFY.

(** The content of a textbox ([w:txbxContent]) is handled by the source as
    raw XML: its paragraphs ([w:p]), their runs ([w:r]) and the text nodes
    ([w:t], whose text may be absent). *)
Record TbRun := { tr_sz : option str; tr_texts : list (option str) }.

Record TbPara := {
  tp_line : option str;
  tp_lineRule : option str;
  tp_jc : option str;
  tp_runs : list TbRun }.

Abbreviation Textbox := (list TbPara).

(** A run: its text and, when it holds a [w:drawing] or [w:pict], the
    textboxes found inside. *)
Record Run := {
  r_text : str;
  r_drawing : option (list Textbox);
  r_size : option N;
  r_font : option str }.

Record Paragraph := { runs : list Run; alignment : option Alignment }.

(** A paragraph object with the siblings inserted after it so far. *)
Record Slot := { para : Paragraph; after : list Paragraph }.

Definition pristine (p : Paragraph) : Slot := {| para := p; after := [] |}.

(** The children a list of slots stands for, in document order. *)
Definition flatten (l : list Slot) : list Paragraph :=
  flat_map (fun s => para s :: after s) l.

(** [paragraph.text] *)
Definition text (p : Paragraph) : str := flat_map r_text (runs p).

(** [run.text = t]: the setter replaces the whole content of the run, a
    drawing included; the run properties stay. *)
Definition set_run_text (r : Run) (t : str) : Run :=
  {| r_text := t; r_drawing := None; r_size := r_size r; r_font := r_font r |}.

(** [paragraph.add_run(t)] *)
Definition add_run (p : Paragraph) (t : str) : Paragraph :=
  {| runs := runs p ++ [ {| r_text := t; r_drawing := None;
                            r_size := None; r_font := None |} ];
     alignment := alignment p |}.

(** *** Configuration *)

Definition DEFAULT_FONT : str := lit "Times New Roman".
Definition DEFAULT_FONT_SIZE : N := 11.
Definition HEADER_FOOTER_CHINESE_SIZE : N := 10.
Definition HEADER_FOOTER_ENGLISH_SIZE : N := 6.
Definition TABLE_HEADER_ENGLISH_SIZE : N := 8.
Definition FLOWCHART_TEXTBOX_THRESHOLD : nat := 3.

Definition Pt (points : N) : N := 2 * points.

(** *** TextDetector on paragraphs *)

Definition get_step_number_of_paragraph (p : Paragraph) : str :=
  get_step_number (flat_map r_text (runs p)).

Definition has_long_spaces_in_runs (p : Paragraph) : bool * nat :=
  let raw_text := flat_map r_text (runs p) in
  if negb (truthy raw_text) then (false, 0%nat)
  else
    let leading_spaces :=
      (length raw_text - length (lstrip_chars [SPACE; TAB] raw_text))%nat in
    if (0 <? leading_spaces)%nat then
      (true,
       list_sum (map (fun c => if c =? TAB then 4%nat else 1%nat)
                     (take leading_spaces raw_text)))
    else (false, 0%nat).

(** *** WordDocumentHelper *)

Definition has_picture (r : Run) : bool :=
  match r_drawing r with Some _ => true | None => false end.

Definition clear_paragraph_text_keep_images (p : Paragraph) : Paragraph :=
  {| runs := map (fun r => if negb (has_picture r) then set_run_text r []
                           else r) (runs p);
     alignment := alignment p |}.

(** The paragraph built by [add_english_below].  [alignment_arg] is the
    keyword argument when it is one of the four names the source tests. *)
Definition english_paragraph (p : Paragraph) (english_text : str)
    (font_size : option N) (font_name : option str)
    (alignment_arg : option Alignment) : Paragraph :=
  let font_name := default DEFAULT_FONT font_name in
  let align :=
    match alignment_arg with
    | Some a => a
    | None => default LEFT (alignment p)
    end in
  let size :=
    match font_size with
    | Some n => Pt n
    | None =>
        match runs p with
        | r0 :: _ =>
            match r_size r0 with
            | Some z => if z =? 0 then Pt DEFAULT_FONT_SIZE else z
            | None => Pt DEFAULT_FONT_SIZE
            end
        | [] => Pt DEFAULT_FONT_SIZE
        end
    end in
  {| runs := [ {| r_text := english_text; r_drawing := None;
                  r_size := Some size; r_font := Some font_name |} ];
     alignment := Some align |}.

(** The new paragraph goes to position [index + 1] of the parent: right
    after [paragraph], before anything inserted there earlier.  A paragraph
    of a document always has a parent. *)
Definition add_english_below (s : Slot) (english_text : str)
    (font_size : option N) (font_name : option str)
    (alignment_arg : option Alignment) : Slot :=
  {| para := para s;
     after := english_paragraph (para s) english_text font_size font_name
                alignment_arg :: after s |}.

(** [set_paragraph_font_size]; the removal of the style binding is not
    modelled. *)
Definition set_paragraph_font_size (p : Paragraph) (font_size_pt : N)
    (target_chinese : bool) : Paragraph :=
  match runs p with
  | [] => p
  | _ =>
      let paragraph_has_chinese := is_chinese (text p) in
      let should_adjust :=
        if target_chinese then paragraph_has_chinese
        else negb paragraph_has_chinese in
      if negb should_adjust then p
      else
        {| runs := map (fun r =>
                          if negb (truthy (strip (r_text r))) then r
                          else {| r_text := r_text r;
                                  r_drawing := r_drawing r;
                                  r_size := Some (Pt font_size_pt);
                                  r_font := r_font r |}) (runs p);
           alignment := alignment p |}
  end.

(** *** DocumentState *)

Record Item := { para_index : nat; full_text : str; space_count : nat }.

(** A group; [merged_text] is set when the group is finalized.  The source
    also keeps in each item a reference ['para'] to the paragraph object,
    which is the paragraph [para_index] of [doc.paragraphs]. *)
Record Group := {
  group_id : nat;
  paragraphs : list Item;
  merged_text : option str }.

(** A value of the PCB term dictionary. *)
Inductive term_data := NotADict | TermDict (traditional : option str).

Record DocumentState := {
  continuous_abnormal_groups : list Group;
  current_group : option Group;
  translated_group_ids : gset nat;
  flowchart_original_tables : list nat;
  pcb_terms_dict : list (str * term_data);
  fixed_translation_map : gmap (list N) (list N) }.

Definition set_groups (st : DocumentState) (gs : list Group)
    (cur : option Group) : DocumentState :=
  {| continuous_abnormal_groups := gs;
     current_group := cur;
     translated_group_ids := translated_group_ids st;
     flowchart_original_tables := flowchart_original_tables st;
     pcb_terms_dict := pcb_terms_dict st;
     fixed_translation_map := fixed_translation_map st |}.

Definition mark_translated (st : DocumentState) (id : nat) : DocumentState :=
  {| continuous_abnormal_groups := continuous_abnormal_groups st;
     current_group := current_group st;
     translated_group_ids := {[ id ]} ∪ translated_group_ids st;
     flowchart_original_tables := flowchart_original_tables st;
     pcb_terms_dict := pcb_terms_dict st;
     fixed_translation_map := fixed_translation_map st |}.

Definition track_original (st : DocumentState) (k : nat) : DocumentState :=
  {| continuous_abnormal_groups := continuous_abnormal_groups st;
     current_group := current_group st;
     translated_group_ids := translated_group_ids st;
     flowchart_original_tables := flowchart_original_tables st ++ [k];
     pcb_terms_dict := pcb_terms_dict st;
     fixed_translation_map := fixed_translation_map st |}.

(** [DocumentState.reset] *)
Definition reset (st : DocumentState) : DocumentState :=
  {| continuous_abnormal_groups := [];
     current_group := None;
     translated_group_ids := ∅;
     flowchart_original_tables := [];
     pcb_terms_dict := pcb_terms_dict st;
     fixed_translation_map := fixed_translation_map st |}.

(** *** TranslationEngine *)

(** The loop over the comma-separated items of one dictionary entry. *)
Definition pcb_entry_matches (traditional text : str) : bool :=
  str_eqb traditional text
  || existsb (fun item => str_eqb (strip item) text)
       (split_on (fun c => (c =? 0xFF0C) || (c =? 0x2C)) traditional).

Fixpoint _check_pcb_terms_items (items : list (str * term_data)) (text : str)
  : option str :=
  match items with
  | [] => None
  | (english_key, NotADict) :: rest => _check_pcb_terms_items rest text
  | (english_key, TermDict traditional) :: rest =>
      if pcb_entry_matches (default [] traditional) text then Some english_key
      else _check_pcb_terms_items rest text
  end.

Definition _check_pcb_terms (st : DocumentState) (text : str) : option str :=
  _check_pcb_terms_items (pcb_terms_dict st) text.

(** The guard that opens [translate_text]. *)
Definition not_translatable (text : str) : bool :=
  negb (truthy text) || negb (truthy (strip text)) || negb (is_chinese text).

Section Engine.

(** [TranslationConfig.TRANSLATOR.translate]; [None] when the call raises. *)
Variable TRANSLATOR : str -> option str.

(** The [try] covers the whole body and the handler catches every
    [Exception], so the function always returns a string. *)
Definition _translate_with_llm (text : str) : str :=
  match TRANSLATOR text with
  | Some translated => strip translated
  | None => text
  end.

Definition translate_text (st : DocumentState) (text : str) : str :=
  if not_translatable text then text
  else
    let text_stripped := strip text in
    match fixed_translation_map st !! text_stripped with
    | Some fixed => fixed
    | None =>
        match _check_pcb_terms st text_stripped with
        | Some translation =>
            if truthy translation then translation
            else _translate_with_llm text
        | None => _translate_with_llm text
        end
    end.

(** *** ParagraphProcessor *)

Definition merge_group_text (paragraphs_list : list Item) : str :=
  match paragraphs_list with
  | [] => []
  | _ =>
      let lines := map (fun p => lstrip (full_text p)) paragraphs_list in
      let is_step_group :=
        existsb (fun p => truthy (get_step_number (full_text p)))
                paragraphs_list in
      if is_step_group then
        match lines with
        | [] => []
        | line0 :: rest =>
            fold_left (fun result line => result ++ lstrip line) rest line0
        end
      else join [SPACE] lines
  end.

(** Closing a group: compute its merged text and append it to the list. *)
Definition close_group (groups : list Group) (g : Group) : list Group :=
  groups ++ [ {| group_id := group_id g;
                 paragraphs := paragraphs g;
                 merged_text := Some (merge_group_text (paragraphs g)) |} ].

Definition new_item (paragraph : Paragraph) (para_index count : nat) : Item :=
  {| para_index := para_index;
     full_text := strip (text paragraph);
     space_count := count |}.

Definition record_long_space_paragraph (st : DocumentState)
    (paragraph : Paragraph) (para_index : option nat) : DocumentState :=
  let '(has_abnormal, count) := has_long_spaces_in_runs paragraph in
  let step_number := get_step_number_of_paragraph paragraph in
  if negb has_abnormal then
    match current_group st with
    | Some g =>
        set_groups st (close_group (continuous_abnormal_groups st) g) None
    | None => st
    end
  else
    match para_index with
    | None => st
    | Some i =>
        if truthy step_number then
          let groups :=
            match current_group st with
            | Some g => close_group (continuous_abnormal_groups st) g
            | None => continuous_abnormal_groups st
            end in
          set_groups st groups
            (Some {| group_id := length groups + 1;
                     paragraphs := [new_item paragraph i count];
                     merged_text := None |})
        else
          match current_group st with
          | Some g =>
              set_groups st (continuous_abnormal_groups st)
                (Some {| group_id := group_id g;
                         paragraphs :=
                           paragraphs g ++ [new_item paragraph i count];
                         merged_text := merged_text g |})
          | None =>
              set_groups st (continuous_abnormal_groups st)
                (Some {| group_id :=
                           length (continuous_abnormal_groups st) + 1;
                         paragraphs := [new_item paragraph i count];
                         merged_text := None |})
          end
    end.

(** [finalize_groups] leaves [current_group] as it is. *)
Definition finalize_groups (st : DocumentState) : DocumentState :=
  match current_group st with
  | Some g =>
      set_groups st (close_group (continuous_abnormal_groups st) g)
        (current_group st)
  | None => st
  end.

(** *** BilingualTranslator *)

(** [" " * (len(raw_text) - len(raw_text.lstrip()))] *)
Definition indent_of (raw_text : str) : str :=
  replicate (length raw_text - length (lstrip raw_text)) SPACE.

Definition SEPARATORS : str :=
  [DOT; SPACE; COLON; FULLWIDTH_COLON; IDEOGRAPHIC_SPACE; TAB; SPACE].

Definition _extract_content_after_number (text step_number : str) : str :=
  let content_start :=
    (find step_number text + Z.of_nat (length step_number))%Z in
  lstrip_chars SEPARATORS (drop (Z.to_nat content_start) text).

(** The search of [translate_paragraph] for the group a paragraph belongs
    to: the first group not yet translated with an item of that index,
    and whether that item has the index of the group's first item. *)
Definition matching_item (items : list Item) (index : option nat)
  : option Item :=
  List.find (fun item => bool_decide (Some (para_index item) = index)) items.

Fixpoint belonging_group (groups : list Group) (translated : gset nat)
    (index : option nat) : option (Group * bool) :=
  match groups with
  | [] => None
  | group :: rest =>
      if bool_decide (group_id group ∈ translated)
      then belonging_group rest translated index
      else
        match matching_item (paragraphs group) index with
        | Some item =>
            Some (group,
                  bool_decide
                    (Some (para_index item)
                     = para_index <$> head (paragraphs group)))
        | None => belonging_group rest translated index
        end
  end.

Definition clear_slot (s : Slot) : Slot :=
  {| para := clear_paragraph_text_keep_images (para s); after := after s |}.

Definition clear_all_runs (p : Paragraph) : Paragraph :=
  {| runs := map (fun r => set_run_text r []) (runs p);
     alignment := alignment p |}.

(** [body] holds the paragraph objects the items of the groups refer to;
    [paragraph] is the object passed by the caller, who stores the result
    back. *)
Definition _translate_grouped_paragraphs (st : DocumentState)
    (body : list Slot) (paragraph : Slot) (group : Group)
  : DocumentState * list Slot * Slot :=
  let merged_chinese := merge_group_text (paragraphs group) in
  let first_full_text := default [] (full_text <$> head (paragraphs group)) in
  let step_number := get_step_number first_full_text in
  let raw_text := text (para paragraph) in
  let indent := indent_of raw_text in
  let has_images := existsb has_picture (runs (para paragraph)) in
  let rewritten :=
    if has_images then
      add_run (clear_paragraph_text_keep_images (para paragraph))
              merged_chinese
    else
      add_run (clear_all_runs (para paragraph)) (indent ++ merged_chinese) in
  let pure_content :=
    if truthy step_number
    then _extract_content_after_number merged_chinese step_number
    else merged_chinese in
  let translated_full := translate_text st pure_content in
  let final_english := indent ++ strip translated_full in
  let paragraph' :=
    add_english_below {| para := rewritten; after := after paragraph |}
      final_english None None None in
  let body' :=
    fold_left (fun b item => alter clear_slot (para_index item) b)
              (tail (paragraphs group)) body in
  (mark_translated st (group_id group), body', paragraph').

Definition _translate_colon_no_content (st : DocumentState) (paragraph : Slot)
    (raw_text colon_part : str) : Slot :=
  let translated := translate_text st colon_part in
  let has_images := existsb has_picture (runs (para paragraph)) in
  let original_colon :=
    if mem_char FULLWIDTH_COLON raw_text then FULLWIDTH_COLON else COLON in
  let indent := indent_of raw_text in
  let new_text :=
    indent ++ colon_part ++ lit "(" ++ translated ++ lit ")"
    ++ [original_colon] in
  {| para :=
       if has_images then
         add_run (clear_paragraph_text_keep_images (para paragraph)) new_text
       else add_run (clear_all_runs (para paragraph)) new_text;
     after := after paragraph |}.

Definition _translate_colon_with_content (st : DocumentState)
    (paragraph : Slot) (raw_text stripped_text : str) : Slot :=
  let step_number := get_step_number stripped_text in
  let indent := indent_of raw_text in
  let translated :=
    if truthy step_number then
      translate_text st
        (_extract_content_after_number stripped_text step_number)
    else translate_text st stripped_text in
  add_english_below paragraph (indent ++ translated) None None None.

Definition _translate_no_colon (st : DocumentState) (paragraph : Slot)
    (raw_text stripped_text : str) : Slot :=
  let step_number := get_step_number stripped_text in
  let indent := indent_of raw_text in
  let translated :=
    if truthy step_number then
      translate_text st
        (_extract_content_after_number stripped_text step_number)
    else translate_text st stripped_text in
  add_english_below paragraph (indent ++ translated) None None None.

Definition _translate_regular_paragraph (st : DocumentState)
    (paragraph : Slot) : Slot :=
  let raw_text := text (para paragraph) in
  let stripped_text := strip raw_text in
  let '(has_colon, has_content, colon_part, _) :=
    check_colon_format stripped_text in
  if has_colon && negb has_content then
    _translate_colon_no_content st paragraph raw_text colon_part
  else if has_colon && has_content then
    _translate_colon_with_content st paragraph raw_text stripped_text
  else _translate_no_colon st paragraph raw_text stripped_text.

(** The test that guards every translation of a paragraph. *)
Definition qualifies (p : Paragraph) : bool :=
  truthy (strip (text p)) && is_chinese (text p).

Definition translate_paragraph (st : DocumentState) (body : list Slot)
    (paragraph : Slot) (para_index : option nat)
  : DocumentState * list Slot * Slot :=
  if negb (qualifies (para paragraph)) then (st, body, paragraph)
  else
    match belonging_group (continuous_abnormal_groups st)
            (translated_group_ids st) para_index with
    | Some (_, false) => (st, body, paragraph)
    | Some (group, true) =>
        _translate_grouped_paragraphs st body paragraph group
    | None => (st, body, _translate_regular_paragraph st paragraph)
    end.

End Engine.

(** *** Tables

    A cell holds paragraphs and nested tables, in document order;
    [cell.paragraphs] are the paragraphs that are direct children of the
    cell.  A table is its rows of cells.  Merged cells are not modelled. *)

Inductive CellItem :=
  | CPara (p : Paragraph)
  | CTable (rows : list (list (list CellItem))).

Abbreviation Cell := (list CellItem).
Abbreviation Table := (list (list (list CellItem))).

(** What [clone_and_translate_flowchart] inserts into the body. *)
Inductive Block := BPageBreak | BTable (t : Table).

(** A table of [doc.tables] with the blocks inserted after it. *)
Record TableSlot := { tbl : Table; inserted_after : list Block }.

Definition cell_paragraphs (cell : Cell) : list Paragraph :=
  flat_map (fun it => match it with CPara p => [p] | CTable _ => [] end) cell.

(** The [w:txbxContent] elements below a paragraph, a cell item, a cell:
    [findall('.//' + qn('w:txbxContent'))]. *)
Definition paragraph_textboxes (p : Paragraph) : list Textbox :=
  flat_map (fun r => default [] (r_drawing r)) (runs p).

Fixpoint item_textboxes (it : CellItem) : list Textbox :=
  match it with
  | CPara p => paragraph_textboxes p
  | CTable rows =>
      flat_map (fun row => flat_map (fun cell => flat_map item_textboxes cell)
                                    row) rows
  end.

Definition cell_textboxes (cell : Cell) : list Textbox :=
  flat_map item_textboxes cell.

(** Apply [f] to the first element it accepts, in order. *)
Section MapFirst.
Context {A : Type} (f : A -> option A).

Fixpoint map_first (l : list A) : option (list A) :=
  match l with
  | [] => None
  | x :: rest =>
      match f x with
      | Some x' => Some (x' :: rest)
      | None => cons x <$> map_first rest
      end
  end.
End MapFirst.

Section FirstTextbox.
Variable f : Textbox -> Textbox.

Definition run_first_textbox (r : Run) : option Run :=
  match r_drawing r with
  | Some tbs =>
      (fun tbs' => {| r_text := r_text r; r_drawing := Some tbs';
                      r_size := r_size r; r_font := r_font r |})
      <$> map_first (fun tb => Some (f tb)) tbs
  | None => None
  end.

Definition paragraph_first_textbox (p : Paragraph) : option Paragraph :=
  (fun rs => {| runs := rs; alignment := alignment p |})
  <$> map_first run_first_textbox (runs p).

Fixpoint item_first_textbox (it : CellItem) : option CellItem :=
  match it with
  | CPara p => CPara <$> paragraph_first_textbox p
  | CTable rows =>
      CTable
      <$> map_first (map_first (map_first item_first_textbox)) rows
  end.

(** The cell with [f] applied to the first of its textboxes, if any. *)
Definition cell_first_textbox (cell : Cell) : option Cell :=
  map_first item_first_textbox cell.
End FirstTextbox.

Section Passes.

Variable TRANSLATOR : str -> option str.

(** *** BilingualTranslator.translate_table *)

(** The list [english_lines] built by the loop over [all_numbers]. *)
Fixpoint number_lines (i : nat) (all_numbers translated_parts : list str)
  : list str :=
  match all_numbers with
  | [] => []
  | num :: rest =>
      match translated_parts !! i with
      | Some part =>
          (if truthy num then num ++ [DOT] ++ part else part)
          :: number_lines (S i) rest translated_parts
      | None => number_lines (S i) rest translated_parts
      end
  end.

(** The text [combined_english] that [_translate_numbered_table_cell] puts
    below the last of [paragraphs]. *)
Definition numbered_cell_english (st : DocumentState)
    (paragraphs : list Paragraph) : str :=
  let items :=
    map (fun p =>
           let stripped := strip (text p) in
           let step_num := get_step_number stripped in
           if truthy step_num
           then (_extract_content_after_number stripped step_num, step_num)
           else (stripped, [])) paragraphs in
  let all_chinese := map fst items in
  let all_numbers := map snd items in
  let merged_chinese := join [SPACE] all_chinese in
  let translated_full := translate_text TRANSLATOR st merged_chinese in
  let translated_parts :=
    filter (fun p => truthy p = true)
           (map strip (split_on (N.eqb DOT) translated_full)) in
  let english_lines :=
    number_lines 0 all_numbers translated_parts
    ++ (if (length all_numbers <? length translated_parts)%nat
        then drop (length all_numbers) translated_parts else []) in
  join [NEWLINE] english_lines.

Definition _translate_numbered_table_cell (st : DocumentState)
    (paragraphs : list Paragraph) : option Slot :=
  (fun last_para =>
     add_english_below (pristine last_para)
       (numbered_cell_english st paragraphs) None None None)
  <$> last paragraphs.

Definition item_qualifies (it : CellItem) : bool :=
  match it with CPara p => qualifies p | CTable _ => false end.

(** The cell after the paragraph [new] went in below the last of its
    qualifying paragraphs. *)
Fixpoint insert_below_last (cell : Cell) (new : list Paragraph) : Cell :=
  match cell with
  | [] => []
  | it :: rest =>
      if existsb item_qualifies rest then it :: insert_below_last rest new
      else if item_qualifies it then it :: map CPara new ++ rest
      else it :: rest
  end.

(** The loop [for p in paragraphs: self.translate_paragraph(p)] over the
    qualifying paragraphs of a cell; the other items stay. *)
Fixpoint translate_cell_items (st : DocumentState) (body : list Slot)
    (cell : Cell) : DocumentState * list Slot * Cell :=
  match cell with
  | [] => (st, body, [])
  | it :: rest =>
      let '(st1, body1, its) :=
        match it with
        | CPara p =>
            if qualifies p then
              let '(st', body', s') :=
                translate_paragraph TRANSLATOR st body (pristine p) None in
              (st', body', map CPara (para s' :: after s'))
            else (st, body, [it])
        | CTable _ => (st, body, [it])
        end in
      let '(st2, body2, rest') := translate_cell_items st1 body1 rest in
      (st2, body2, its ++ rest')
  end.

Definition translate_cell (st : DocumentState) (body : list Slot)
    (cell : Cell) : DocumentState * list Slot * Cell :=
  let paragraphs := filter (fun p => qualifies p = true)
                           (cell_paragraphs cell) in
  match paragraphs with
  | [] => (st, body, cell)
  | _ =>
      let has_numbers :=
        existsb (fun p => truthy (get_step_number (text p))) paragraphs in
      if has_numbers && (1 <? length paragraphs)%nat then
        match _translate_numbered_table_cell st paragraphs with
        | Some s => (st, body, insert_below_last cell (after s))
        | None => (st, body, cell)
        end
      else translate_cell_items st body cell
  end.

Fixpoint translate_cells (st : DocumentState) (body : list Slot)
    (cells : list Cell) : DocumentState * list Slot * list Cell :=
  match cells with
  | [] => (st, body, [])
  | cell :: rest =>
      let '(st1, body1, cell') := translate_cell st body cell in
      let '(st2, body2, rest') := translate_cells st1 body1 rest in
      (st2, body2, cell' :: rest')
  end.

Fixpoint translate_table (st : DocumentState) (body : list Slot)
    (table : Table) : DocumentState * list Slot * Table :=
  match table with
  | [] => (st, body, [])
  | row :: rest =>
      let '(st1, body1, row') := translate_cells st body row in
      let '(st2, body2, rest') := translate_table st1 body1 rest in
      (st2, body2, row' :: rest')
  end.

(** *** FlowchartHandler *)

Definition count_textboxes_in_table (table : Table) : nat :=
  list_sum (map (fun row =>
                   list_sum (map (fun cell => length (cell_textboxes cell))
                                 row)) table).

Definition is_flowchart_table (table : Table) : bool :=
  (FLOWCHART_TEXTBOX_THRESHOLD <=? count_textboxes_in_table table)%nat.

(** [_adjust_textbox_formatting], and the same lines written out in
    [clone_and_translate_flowchart]. *)
Definition _adjust_textbox_formatting (textbox : Textbox) : Textbox :=
  map (fun p =>
         {| tp_line := Some (lit "130");
            tp_lineRule := Some (lit "exact");
            tp_jc := Some (lit "center");
            tp_runs := map (fun r => {| tr_sz := Some (lit "11");
                                        tr_texts := tr_texts r |})
                           (tp_runs p) |}) textbox.

(** A text node is handled when its text is present and not blank. *)
Definition handled (t : option str) : bool :=
  match t with
  | Some s => truthy s && truthy (strip s)
  | None => false
  end.

Definition translate_text_elem (st : DocumentState) (t : option str)
  : option str :=
  match t with
  | Some original_text =>
      if handled t then
        let translated_text := translate_text TRANSLATOR st original_text in
        if truthy translated_text then Some translated_text else t
      else t
  | None => None
  end.

Definition textbox_texts (textbox : Textbox) : list (option str) :=
  flat_map (fun p => flat_map tr_texts (tp_runs p)) textbox.

(** The loop over the text nodes of one textbox.  The formatting touches
    no text and is the same at every round, so it is applied once, when
    some handled node held source-language text. *)
Definition translate_textbox (st : DocumentState) (textbox : Textbox)
  : Textbox :=
  let translated :=
    map (fun p =>
           {| tp_line := tp_line p; tp_lineRule := tp_lineRule p;
              tp_jc := tp_jc p;
              tp_runs := map (fun r =>
                                {| tr_sz := tr_sz r;
                                   tr_texts := map (translate_text_elem st)
                                                   (tr_texts r) |})
                             (tp_runs p) |}) textbox in
  if existsb (fun t => handled t && is_chinese (default [] t))
             (textbox_texts textbox)
  then _adjust_textbox_formatting translated
  else translated.

(** The paragraph loop of the clone: every run is emptied, then the
    translation is appended. *)
Definition translate_clone_paragraph (st : DocumentState) (p : Paragraph)
  : Paragraph :=
  if qualifies p then
    add_run (clear_all_runs p) (translate_text TRANSLATOR st (strip (text p)))
  else p.

Definition translate_clone_cell_paragraphs (st : DocumentState) (cell : Cell)
  : Cell :=
  map (fun it => match it with
                 | CPara p => CPara (translate_clone_paragraph st p)
                 | CTable _ => it
                 end) cell.

(** The loops of [clone_and_translate_flowchart] over the cells of the
    clone.  The [return] stands inside the loop over the textboxes of a
    cell: the function leaves after the first textbox of the first cell
    that has one.  The flag tells whether it has returned. *)
Fixpoint clone_cells (st : DocumentState) (cells : list Cell)
  : bool * list Cell :=
  match cells with
  | [] => (false, [])
  | cell :: rest =>
      let cell1 := translate_clone_cell_paragraphs st cell in
      match cell_first_textbox (translate_textbox st) cell1 with
      | Some cell2 => (true, cell2 :: rest)
      | None =>
          let '(returned, rest') := clone_cells st rest in
          (returned, cell1 :: rest')
      end
  end.

Fixpoint clone_rows (st : DocumentState) (rows : Table) : bool * Table :=
  match rows with
  | [] => (false, [])
  | row :: rest =>
      let '(returned, row') := clone_cells st row in
      if returned then (true, row' :: rest)
      else
        let '(returned', rest') := clone_rows st rest in
        (returned', row' :: rest')
  end.

(** [table] is the table [k] of [doc.tables]; its identity is recorded as
    that index.  [deepcopy] is the identity on values. *)
Definition clone_and_translate_flowchart (st : DocumentState) (k : nat)
    (table : Table) : DocumentState * TableSlot :=
  let st' := track_original st k in
  let cloned_elem := table in
  (st', {| tbl := table;
           inserted_after :=
             [BPageBreak; BTable (snd (clone_rows st' cloned_elem))] |}).

(** The generic pass.  [skip] tells that the enclosing table is one of
    [flowchart_original_tables]; the nearest enclosing table of a textbox
    in a nested table is the nested table, which is never in that list. *)
Definition translate_paragraph_textboxes (st : DocumentState)
    (p : Paragraph) : Paragraph :=
  {| runs := map (fun r =>
                    {| r_text := r_text r;
                       r_drawing := map (translate_textbox st)
                                    <$> r_drawing r;
                       r_size := r_size r; r_font := r_font r |}) (runs p);
     alignment := alignment p |}.

Fixpoint translate_item_textboxes (st : DocumentState) (skip : bool)
    (it : CellItem) : CellItem :=
  match it with
  | CPara p => if skip then it else CPara (translate_paragraph_textboxes st p)
  | CTable rows =>
      CTable (map (map (map (translate_item_textboxes st false))) rows)
  end.

Definition translate_table_textboxes (st : DocumentState) (skip : bool)
    (table : Table) : Table :=
  map (map (map (translate_item_textboxes st skip))) table.

End Passes.

(** *** Headers, footers and the document *)

Record HeaderFooter := {
  is_linked_to_previous : bool;
  hf_paragraphs : list Paragraph;
  hf_tables : list Table }.

(** [doc.paragraphs], [doc.tables] and, for each section, its three headers
    and three footers in the order of [translate_header_footer].  The
    tables of the body stand between its paragraphs; nothing modelled here
    depends on where. *)
Record Document := {
  doc_paragraphs : list Paragraph;
  doc_tables : list Table;
  doc_sections : list (list HeaderFooter) }.

(** The document after the passes: each paragraph of [doc.paragraphs] and
    each table of [doc.tables] with what was inserted after it. *)
Record Translated := {
  out_state : DocumentState;
  out_paragraphs : list Slot;
  out_tables : list TableSlot;
  out_sections : list (list HeaderFooter) }.

Section Pipeline.

Variable TRANSLATOR : str -> option str.

Definition translate_hf_paragraph (st : DocumentState) (p : Paragraph)
  : list Paragraph :=
  if qualifies p then
    let p1 := set_paragraph_font_size p HEADER_FOOTER_CHINESE_SIZE true in
    let translated := translate_text TRANSLATOR st (text p1) in
    if truthy translated then
      let s := add_english_below (pristine p1) translated
                 (Some HEADER_FOOTER_ENGLISH_SIZE) None (Some CENTER) in
      para s :: after s
    else [p1]
  else [p].

(** The paragraphs of the cells of a header or footer table;
    [processed_texts] is shared by the cells of one table. *)
Fixpoint translate_hf_cell (st : DocumentState)
    (processed_texts : gset (list N)) (cell : Cell)
  : gset (list N) * Cell :=
  match cell with
  | [] => (processed_texts, [])
  | CPara p :: rest =>
      let full_text := strip (text p) in
      let '(processed1, ps) :=
        if truthy full_text && is_chinese full_text then
          let p1 := set_paragraph_font_size p HEADER_FOOTER_CHINESE_SIZE true in
          if bool_decide (full_text ∈ processed_texts)
          then (processed_texts, [p1])
          else
            let translated := translate_text TRANSLATOR st (text p1) in
            if truthy translated then
              let s := add_english_below (pristine p1) translated
                         (Some TABLE_HEADER_ENGLISH_SIZE) None (Some CENTER) in
              ({[ full_text ]} ∪ processed_texts, para s :: after s)
            else (processed_texts, [p1])
        else (processed_texts, [p]) in
      let '(processed2, rest') := translate_hf_cell st processed1 rest in
      (processed2, map CPara ps ++ rest')
  | it :: rest =>
      let '(processed2, rest') := translate_hf_cell st processed_texts rest in
      (processed2, it :: rest')
  end.

Fixpoint translate_hf_cells (st : DocumentState)
    (processed_texts : gset (list N)) (cells : list Cell)
  : gset (list N) * list Cell :=
  match cells with
  | [] => (processed_texts, [])
  | cell :: rest =>
      let '(processed1, cell') := translate_hf_cell st processed_texts cell in
      let '(processed2, rest') := translate_hf_cells st processed1 rest in
      (processed2, cell' :: rest')
  end.

Fixpoint translate_hf_rows (st : DocumentState)
    (processed_texts : gset (list N)) (rows : Table) : gset (list N) * Table :=
  match rows with
  | [] => (processed_texts, [])
  | row :: rest =>
      let '(processed1, row') := translate_hf_cells st processed_texts row in
      let '(processed2, rest') := translate_hf_rows st processed1 rest in
      (processed2, row' :: rest')
  end.

Definition translate_hf (st : DocumentState) (hf : HeaderFooter)
  : HeaderFooter :=
  if is_linked_to_previous hf then hf
  else
    {| is_linked_to_previous := false;
       hf_paragraphs := flat_map (translate_hf_paragraph st) (hf_paragraphs hf);
       hf_tables := map (fun t => snd (translate_hf_rows st ∅ t))
                        (hf_tables hf) |}.

Definition translate_header_footer (st : DocumentState)
    (sections : list (list HeaderFooter)) : list (list HeaderFooter) :=
  map (map (translate_hf st)) sections.

(** Step 1 of [translate_document]: the grouping pass. *)
Fixpoint record_paragraphs (st : DocumentState) (i : nat)
    (ps : list Paragraph) : DocumentState :=
  match ps with
  | [] => st
  | paragraph :: rest =>
      record_paragraphs
        (if qualifies paragraph
         then record_long_space_paragraph st paragraph (Some i)
         else st)
        (S i) rest
  end.

Definition grouping_pass (st : DocumentState) (ps : list Paragraph)
  : DocumentState :=
  finalize_groups (record_paragraphs st 0 ps).

(** Step 2: one round of the loop over [enumerate(doc.paragraphs)], for the
    paragraph of index [i], and the loop. *)
Definition translate_body_paragraph (st : DocumentState) (body : list Slot)
    (i : nat) : DocumentState * list Slot :=
  match body !! i with
  | Some paragraph =>
      if truthy (strip (text (para paragraph))) then
        let '(st', body', paragraph') :=
          translate_paragraph TRANSLATOR st body paragraph (Some i) in
        (st', <[ i := paragraph' ]> body')
      else (st, body)
  | None => (st, body)
  end.

Definition translate_body (st : DocumentState) (body : list Slot)
  : DocumentState * list Slot :=
  fold_left (fun acc i => translate_body_paragraph acc.1 acc.2 i)
            (seq 0 (length body)) (st, body).

(** Step 3: the loop over [doc.tables]. *)
Fixpoint translate_tables (st : DocumentState) (body : list Slot) (k : nat)
    (tables : list Table) : DocumentState * list Slot * list TableSlot :=
  match tables with
  | [] => (st, body, [])
  | table :: rest =>
      let '(st1, body1, slot) :=
        if is_flowchart_table table then
          let '(st', slot) :=
            clone_and_translate_flowchart TRANSLATOR st k table in
          (st', body, slot)
        else
          let '(st', body', table') :=
            translate_table TRANSLATOR st body table in
          (st', body', {| tbl := table'; inserted_after := [] |}) in
      let '(st2, body2, rest') := translate_tables st1 body1 (S k) rest in
      (st2, body2, slot :: rest')
  end.

(** Step 5: [translate_textboxes_in_doc].  A textbox of a body paragraph
    has no enclosing table. *)
Definition translate_slot_textboxes (st : DocumentState) (s : Slot) : Slot :=
  {| para := translate_paragraph_textboxes TRANSLATOR st (para s);
     after := map (translate_paragraph_textboxes TRANSLATOR st) (after s) |}.

Definition translate_block_textboxes (st : DocumentState) (b : Block)
  : Block :=
  match b with
  | BPageBreak => BPageBreak
  | BTable t => BTable (translate_table_textboxes TRANSLATOR st false t)
  end.

Definition translate_table_slot_textboxes (st : DocumentState) (k : nat)
    (s : TableSlot) : TableSlot :=
  {| tbl := translate_table_textboxes TRANSLATOR st
              (bool_decide (k ∈ flowchart_original_tables st)) (tbl s);
     inserted_after := map (translate_block_textboxes st) (inserted_after s) |}.

(** Steps 1 to 5 of [translate_document]; the state comes with its
    dictionaries loaded.  The passes that follow (font shrinking, font
    names, removal of empty paragraphs) are not modelled. *)
Definition translate_document (st0 : DocumentState) (doc : Document)
  : Translated :=
  let st1 := grouping_pass (reset st0) (doc_paragraphs doc) in
  let '(st2, body2) := translate_body st1 (map pristine (doc_paragraphs doc)) in
  let '(st3, body3, tables3) := translate_tables st2 body2 0 (doc_tables doc) in
  let sections4 := translate_header_footer st3 (doc_sections doc) in
  {| out_state := st3;
     out_paragraphs := map (translate_slot_textboxes st3) body3;
     out_tables := imap (translate_table_slot_textboxes st3) tables3;
     out_sections := sections4 |}.

End Pipeline.

(** *** Sample data for the examples *)

(** The state of a run without dictionaries. *)
Definition empty_state : DocumentState :=
  {| continuous_abnormal_groups := [];
     current_group := None;
     translated_group_ids := ∅;
     flowchart_original_tables := [];
     pcb_terms_dict := [];
     fixed_translation_map := ∅ |}.


Definition text_run (t : str) : Run :=
  {| r_text := t; r_drawing := None; r_size := None; r_font := None |}.

Definition plain (t : str) : Paragraph :=
  {| runs := [text_run t]; alignment := None |}.

(** A backend that answers every text with the same string, and one that
    always fails. *)
Definition constant_backend (answer : str) : str -> option str :=
  fun _ => Some answer.

Definition failing_backend : str -> option str := fun _ => None.

(** A backend that shows what it was sent. *)
Definition echo_backend : str -> option str :=
  fun s => Some (lit "<" ++ s ++ lit ">").

(** "備註" and the paragraphs "備註：" and "：備註". *)
Definition REMARKS : str := [0x5099; 0x8A3B].

Definition remarks_paragraph : Paragraph := plain (REMARKS ++ [FULLWIDTH_COLON]).

Definition colon_first_paragraph : Paragraph :=
  plain (FULLWIDTH_COLON :: REMARKS).

(** Scenario B: two indented paragraphs without numbering, "注意事項" and
    "請小心操作", then "結果：" without indentation. *)
Definition NOTICE : str := [0x6CE8; 0x610F; 0x4E8B; 0x9805].
Definition CAREFUL : str := [0x8ACB; 0x5C0F; 0x5FC3; 0x64CD; 0x4F5C].
Definition RESULT : str := [0x7D50; 0x679C].

Definition scenario_b : list Paragraph :=
  [ plain (lit "   " ++ NOTICE);
    plain (lit "   " ++ CAREFUL);
    plain (RESULT ++ [FULLWIDTH_COLON]) ].

Definition scenario_b_group : Group :=
  {| group_id := 1;
     paragraphs :=
       [ {| para_index := 0; full_text := NOTICE; space_count := 3 |};
         {| para_index := 1; full_text := CAREFUL; space_count := 3 |} ];
     merged_text := Some (NOTICE ++ lit " " ++ CAREFUL) |}.

(** The same group when its seed also holds a picture. *)
Definition picture_run : Run :=
  {| r_text := []; r_drawing := Some []; r_size := None; r_font := None |}.

Definition seed_with_picture : Paragraph :=
  {| runs := [picture_run; text_run (lit "   " ++ NOTICE)];
     alignment := None |}.

Definition picture_group_document : Document :=
  {| doc_paragraphs := [seed_with_picture; plain (lit "   " ++ CAREFUL)];
     doc_tables := [];
     doc_sections := [] |}.

(** Scenario E: a cell with the items "1. 注意事項" and "2. 請小心操作";
    and the same cell with a closing paragraph "end". *)
Definition scenario_e_cell : Cell :=
  [ CPara (plain (lit "1. " ++ NOTICE)); CPara (plain (lit "2. " ++ CAREFUL)) ].

Definition cell_with_closing_line : Cell :=
  scenario_e_cell ++ [CPara (plain (lit "end"))].

(** A textbox with one text node, a paragraph that holds textboxes in a
    drawing, and a table of one cell with three textboxes in English. *)
Definition textbox_of (t : str) : Textbox :=
  [ {| tp_line := None; tp_lineRule := None; tp_jc := None;
       tp_runs := [ {| tr_sz := None; tr_texts := [Some t] |} ] |} ].

Definition drawing_paragraph (textboxes : list Textbox) : Paragraph :=
  {| runs := [ {| r_text := []; r_drawing := Some textboxes;
                  r_size := None; r_font := None |} ];
     alignment := None |}.

Definition english_flowchart : Table :=
  [[ [ CPara (drawing_paragraph
                [textbox_of (lit "Start"); textbox_of (lit "Check");
                 textbox_of (lit "End")]) ] ]].

Definition english_flowchart_document : Document :=
  {| doc_paragraphs := [plain (lit "Procedure")];
     doc_tables := [english_flowchart];
     doc_sections := [] |}.

(** A textbox after [_adjust_textbox_formatting]. *)
Definition normalized_textbox_of (t : str) : Textbox :=
  [ {| tp_line := Some (lit "130"); tp_lineRule := Some (lit "exact");
       tp_jc := Some (lit "center");
       tp_runs := [ {| tr_sz := Some (lit "11"); tr_texts := [Some t] |} ] |} ].

(** A flowchart of one row: a cell with three textboxes in Chinese, then a
    cell with the paragraph "請小心操作". *)
Definition chinese_flowchart : Table :=
  [[ [ CPara (drawing_paragraph
                [textbox_of NOTICE; textbox_of CAREFUL; textbox_of RESULT]) ];
     [ CPara (plain CAREFUL) ] ]].

(** A flowchart whose third textbox stands in a table nested in its cell. *)
Definition nested_flowchart : Table :=
  [[ [ CPara (drawing_paragraph [textbox_of NOTICE; textbox_of CAREFUL]);
       CTable [[ [ CPara (drawing_paragraph [textbox_of RESULT]) ] ]] ] ]].

Definition nested_flowchart_document : Document :=
  {| doc_paragraphs := [];
     doc_tables := [nested_flowchart];
     doc_sections := [] |}.

(** Scenario A: the paragraph "4.9 檢查完整性", numbered and not
    indented. *)
Definition INSPECT : str := [0x6AA2; 0x67E5; 0x5B8C; 0x6574; 0x6027].

Definition scenario_a : Paragraph := plain (lit "4.9 " ++ INSPECT).

(** "  4.9：檢查完整性  ": a numbered text with separators after the
    number, and "\t 備註": an indent of a tab and a space. *)
Definition numbered_step : str :=
  lit "4.9" ++ [FULLWIDTH_COLON; SPACE] ++ INSPECT.

Definition tab_indented : Paragraph := plain ([TAB; SPACE] ++ REMARKS).

(** Scenario B after the grouping pass, and its paragraph objects. *)
Definition scenario_b_state : DocumentState :=
  grouping_pass empty_state scenario_b.

Definition scenario_b_body : list Slot := map pristine scenario_b.

(** A backend that answers from a glossary, and shows what it was sent
    when the glossary has no entry for it. *)
Definition glossary_backend (entries : list (str * str))
  : str -> option str :=
  fun s =>
    Some (default (lit "<" ++ s ++ lit ">")
            (snd <$> List.find (fun entry => str_eqb (fst entry) s) entries)).

(** "備註 ：" behind a space and a tab and before a space; "：備註" behind
    a tab and a space; "4.9： 檢查完整性" behind two spaces. *)
Definition indented_remarks_paragraph : Paragraph :=
  plain ([SPACE; TAB] ++ REMARKS ++ [SPACE] ++ [FULLWIDTH_COLON; SPACE]).

Definition indented_colon_first_paragraph : Paragraph :=
  plain ([TAB; SPACE] ++ (FULLWIDTH_COLON :: REMARKS) ++ [SPACE]).

Definition indented_step_paragraph : Paragraph :=
  plain (lit "  " ++ numbered_step ++ [SPACE]).

(** *** Vocabulary of the specification *)

(** A string without trailing whitespace. *)
Definition trimmed_right (s : str) : Prop := lstrip (rev s) = rev s.

Definition group_indices (g : Group) : list nat :=
  map para_index (paragraphs g).

Definition all_indices (gs : list Group) : list nat :=
  flat_map group_indices gs.

(** The index of the seed, the first member of a group. *)
Definition seed_index (g : Group) : option nat :=
  para_index <$> head (paragraphs g).

(** A member whose text carries a numbering prefix. *)
Definition numbered (it : Item) : bool := truthy (get_step_number (full_text it)).

(** An item records the paragraph of its index and its stripped text. *)
Definition item_of (ps : list Paragraph) (it : Item) : Prop :=
  exists p, ps !! para_index it = Some p /\ full_text it = strip (text p).

(** The groups open or closed so far. *)
Definition open_group (st : DocumentState) : list Group :=
  match current_group st with Some g => [g] | None => [] end.

(** The invariant of the grouping pass before it reads paragraph [i]. *)
Definition grouping_inv (ps : list Paragraph) (i : nat) (st : DocumentState)
  : Prop :=
  StronglySorted lt (all_indices (continuous_abnormal_groups st ++ open_group st))
  /\ Forall (fun j => (j < i)%nat)
            (all_indices (continuous_abnormal_groups st ++ open_group st))
  /\ Forall (fun g => paragraphs g <> [] /\ Forall (item_of ps) (paragraphs g))
            (continuous_abnormal_groups st ++ open_group st)
  /\ Forall (fun g => merged_text g = Some (merge_group_text (paragraphs g)))
            (continuous_abnormal_groups st).

(** The text sent to translation for a group: its merged text without the
    numbering prefix of the seed. *)
Definition group_pure_content (g : Group) : str :=
  let merged := merge_group_text (paragraphs g) in
  let step_number :=
    get_step_number (default [] (full_text <$> head (paragraphs g))) in
  if truthy step_number
  then _extract_content_after_number merged step_number
  else merged.

(** For a numbered table cell: the number of an item, its content without
    the number, the segments of a translation (split on the full stop,
    trimmed, empty ones dropped), and the segments with the numbers put
    back by position; segments beyond the numbers stay unlabelled. *)
Definition item_number (p : Paragraph) : str :=
  get_step_number (strip (text p)).

Definition item_content (p : Paragraph) : str :=
  if truthy (item_number p)
  then _extract_content_after_number (strip (text p)) (item_number p)
  else strip (text p).

Definition sentence_parts (translated : str) : list str :=
  filter (fun p => truthy p = true) (map strip (split_on (N.eqb DOT) translated)).

Fixpoint labelled_lines (numbers parts : list str) {struct parts}
  : list str :=
  match parts with
  | [] => []
  | part :: parts' =>
      match numbers with
      | [] => part :: parts'
      | num :: numbers' =>
          (if truthy num then num ++ [DOT] ++ part else part)
          :: labelled_lines numbers' parts'
      end
  end.

(** No source-language character in a text node, a textbox, a paragraph
    (its text and its textboxes), a cell item, a table, a header or footer,
    a document. *)
Definition text_elem_no_chinese (t : option str) : bool :=
  negb (is_chinese (default [] t)).

Definition textbox_no_chinese (textbox : Textbox) : bool :=
  forallb text_elem_no_chinese (textbox_texts textbox).

Definition paragraph_no_chinese (p : Paragraph) : bool :=
  negb (is_chinese (text p))
  && forallb textbox_no_chinese (paragraph_textboxes p).

Fixpoint item_no_chinese (it : CellItem) : bool :=
  match it with
  | CPara p => paragraph_no_chinese p
  | CTable rows => forallb (forallb (forallb item_no_chinese)) rows
  end.

Definition table_no_chinese (table : Table) : bool :=
  forallb (forallb (forallb item_no_chinese)) table.

Definition hf_no_chinese (hf : HeaderFooter) : bool :=
  forallb paragraph_no_chinese (hf_paragraphs hf)
  && forallb table_no_chinese (hf_tables hf).

Definition document_no_chinese (doc : Document) : bool :=
  forallb paragraph_no_chinese (doc_paragraphs doc)
  && forallb table_no_chinese (doc_tables doc)
  && forallb (forallb hf_no_chinese) (doc_sections doc).

(** What the table pass leaves for a table without source-language text:
    the table, followed by a page break and a copy when it is a
    flowchart. *)
Definition untranslated_table_slot (table : Table) : TableSlot :=
  {| tbl := table;
     inserted_after :=
       if is_flowchart_table table then [BPageBreak; BTable table] else [] |}.

(** *** DocumentFormatter *)

(** [remove_empty_paragraphs], on [doc.paragraphs]: a paragraph goes when
    its text is blank and none of its runs holds a picture. *)
Definition is_removed (p : Paragraph) : bool :=
  negb (truthy (strip (text p))) && negb (existsb has_picture (runs p)).

Definition remove_empty_paragraphs (ps : list Paragraph) : list Paragraph :=
  filter (fun p => is_removed p = false) ps.

(** *** More vocabulary *)

(** What an atom of a pattern may capture. *)
Definition atom_accepts (a : atom) (m : str) : Prop :=
  forallb (cls a) m = true
  /\ match qty a with
     | One => length m = 1%nat
     | Plus => (1 <= length m)%nat
     | Star => True
     end.

Definition is_separator (c : N) : bool := mem_char c SEPARATORS.

(** The runs of a paragraph that hold a drawing, in order. *)
Definition drawing_runs (p : Paragraph) : list Run :=
  List.filter has_picture (runs p).

(** A paragraph the grouping pass reads as indented. *)
Definition indented (p : Paragraph) : bool := (has_long_spaces_in_runs p).1.

(** A member of a group stands for a source-language paragraph with
    leading spaces or tabs, and records its indent width. *)
Definition member_of (ps : list Paragraph) (it : Item) : Prop :=
  exists p, ps !! para_index it = Some p
            /\ qualifies p = true
            /\ indented p = true
            /\ space_count it = (has_long_spaces_in_runs p).2.

(** The paragraph of an item carries no numbering prefix. *)
Definition unnumbered_in (ps : list Paragraph) (it : Item) : Prop :=
  forall p, ps !! para_index it = Some p ->
            get_step_number_of_paragraph p = [].

(** Every source-language paragraph from the index [a] of a member up to
    [hi] (excluded) is a member of the group. *)
Definition covers_up_to (ps : list Paragraph) (hi : nat) (g : Group) : Prop :=
  forall a j p, a ∈ group_indices g -> (a < j < hi)%nat ->
                ps !! j = Some p -> qualifies p = true ->
                j ∈ group_indices g.

(** A group is a run of source-language paragraphs: between two members
    every source-language paragraph is a member. *)
Definition contiguous (ps : list Paragraph) (g : Group) : Prop :=
  forall a b j p, a ∈ group_indices g -> b ∈ group_indices g ->
                  (a < j < b)%nat -> ps !! j = Some p ->
                  qualifies p = true -> j ∈ group_indices g.

(** The members of a group are indented source-language paragraphs, and
    only the first may be numbered. *)
Definition group_members_ok (ps : list Paragraph) (g : Group) : Prop :=
  Forall (member_of ps) (paragraphs g)
  /\ Forall (unnumbered_in ps) (tail (paragraphs g)).

(** The closed groups before paragraph [i] is read: the ids count them. *)
Definition closed_groups_inv (ps : list Paragraph) (i : nat)
    (gs : list Group) : Prop :=
  map group_id gs = seq 1 (length gs)
  /\ Forall (fun g => group_members_ok ps g
                      /\ exists hi, (hi <= i)%nat /\ covers_up_to ps hi g
                                    /\ Forall (fun a => (a < hi)%nat)
                                              (group_indices g)) gs.

(** The open group, when [n] groups are closed. *)
Definition open_group_inv (ps : list Paragraph) (i n : nat) (g : Group)
  : Prop :=
  group_id g = S n
  /\ group_members_ok ps g
  /\ covers_up_to ps i g
  /\ Forall (fun a => (a < i)%nat) (group_indices g).

(** Every indented source-language paragraph read so far has its index in
    the list. *)
Definition covered (ps : list Paragraph) (i : nat) (l : list nat) : Prop :=
  forall j p, (j < i)%nat -> ps !! j = Some p -> qualifies p = true ->
              indented p = true -> j ∈ l.

(** The second invariant of the grouping pass before it reads paragraph
    [i]. *)
Definition grouping_inv2 (ps : list Paragraph) (i : nat) (st : DocumentState)
  : Prop :=
  closed_groups_inv ps i (continuous_abnormal_groups st)
  /\ (forall g, current_group st = Some g ->
                open_group_inv ps i (length (continuous_abnormal_groups st)) g)
  /\ covered ps i
       (all_indices (continuous_abnormal_groups st ++ open_group st)).

(** The tables nested in a cell, in order. *)
Definition cell_tables (cell : Cell) : list Table :=
  flat_map (fun it => match it with
                      | CPara _ => []
                      | CTable rows => [rows]
                      end) cell.

(** The drawing runs of the paragraphs that are direct children of a
    cell, in order. *)
Definition cell_drawings (cell : Cell) : list Run :=
  flat_map drawing_runs (cell_paragraphs cell).

(** What a pass may do to a paragraph object it does not translate: leave
    it, or clear it. *)
Definition kept_or_cleared (s s' : Slot) : Prop :=
  after s' = after s
  /\ (para s' = para s
      \/ para s' = clear_paragraph_text_keep_images (para s)).

Section CellLoop.

Variable TRANSLATOR : str -> option str.

(** What the paragraph-by-paragraph loop of a cell leaves in the place of
    one item of the cell. *)
Definition translated_item (st : DocumentState) (it : CellItem) : Cell :=
  match it with
  | CPara p =>
      if qualifies p then
        map CPara
          (para (_translate_regular_paragraph TRANSLATOR st (pristine p))
           :: after (_translate_regular_paragraph TRANSLATOR st (pristine p)))
      else [it]
  | CTable _ => [it]
  end.

End CellLoop.

(** *** The paragraph loop in closed form *)

(** The indices of the members of the groups other than the seeds. *)
Definition later_members (gs : list Group) : list nat :=
  flat_map (fun g => map para_index (tail (paragraphs g))) gs.

(** The group whose seed is paragraph [j]. *)
Definition seed_group (gs : list Group) (j : nat) : option Group :=
  List.find (fun g => bool_decide (seed_index g = Some j)) gs.

(** Paragraph [j] is a later member of a group whose seed comes before
    paragraph [k]. *)
Definition cleared_before (gs : list Group) (k j : nat) : Prop :=
  exists g s, g ∈ gs /\ seed_index g = Some s /\ (s < k)%nat
              /\ j ∈ map para_index (tail (paragraphs g)).

(** The translation reads the state through its two dictionaries only. *)
Definition same_dictionaries (st st' : DocumentState) : Prop :=
  pcb_terms_dict st' = pcb_terms_dict st
  /\ fixed_translation_map st' = fixed_translation_map st.

Section ParagraphLoop.

Variable TRANSLATOR : str -> option str.

(** A paragraph object outside the unconsumed groups, after its round. *)
Definition regular_result (st : DocumentState) (s : Slot) : Slot :=
  if qualifies (para s) then _translate_regular_paragraph TRANSLATOR st s
  else s.

(** The seed of a group, after its round. *)
Definition seed_result (st : DocumentState) (g : Group) (s : Slot) : Slot :=
  (_translate_grouped_paragraphs TRANSLATOR st [] s g).2.

(** Paragraph [j] of the document after the paragraph loop, for the state
    [st] the grouping pass left: the seed of a group is rewritten and gets
    the translation of the group; a later member is cleared; any other
    paragraph, and a cleared one that still holds source-language text, is
    translated on its own. *)
Definition body_result (st : DocumentState) (j : nat) (p : Paragraph)
  : Slot :=
  match seed_group (continuous_abnormal_groups st) j with
  | Some g => seed_result st g (pristine p)
  | None =>
      regular_result st
        (if bool_decide (j ∈ later_members (continuous_abnormal_groups st))
         then clear_slot (pristine p) else pristine p)
  end.

(** The invariant of the paragraph loop before round [k]; [st1] is the
    state the grouping pass left. *)
Definition loop_inv (ps : list Paragraph) (st1 : DocumentState) (k : nat)
    (st : DocumentState) (body : list Slot) : Prop :=
  continuous_abnormal_groups st = continuous_abnormal_groups st1
  /\ same_dictionaries st1 st
  /\ (forall g, g ∈ continuous_abnormal_groups st1 ->
                group_id g ∈ translated_group_ids st
                <-> exists s, seed_index g = Some s /\ (s < k)%nat)
  /\ length body = length ps
  /\ (forall j p, ps !! j = Some p ->
        ((j < k)%nat -> body !! j = Some (body_result st1 j p))
        /\ ((k <= j)%nat ->
            cleared_before (continuous_abnormal_groups st1) k j ->
            body !! j = Some (clear_slot (pristine p)))
        /\ ((k <= j)%nat ->
            ~ cleared_before (continuous_abnormal_groups st1) k j ->
            body !! j = Some (pristine p))).

End ParagraphLoop.

(** The indices, counted from [k], of the tables that hold enough
    textboxes to be taken for flowcharts. *)
Fixpoint flowchart_indices (k : nat) (tables : list Table) : list nat :=
  match tables with
  | [] => []
  | table :: rest =>
      if is_flowchart_table table then k :: flowchart_indices (S k) rest
      else flowchart_indices (S k) rest
  end.

(** What the table loop leaves after a table: a page break and a clone
    after a flowchart, nothing after another table. *)
Definition cloned_iff_flowchart (table : Table) (s : TableSlot) : Prop :=
  if is_flowchart_table table
  then exists clone, inserted_after s = [BPageBreak; BTable clone]
  else inserted_after s = [].

(** The paragraphs that are direct children of the cells of a table. *)
Definition table_paragraphs (table : Table) : list Paragraph :=
  flat_map (flat_map cell_paragraphs) table.

(** What the loop over a header or footer table keeps between two
    paragraphs: the texts already translated only grow, one paragraph is
    inserted for each new text, and each new text is the trimmed text of
    a paragraph read. *)
Definition translated_once (processed processed' : gset (list N))
    (before after : list Paragraph) : Prop :=
  processed ⊆ processed'
  /\ (length after + size processed = length before + size processed')%nat
  /\ (forall x, x ∈ processed' ->
        x ∈ processed \/ exists p, p ∈ before /\ strip (text p) = x).

(** ** Part II.  Properties *)

(** *** Strings *)

Lemma lstrip_length (s : str) : (length (lstrip s) <= length s)%nat.
Proof.
  induction s as [|c s IH]; simpl; [lia|].
  destruct (is_space c); simpl; lia.
Qed.

Lemma lstrip_head (s : str) c r :
  lstrip s = c :: r -> is_space c = false.
Proof.
  induction s as [|d s IH]; simpl; [discriminate|].
  destruct (is_space d) eqn:E; [exact IH|].
  intros [= <- _]. exact E.
Qed.

Lemma lstrip_nonspace c (r : str) :
  is_space c = false -> lstrip (c :: r) = c :: r.
Proof. intros H. simpl. now rewrite H. Qed.

Lemma lstrip_idem (s : str) : lstrip (lstrip s) = lstrip s.
Proof.
  destruct (lstrip s) as [|c r] eqn:E; [reflexivity|].
  apply lstrip_nonspace. eapply lstrip_head. exact E.
Qed.

Lemma lstrip_split (s : str) :
  exists ws, s = ws ++ lstrip s /\ forallb is_space ws = true.
Proof.
  induction s as [|c s (ws & Hs & Hws)]; [now exists []|].
  simpl. destruct (is_space c) eqn:E.
  - exists (c :: ws). simpl. rewrite E, Hws. split; [now f_equal|reflexivity].
  - now exists [].
Qed.

Lemma lstrip_spaces (ws s : str) :
  forallb is_space ws = true -> lstrip (ws ++ s) = lstrip s.
Proof.
  induction ws as [|c ws IH]; simpl; [reflexivity|].
  intros [Hc Hws]%andb_true_iff. rewrite Hc. now apply IH.
Qed.


Lemma rstrip_trimmed_right (s : str) : trimmed_right (rstrip s).
Proof.
  unfold trimmed_right, rstrip. rewrite rev_involutive. apply lstrip_idem.
Qed.

Lemma rstrip_fixed (s : str) : trimmed_right s -> rstrip s = s.
Proof.
  unfold trimmed_right, rstrip. intros ->. apply rev_involutive.
Qed.

Lemma rstrip_split (s : str) :
  exists ws, s = rstrip s ++ ws /\ forallb is_space ws = true.
Proof.
  destruct (lstrip_split (rev s)) as (ws & Hs & Hws).
  exists (rev ws). split.
  - unfold rstrip. rewrite <- rev_app_distr, <- Hs. now rewrite rev_involutive.
  - rewrite forallb_forall in *. intros x Hx. apply Hws. now apply in_rev.
Qed.

Lemma lstrip_trimmed_right (s : str) :
  trimmed_right s -> trimmed_right (lstrip s).
Proof.
  unfold trimmed_right. intros H.
  destruct (lstrip_split s) as (ws & Hs & Hws).
  destruct (rev (lstrip s)) as [|c r] eqn:E; [reflexivity|].
  apply lstrip_nonspace.
  rewrite Hs, rev_app_distr, E in H. simpl in H.
  destruct (is_space c) eqn:Ec; [|reflexivity].
  exfalso.
  pose proof (lstrip_length (r ++ rev ws)) as Hlen.
  rewrite H in Hlen. simpl in Hlen. lia.
Qed.

Lemma strip_trimmed_right (s : str) : trimmed_right (strip s).
Proof. apply lstrip_trimmed_right, rstrip_trimmed_right. Qed.

Lemma lstrip_strip (s : str) : lstrip (strip s) = strip s.
Proof. apply lstrip_idem. Qed.

Lemma strip_idem (s : str) : strip (strip s) = strip s.
Proof.
  unfold strip at 1. rewrite rstrip_fixed by apply strip_trimmed_right.
  apply lstrip_strip.
Qed.

(** A string and its stripped form differ by whitespace at both ends. *)
Lemma strip_split (s : str) :
  exists a b, s = a ++ strip s ++ b
              /\ forallb is_space a = true /\ forallb is_space b = true.
Proof.
  destruct (rstrip_split s) as (b & Hs & Hb).
  destruct (lstrip_split (rstrip s)) as (a & Hr & Ha).
  exists a, b. split; [|now split].
  unfold strip. rewrite app_assoc, <- Hr. exact Hs.
Qed.


(** A trimmed string that ends in whitespace only after some point ends
    there. *)
Lemma trimmed_right_tail (pre rem : str) :
  trimmed_right (pre ++ rem) -> forallb is_space rem = true -> rem = [].
Proof.
  unfold trimmed_right. intros H Hrem.
  destruct (rev rem) as [|c r] eqn:E.
  - apply (f_equal (@rev N)) in E. now rewrite rev_involutive in E.
  - exfalso. rewrite rev_app_distr, E in H. simpl in H.
    assert (Hc : is_space c = true).
    { rewrite forallb_forall in Hrem. apply Hrem, in_rev. rewrite E. now left. }
    rewrite Hc in H.
    pose proof (lstrip_length (r ++ rev pre)) as Hlen.
    rewrite H in Hlen. simpl in Hlen. lia.
Qed.

Lemma strip_nil_spaces (s : str) : strip s = [] -> forallb is_space s = true.
Proof.
  intros H. destruct (strip_split s) as (a & b & Hs & Ha & Hb).
  rewrite H in Hs. rewrite Hs. simpl.
  rewrite forallb_app. now rewrite Ha, Hb.
Qed.

Lemma rstrip_spaces (s ws : str) :
  forallb is_space ws = true -> rstrip (s ++ ws) = rstrip s.
Proof.
  intros Hws. unfold rstrip. rewrite rev_app_distr, lstrip_spaces;
    [reflexivity|].
  rewrite forallb_forall in *. intros x Hx. apply Hws. now apply in_rev.
Qed.

Lemma lstrip_nil_spaces (ws : str) : forallb is_space ws = true -> lstrip ws = [].
Proof.
  intros H. rewrite <- (app_nil_r ws). now rewrite lstrip_spaces.
Qed.

(** A text is its core between whitespace: stripping gives the core. *)
Lemma strip_core (ws core ws' : str) :
  forallb is_space ws = true -> forallb is_space ws' = true ->
  lstrip core = core -> trimmed_right core ->
  strip (ws ++ core ++ ws') = core.
Proof.
  intros Hws Hws' Hl Hr. unfold strip.
  rewrite app_assoc, rstrip_spaces by exact Hws'.
  destruct core as [|c core'] eqn:Hcore.
  - rewrite app_nil_r. unfold rstrip.
    rewrite (lstrip_nil_spaces (rev ws)); [reflexivity|].
    rewrite forallb_forall in *. intros x Hx. apply Hws. now apply in_rev.
  - rewrite <- Hcore in *.
    assert (Htr : trimmed_right (ws ++ core)).
    { unfold trimmed_right in *. rewrite rev_app_distr.
      destruct (rev core) as [|d r] eqn:Hrev.
      - apply (f_equal (@rev N)) in Hrev. rewrite rev_involutive in Hrev.
        subst core. discriminate Hrev.
      - cbn [app]. apply lstrip_nonspace. now apply (lstrip_head _ _ _ Hr). }
    rewrite (rstrip_fixed _ Htr). now rewrite lstrip_spaces.
Qed.

Lemma lstrip_app_fixed (core s : str) :
  lstrip core = core -> core <> [] -> lstrip (core ++ s) = core ++ s.
Proof.
  intros Hl Hne. destruct core as [|c core']; [contradiction|].
  cbn [app]. apply lstrip_nonspace. now apply (lstrip_head _ _ _ Hl).
Qed.

(** *** Character classes *)

Lemma is_space_bound c : is_space c = true -> c <= 0x3000.
Proof.
  unfold is_space, in_range.
  rewrite !orb_true_iff, !andb_true_iff, !N.leb_le, !N.eqb_eq. lia.
Qed.

Lemma is_space_not_chinese c :
  is_space c = true -> in_range 0x4E00 0x9FFF c = false.
Proof.
  intros H%is_space_bound. unfold in_range.
  apply andb_false_iff. left. apply N.leb_gt. lia.
Qed.

Lemma spaces_not_chinese (ws : str) :
  forallb is_space ws = true -> is_chinese ws = false.
Proof.
  induction ws as [|c ws IH]; simpl; [reflexivity|].
  intros [Hc Hws]%andb_true_iff.
  rewrite (is_space_not_chinese _ Hc). now apply IH.
Qed.

Lemma is_colon_cases c :
  is_colon c = true -> c = COLON \/ c = FULLWIDTH_COLON.
Proof.
  unfold is_colon. rewrite orb_true_iff, !N.eqb_eq. tauto.
Qed.

Lemma colon_not_space c : is_colon c = true -> is_space c = false.
Proof. intros [-> | ->]%is_colon_cases; reflexivity. Qed.

Lemma colon_not_digit c : is_colon c = true -> is_digit c = false.
Proof. intros [-> | ->]%is_colon_cases; vm_compute; reflexivity. Qed.

Lemma colon_not_chinese c :
  is_colon c = true -> in_range 0x4E00 0x9FFF c = false.
Proof. intros [-> | ->]%is_colon_cases; reflexivity. Qed.

Lemma spaces_no_fullwidth_colon (ws : str) :
  forallb is_space ws = true -> mem_char FULLWIDTH_COLON ws = false.
Proof.
  unfold mem_char.
  induction ws as [|c ws IH]; cbn [existsb forallb]; [reflexivity|].
  intros [Hc Hws]%andb_true_iff. rewrite (IH Hws), orb_false_r.
  apply N.eqb_neq. intros <-. discriminate Hc.
Qed.

Lemma mem_char_app c (a b : str) :
  mem_char c (a ++ b) = mem_char c a || mem_char c b.
Proof. apply existsb_app. Qed.

Lemma is_chinese_app (a b : str) :
  is_chinese (a ++ b) = is_chinese a || is_chinese b.
Proof. apply existsb_app. Qed.

Lemma is_chinese_strip (s : str) : is_chinese (strip s) = is_chinese s.
Proof.
  destruct (strip_split s) as (a & b & Hs & Ha & Hb).
  rewrite Hs at 2. rewrite !is_chinese_app.
  rewrite (spaces_not_chinese _ Ha), (spaces_not_chinese _ Hb).
  now rewrite orb_false_r.
Qed.

(** *** The matcher *)

Lemma match_plus_no_start (a : atom) re dollar c (s : str) :
  qty a = Plus -> cls a c = false -> match_atoms (a :: re) dollar (c :: s) = None.
Proof. intros Hq Hc. simpl. now rewrite Hq, Hc. Qed.

Lemma first_match_no_digit c (s : str) :
  is_digit c = false -> first_match number_patterns (c :: s) = None.
Proof.
  intros Hc. unfold number_patterns, first_match.
  now rewrite !(match_plus_no_start digits _ _ c s eq_refl Hc).
Qed.

Lemma get_step_number_no_digit c (s : str) :
  is_space c = false -> is_digit c = false -> get_step_number (c :: s) = [].
Proof.
  intros Hs Hd. unfold get_step_number.
  now rewrite (lstrip_nonspace _ _ Hs), (first_match_no_digit _ _ Hd).
Qed.

Lemma check_colon_format_leading_colon (s : str) c rest :
  strip s = c :: rest -> is_colon c = true ->
  check_colon_format s = (false, false, [], []).
Proof.
  intros Hs Hc. unfold check_colon_format, colon_pattern. rewrite Hs.
  rewrite match_plus_no_start; [reflexivity..|].
  simpl. now rewrite Hc.
Qed.

(** *** TextDetector.get_step_number *)

(** The extractor on the forms of its docstring, on an indented text, on a
    number without a dot and on a text without number. *)
Example get_step_number_forms :
  get_step_number (lit "1.2.3.4 x") = lit "1.2.3.4"
  /\ get_step_number (lit "1.2.3 x") = lit "1.2.3"
  /\ get_step_number (lit "4.9 x") = lit "4.9"
  /\ get_step_number (lit "1. x") = lit "1"
  /\ get_step_number (lit "   12.x") = lit "12"
  /\ get_step_number (lit "12 x") = []
  /\ get_step_number (lit "x 1.2") = [].
Proof. repeat split; vm_compute; reflexivity. Qed.

(** C3 (the source departs from the claim).  The extractor is claimed to
    match digits and dots only.  The three-segment pattern of the source
    has its second dot unescaped, so that it accepts any character there:
    on the text "3.1 2個月" the four-segment pattern fails, the
    three-segment pattern matches "3.1 2", and that string, which holds a
    space, is returned as the numbering prefix. *)
Theorem get_step_number_unescaped_dot :
  get_step_number (lit "3.1 2" ++ [0x500B; 0x6708]) = lit "3.1 2"
  /\ forallb (fun c => is_digit c || (c =? DOT))
             (get_step_number (lit "3.1 2" ++ [0x500B; 0x6708])) = false.
Proof. split; vm_compute; reflexivity. Qed.

(** *** TranslationEngine.translate_text *)

Section EngineProperties.

Variable TRANSLATOR : str -> option str.

(** C9.  When the backend call raises on a text, [_translate_with_llm]
    returns that text unchanged; hence [translate_text], which is a total
    function into strings, returns the original text unchanged, unless one
    of the two dictionaries answered before the backend was called. *)
Theorem translate_text_backend_failure (st : DocumentState) (text : str) :
  TRANSLATOR text = None ->
  _translate_with_llm TRANSLATOR text = text
  /\ (translate_text TRANSLATOR st text = text
      \/ fixed_translation_map st !! strip text
         = Some (translate_text TRANSLATOR st text)
      \/ _check_pcb_terms st (strip text)
         = Some (translate_text TRANSLATOR st text)).
Proof.
  intros Hfail.
  assert (Hllm : _translate_with_llm TRANSLATOR text = text).
  { unfold _translate_with_llm. now rewrite Hfail. }
  split; [exact Hllm|].
  unfold translate_text.
  destruct (not_translatable text); [now left|].
  destruct (fixed_translation_map st !! strip text) as [fixed|]; [now right; left|].
  destruct (_check_pcb_terms st (strip text)) as [translation|];
    [|left; exact Hllm].
  destruct (truthy translation); [now right; right|left; exact Hllm].
Qed.

(** With no dictionary entry for the text, the backend is what answers, and
    its failure leaves the text as it was. *)
Lemma translate_text_backend_failure_no_entry (st : DocumentState) (text : str) :
  TRANSLATOR text = None ->
  fixed_translation_map st !! strip text = None ->
  _check_pcb_terms st (strip text) = None ->
  translate_text TRANSLATOR st text = text.
Proof.
  intros Hfail Hfixed Hpcb. unfold translate_text, _translate_with_llm.
  rewrite Hfixed, Hpcb, Hfail. now destruct (not_translatable text).
Qed.

Lemma translate_text_not_chinese (st : DocumentState) (text : str) :
  is_chinese text = false -> translate_text TRANSLATOR st text = text.
Proof.
  intros H. unfold translate_text, not_translatable.
  now rewrite H, !orb_true_r.
Qed.

End EngineProperties.

Lemma translate_text_backend_failure_witness :
  _translate_with_llm (fun _ => None) [0x5099; 0x8A3B] = [0x5099; 0x8A3B]
  /\ (translate_text (fun _ => None) empty_state [0x5099; 0x8A3B]
      = [0x5099; 0x8A3B]
      \/ fixed_translation_map empty_state !! strip [0x5099; 0x8A3B]
         = Some (translate_text (fun _ => None) empty_state [0x5099; 0x8A3B])
      \/ _check_pcb_terms empty_state (strip [0x5099; 0x8A3B])
         = Some (translate_text (fun _ => None) empty_state [0x5099; 0x8A3B])).
Proof.
  apply (translate_text_backend_failure (fun _ => None) empty_state
           [0x5099; 0x8A3B]).
  reflexivity.
Defined.

(** *** Runs and paragraphs *)

Lemma clear_all_runs_no_picture (p : Paragraph) :
  existsb has_picture (runs p) = false ->
  clear_all_runs p = clear_paragraph_text_keep_images p.
Proof.
  intros H. unfold clear_all_runs, clear_paragraph_text_keep_images.
  f_equal. apply map_ext_in. intros r Hr.
  destruct (has_picture r) eqn:E; [|reflexivity].
  exfalso. apply not_true_iff_false in H. apply H.
  apply existsb_exists. now exists r.
Qed.

Lemma text_add_run (p : Paragraph) (t : str) : text (add_run p t) = text p ++ t.
Proof.
  unfold text, add_run. cbn [runs]. rewrite flat_map_app. simpl.
  now rewrite app_nil_r.
Qed.

(** Clearing leaves the text that the drawing runs carry; none, when a
    run is either text or drawing. *)
Lemma text_cleared (p : Paragraph) :
  Forall (fun r => has_picture r = true -> r_text r = []) (runs p) ->
  text (clear_paragraph_text_keep_images p) = [].
Proof.
  unfold text, clear_paragraph_text_keep_images. cbn [runs].
  induction 1 as [|r rs Hr _ IH]; [reflexivity|].
  cbn [map flat_map]. rewrite IH, app_nil_r.
  destruct (has_picture r); [now apply Hr|reflexivity].
Qed.

Lemma clear_keeps_pictures (p : Paragraph) (r : Run) :
  r ∈ runs p -> has_picture r = true ->
  r ∈ runs (clear_paragraph_text_keep_images p).
Proof.
  intros Hin Hpic. unfold clear_paragraph_text_keep_images. cbn [runs].
  apply list_elem_of_In, in_map_iff. exists r. rewrite Hpic.
  split; [reflexivity|now apply list_elem_of_In].
Qed.

Lemma clear_paragraph_idem (p : Paragraph) :
  clear_paragraph_text_keep_images (clear_paragraph_text_keep_images p)
  = clear_paragraph_text_keep_images p.
Proof.
  unfold clear_paragraph_text_keep_images. cbn [runs alignment]. f_equal.
  rewrite map_map. apply map_ext. intros r.
  destruct (has_picture r) eqn:E; cbn [negb]; [now rewrite E|reflexivity].
Qed.

(** *** The colon classifier *)

Lemma span_prefix (p : N -> bool) (pre : str) c (rest : str) :
  forallb p pre = true -> p c = false ->
  span p (pre ++ c :: rest) = length pre.
Proof.
  induction pre as [|d pre IH]; cbn [forallb span app length].
  - intros _ ->. reflexivity.
  - intros [-> Hpre]%andb_true_iff Hc. f_equal. now apply IH.
Qed.

Lemma try_greedy_longest (k : str -> option (list str)) (s : str) lo n caps :
  (lo <= n)%nat -> k (drop n s) = Some caps ->
  try_greedy k s lo n = Some (take n s :: caps).
Proof.
  intros Hlo Hk.
  assert (Hlt : (n <? lo)%nat = false) by (apply Nat.ltb_ge; lia).
  destruct n; cbn [try_greedy]; now rewrite Hlt, Hk.
Qed.

Lemma match_colon_label (pre : str) c :
  pre <> [] -> forallb (fun x => negb (is_colon x)) pre = true ->
  is_colon c = true ->
  match_atoms colon_pattern true (pre ++ [c]) = Some [pre; [c]; []].
Proof.
  intros Hne Hpre Hc. unfold colon_pattern.
  cbn [match_atoms qty cls].
  rewrite span_prefix by (try assumption; now rewrite Hc).
  rewrite (try_greedy_longest _ _ _ _ [[c]; []]).
  - now rewrite take_app_length.
  - destruct pre; [contradiction|simpl; lia].
  - rewrite drop_app_length. cbn [match_atoms qty cls]. now rewrite Hc.
Qed.

Lemma check_colon_format_label (s pre : str) c :
  strip s = pre ++ [c] -> pre <> [] ->
  forallb (fun x => negb (is_colon x)) pre = true -> is_colon c = true ->
  check_colon_format s = (true, false, strip pre, []).
Proof.
  intros Hs Hne Hpre Hc. unfold check_colon_format.
  now rewrite Hs, match_colon_label.
Qed.

Lemma no_colon_no_fullwidth (pre : str) :
  forallb (fun x => negb (is_colon x)) pre = true ->
  mem_char FULLWIDTH_COLON pre = false.
Proof.
  unfold mem_char.
  induction pre as [|d pre IH]; cbn [existsb forallb]; [reflexivity|].
  intros [Hd Hpre]%andb_true_iff. rewrite (IH Hpre), orb_false_r.
  apply N.eqb_neq. intros <-. discriminate Hd.
Qed.

(** The colon the source puts back is the colon of the text. *)
Lemma original_colon_is_the_colon (raw pre : str) c :
  strip raw = pre ++ [c] ->
  forallb (fun x => negb (is_colon x)) pre = true -> is_colon c = true ->
  (if mem_char FULLWIDTH_COLON raw then FULLWIDTH_COLON else COLON) = c.
Proof.
  intros Hs Hpre Hc.
  destruct (strip_split raw) as (a & b & Hraw & Ha & Hb).
  rewrite Hraw, Hs, !mem_char_app.
  rewrite (spaces_no_fullwidth_colon _ Ha), (spaces_no_fullwidth_colon _ Hb).
  rewrite (no_colon_no_fullwidth _ Hpre), orb_false_r. cbn [orb].
  destruct (is_colon_cases _ Hc) as [-> | ->]; reflexivity.
Qed.

Lemma truthy_app_cons (pre : str) c (rem : str) : truthy (pre ++ c :: rem) = true.
Proof. now destruct pre. Qed.

(** The classifier on a label with content, on a label alone, on a text
    without colon and on a text with a line break after the colon, which
    the pattern does not match. *)
Example check_colon_format_forms :
  check_colon_format (lit " Note : text ") = (true, true, lit "Note", lit "text")
  /\ check_colon_format (REMARKS ++ [FULLWIDTH_COLON])
     = (true, false, REMARKS, [])
  /\ check_colon_format REMARKS = (false, false, [], [])
  /\ check_colon_format (lit "a:b" ++ [NEWLINE] ++ lit "c")
     = (false, false, [], []).
Proof. repeat split; vm_compute; reflexivity. Qed.

(** Leading tabs count for four in the indent width. *)
Example has_long_spaces_in_runs_forms :
  has_long_spaces_in_runs (plain ([TAB; SPACE] ++ REMARKS)) = (true, 5%nat)
  /\ has_long_spaces_in_runs (plain REMARKS) = (false, 0%nat).
Proof. split; vm_compute; reflexivity. Qed.

(** The text of the paragraph [add_english_below] builds, by computation. *)
Ltac english_paragraph_text :=
  repeat match goal with
         | |- context [text (english_paragraph ?p ?t ?a ?b ?c)] =>
             change (text (english_paragraph p t a b c)) with (t ++ [])
         end;
  rewrite ?app_nil_r.

Section ParagraphProperties.

Variable TRANSLATOR : str -> option str.

(** *** BilingualTranslator: paragraphs outside groups *)

(** The number of leading whitespace characters the translators count. *)
Lemma leading_whitespace_length (ws rest : str) :
  forallb is_space ws = true -> lstrip rest = rest ->
  (length (ws ++ rest) - length (lstrip (ws ++ rest)))%nat = length ws.
Proof.
  intros Hws Hrest. rewrite lstrip_spaces, Hrest by exact Hws.
  rewrite length_app. lia.
Qed.

(** The indent the translators put before a text: one space for each
    leading whitespace character, whatever the character. *)
Lemma indent_of_spec (ws rest : str) :
  forallb is_space ws = true -> lstrip rest = rest ->
  indent_of (ws ++ rest) = replicate (length ws) SPACE.
Proof.
  intros Hws Hrest. unfold indent_of.
  now rewrite leading_whitespace_length.
Qed.

(** The paragraph [add_english_below] builds holds the text it is given,
    in one run without drawing. *)
Lemma text_english_paragraph (p : Paragraph) (t : str) size font al :
  text (english_paragraph p t size font al) = t.
Proof. unfold text, english_paragraph. cbn. apply app_nil_r. Qed.

Lemma space_not_colon_all (ws : str) :
  forallb is_space ws = true ->
  forallb (fun x => negb (is_colon x)) ws = true.
Proof.
  intros H. rewrite forallb_forall in *. intros x Hx. specialize (H x Hx).
  destruct (is_colon x) eqn:E; [|reflexivity].
  now rewrite (colon_not_space _ E) in H.
Qed.

Lemma leading_colon_stripped (st : DocumentState)
    (paragraph : Slot) c (rest : str) :
  strip (text (para paragraph)) = c :: rest -> is_colon c = true ->
  check_colon_format (text (para paragraph)) = (false, false, [], [])
  /\ _translate_regular_paragraph TRANSLATOR st paragraph
     = _translate_no_colon TRANSLATOR st paragraph (text (para paragraph))
         (strip (text (para paragraph)))
  /\ _translate_regular_paragraph TRANSLATOR st paragraph
     = {| para := para paragraph;
          after :=
            english_paragraph (para paragraph)
              (indent_of (text (para paragraph))
               ++ translate_text TRANSLATOR st (strip (text (para paragraph))))
              None None None
            :: after paragraph |}.
Proof.
  intros Hs Hc.
  assert (Hfmt : check_colon_format (strip (text (para paragraph)))
                 = (false, false, [], [])).
  { apply (check_colon_format_leading_colon _ c rest); [|exact Hc].
    now rewrite strip_idem. }
  assert (Hpath : _translate_regular_paragraph TRANSLATOR st paragraph
                  = _translate_no_colon TRANSLATOR st paragraph
                      (text (para paragraph)) (strip (text (para paragraph)))).
  { unfold _translate_regular_paragraph. now rewrite Hfmt. }
  split; [now apply (check_colon_format_leading_colon _ c rest)|].
  split; [exact Hpath|].
  rewrite Hpath. unfold _translate_no_colon. rewrite Hs.
  rewrite get_step_number_no_digit
    by (now apply colon_not_space || now apply colon_not_digit).
  reflexivity.
Qed.

(** C10.  A text that, once trimmed, starts with a colon is not classified
    as a colon format: the classifier returns [(False, False, "", "")],
    since the label must be non-empty.  A paragraph with such a text takes
    the no-colon path: the original paragraph is left as it is and one
    sibling is inserted right below it, the paragraph [add_english_below]
    builds, whose text is one space for each leading whitespace character
    of the original followed by the translation of the trimmed text, colon
    included. *)
Theorem leading_colon_takes_no_colon_path (st : DocumentState)
    (paragraph : Slot) (ws : str) c (rest ws' : str) :
  text (para paragraph) = ws ++ (c :: rest) ++ ws' ->
  forallb is_space ws = true -> forallb is_space ws' = true ->
  trimmed_right (c :: rest) ->
  is_colon c = true ->
  check_colon_format (text (para paragraph)) = (false, false, [], [])
  /\ _translate_regular_paragraph TRANSLATOR st paragraph
     = _translate_no_colon TRANSLATOR st paragraph (text (para paragraph))
         (strip (text (para paragraph)))
  /\ exists sibling,
       _translate_regular_paragraph TRANSLATOR st paragraph
       = {| para := para paragraph; after := sibling :: after paragraph |}
       /\ sibling
          = english_paragraph (para paragraph) (text sibling) None None None
       /\ text sibling
          = replicate (length ws) SPACE
            ++ translate_text TRANSLATOR st (c :: rest)
       /\ drawing_runs sibling = [].
Proof.
  intros Htext Hws Hws' Htr Hc.
  assert (Hl : lstrip (c :: rest) = c :: rest)
    by (apply lstrip_nonspace; now apply colon_not_space).
  assert (Hs : strip (text (para paragraph)) = c :: rest)
    by (rewrite Htext; now apply strip_core).
  assert (Hindent : indent_of (text (para paragraph))
                    = replicate (length ws) SPACE).
  { rewrite Htext. unfold indent_of.
    rewrite leading_whitespace_length; [reflexivity|exact Hws|].
    cbn [app]. apply lstrip_nonspace. now apply colon_not_space. }
  destruct (leading_colon_stripped st paragraph c rest Hs Hc)
    as (Hfmt & Hpath & Hres).
  split; [exact Hfmt|]. split; [exact Hpath|].
  eexists. split; [exact Hres|].
  split; [now english_paragraph_text|].
  split; [|reflexivity].
  english_paragraph_text. now rewrite Hindent, Hs.
Qed.

Lemma colon_without_content_stripped (st : DocumentState)
    (body : list Slot) (paragraph : Slot) (index : option nat)
    (pre : str) c (rem : str) :
  is_chinese (text (para paragraph)) = true ->
  belonging_group (continuous_abnormal_groups st) (translated_group_ids st)
    index = None ->
  strip (text (para paragraph)) = pre ++ c :: rem ->
  forallb (fun x => negb (is_colon x)) pre = true ->
  is_colon c = true ->
  strip rem = [] ->
  translate_paragraph TRANSLATOR st body paragraph index
  = (st, body,
     {| para :=
          add_run (clear_paragraph_text_keep_images (para paragraph))
            (indent_of (text (para paragraph)) ++ strip pre ++ lit "("
             ++ translate_text TRANSLATOR st (strip pre) ++ lit ")" ++ [c]);
        after := after paragraph |}).
Proof.
  intros Hzh Hfree Hs Hpre Hc Hrem.
  assert (rem = []) as ->.
  { apply (trimmed_right_tail (pre ++ [c])).
    - rewrite <- app_assoc. cbn [app]. rewrite <- Hs. apply strip_trimmed_right.
    - now apply strip_nil_spaces. }
  assert (Hne : pre <> []).
  { intros ->. rewrite <- is_chinese_strip, Hs in Hzh.
    cbn in Hzh. rewrite orb_false_r in Hzh.
    now rewrite (colon_not_chinese _ Hc) in Hzh. }
  unfold translate_paragraph, qualifies.
  rewrite Hs, truthy_app_cons, Hzh, Hfree. cbn [andb negb].
  unfold _translate_regular_paragraph.
  rewrite (check_colon_format_label _ pre c); try assumption;
    [|now rewrite strip_idem].
  cbn [andb negb]. unfold _translate_colon_no_content.
  rewrite (original_colon_is_the_colon _ pre c) by assumption.
  destruct (existsb has_picture (runs (para paragraph))) eqn:Hpic;
    [reflexivity|].
  now rewrite clear_all_runs_no_picture.
Qed.

(** C8.  A source-language paragraph outside every open group whose text
    is, between whitespace, a label, possibly whitespace, and a colon, is
    rewritten in place: its runs without a drawing are emptied and a run
    is appended that holds one space for each leading whitespace character
    of the text, the label, ["("], the translation of the label, [")"]
    and the colon of the text; no sibling is inserted.  When the drawing
    runs carry no text, that string is the whole text of the paragraph. *)
Theorem colon_without_content_rewritten_in_place (st : DocumentState)
    (body : list Slot) (paragraph : Slot) (index : option nat)
    (ws label ws1 : str) c (ws' : str) :
  is_chinese (text (para paragraph)) = true ->
  belonging_group (continuous_abnormal_groups st) (translated_group_ids st)
    index = None ->
  text (para paragraph) = ws ++ (label ++ ws1 ++ [c]) ++ ws' ->
  forallb is_space ws = true -> forallb is_space ws1 = true ->
  forallb is_space ws' = true ->
  lstrip label = label -> trimmed_right label ->
  forallb (fun x => negb (is_colon x)) label = true ->
  is_colon c = true ->
  translate_paragraph TRANSLATOR st body paragraph index
  = (st, body,
     {| para :=
          add_run (clear_paragraph_text_keep_images (para paragraph))
            (replicate (length ws) SPACE ++ label ++ lit "("
             ++ translate_text TRANSLATOR st label ++ lit ")" ++ [c]);
        after := after paragraph |})
  /\ (Forall (fun r => has_picture r = true -> r_text r = [])
             (runs (para paragraph)) ->
      text (add_run (clear_paragraph_text_keep_images (para paragraph))
              (replicate (length ws) SPACE ++ label ++ lit "("
               ++ translate_text TRANSLATOR st label ++ lit ")" ++ [c]))
      = replicate (length ws) SPACE ++ label ++ lit "("
        ++ translate_text TRANSLATOR st label ++ lit ")" ++ [c]).
Proof.
  intros Hzh Hfree Htext Hws Hws1 Hws' Hl Htr Hlabel Hc.
  assert (Hcs : is_space c = false) by (now apply colon_not_space).
  assert (Hne : label <> []).
  { intros ->. rewrite Htext in Hzh. cbn [app] in Hzh.
    rewrite !is_chinese_app in Hzh.
    rewrite (spaces_not_chinese _ Hws), (spaces_not_chinese _ Hws1),
      (spaces_not_chinese _ Hws') in Hzh.
    cbn in Hzh. now rewrite (colon_not_chinese _ Hc) in Hzh. }
  assert (Hcore_l : lstrip (label ++ ws1 ++ [c]) = label ++ ws1 ++ [c])
    by (now apply lstrip_app_fixed).
  assert (Hcore_r : trimmed_right (label ++ ws1 ++ [c])).
  { unfold trimmed_right. rewrite !rev_app_distr. cbn [rev app].
    now apply lstrip_nonspace. }
  assert (Hs : strip (text (para paragraph)) = (label ++ ws1) ++ c :: []).
  { rewrite Htext, (strip_core ws (label ++ ws1 ++ [c]) ws') by assumption.
    now rewrite app_assoc. }
  assert (Hpre : strip (label ++ ws1) = label).
  { exact (strip_core [] label ws1 eq_refl Hws1 Hl Htr). }
  assert (Hindent : indent_of (text (para paragraph))
                    = replicate (length ws) SPACE).
  { rewrite Htext. unfold indent_of.
    rewrite leading_whitespace_length; [reflexivity|exact Hws|].
    apply lstrip_app_fixed; [exact Hcore_l|].
    intros Hnil. apply (f_equal (@length N)) in Hnil.
    rewrite !length_app in Hnil. cbn in Hnil. lia. }
  pose proof (colon_without_content_stripped st body paragraph index
                (label ++ ws1) c [] Hzh Hfree Hs) as Hres.
  rewrite Hpre, Hindent in Hres.
  split.
  - apply Hres; [|exact Hc|reflexivity].
    rewrite forallb_app, Hlabel. now apply space_not_colon_all.
  - intros Hruns. now rewrite text_add_run, text_cleared.
Qed.

End ParagraphProperties.

(** "：備註" behind a tab and a space: the sibling holds two spaces and
    the translation of "：備註". *)
Lemma leading_colon_takes_no_colon_path_witness :
  check_colon_format (text indented_colon_first_paragraph)
  = (false, false, [], [])
  /\ _translate_regular_paragraph
       (glossary_backend [(FULLWIDTH_COLON :: REMARKS, lit "Remarks")])
       empty_state (pristine indented_colon_first_paragraph)
     = _translate_no_colon
         (glossary_backend [(FULLWIDTH_COLON :: REMARKS, lit "Remarks")])
         empty_state (pristine indented_colon_first_paragraph)
         (text indented_colon_first_paragraph)
         (strip (text indented_colon_first_paragraph))
  /\ exists sibling,
       _translate_regular_paragraph
         (glossary_backend [(FULLWIDTH_COLON :: REMARKS, lit "Remarks")])
         empty_state (pristine indented_colon_first_paragraph)
       = {| para := indented_colon_first_paragraph; after := [sibling] |}
       /\ sibling
          = english_paragraph indented_colon_first_paragraph (text sibling)
              None None None
       /\ text sibling = lit "  Remarks"
       /\ drawing_runs sibling = [].
Proof.
  apply (leading_colon_takes_no_colon_path
           (glossary_backend [(FULLWIDTH_COLON :: REMARKS, lit "Remarks")])
           empty_state (pristine indented_colon_first_paragraph)
           [TAB; SPACE] FULLWIDTH_COLON REMARKS [SPACE]); reflexivity.
Defined.

(** "備註 ：" behind a space and a tab becomes "  備註(Remarks)：": two
    spaces, the label, its translation and the colon of the text. *)
Lemma colon_without_content_witness :
  translate_paragraph (glossary_backend [(REMARKS, lit "Remarks")])
    empty_state [] (pristine indented_remarks_paragraph) None
  = (empty_state, [],
     pristine
       {| runs := [text_run [];
                   text_run (lit "  " ++ REMARKS ++ lit "(Remarks)"
                             ++ [FULLWIDTH_COLON])];
          alignment := None |})
  /\ (Forall (fun r => has_picture r = true -> r_text r = [])
             (runs indented_remarks_paragraph) ->
      text {| runs := [text_run [];
                       text_run (lit "  " ++ REMARKS ++ lit "(Remarks)"
                                 ++ [FULLWIDTH_COLON])];
              alignment := None |}
      = lit "  " ++ REMARKS ++ lit "(Remarks)" ++ [FULLWIDTH_COLON]).
Proof.
  apply (colon_without_content_rewritten_in_place
           (glossary_backend [(REMARKS, lit "Remarks")]) empty_state []
           (pristine indented_remarks_paragraph) None
           [SPACE; TAB] REMARKS [SPACE] FULLWIDTH_COLON [SPACE]);
    reflexivity.
Defined.

(** Scenario C: "備註：" becomes "備註(Remarks)：", with the colon of the
    text. *)
Example scenario_c_paragraph :
  translate_paragraph (constant_backend (lit "Remarks")) empty_state []
    (pristine remarks_paragraph) None
  = (empty_state, [],
     pristine
       {| runs := [text_run [];
                   text_run (REMARKS ++ lit "(Remarks)" ++ [FULLWIDTH_COLON])];
          alignment := None |}).
Proof. vm_compute. reflexivity. Qed.

(** Scenario A: the numbered paragraph stays as it is and gets one sibling
    below; the text sent to the backend has lost the number. *)
Example scenario_a_paragraph :
  translate_paragraph echo_backend empty_state [] (pristine scenario_a) None
  = (empty_state, [],
     {| para := scenario_a;
        after := [ english_paragraph scenario_a
                     (lit "<" ++ INSPECT ++ lit ">") None None None ] |}).
Proof. vm_compute. reflexivity. Qed.

(** *** More on the matcher and the text utilities *)

Lemma try_greedy_some (k : str -> option (list str)) (s : str) lo n caps :
  try_greedy k s lo n = Some caps ->
  exists m caps', (lo <= m <= n)%nat /\ caps = take m s :: caps'
                  /\ k (drop m s) = Some caps'.
Proof.
  induction n as [|n IH]; cbn [try_greedy].
  - destruct (0 <? lo)%nat eqn:E; [discriminate|]. apply Nat.ltb_ge in E.
    destruct (k (drop 0 s)) as [c|] eqn:Hk; [|discriminate].
    intros [= <-]. exists 0%nat, c. repeat split; try lia. exact Hk.
  - destruct (S n <? lo)%nat eqn:E; [discriminate|]. apply Nat.ltb_ge in E.
    destruct (k (drop (S n) s)) as [c|] eqn:Hk.
    + intros [= <-]. exists (S n), c. repeat split; try lia. exact Hk.
    + intros H. destruct (IH H) as (m & c' & Hm & Hc & Hk').
      exists m, c'. repeat split; try lia; assumption.
Qed.

Lemma span_take (p : N -> bool) (s : str) (m : nat) :
  (m <= span p s)%nat -> forallb p (take m s) = true /\ length (take m s) = m.
Proof.
  revert m. induction s as [|c s IH]; intros m; cbn [span].
  - intros H. assert (m = 0%nat) as -> by lia. now split.
  - destruct (p c) eqn:Hc.
    + destruct m as [|m]; [now split|]. intros H.
      destruct (IH m ltac:(lia)) as [Hall Hlen]. cbn. rewrite Hc, Hall, Hlen.
      now split.
    + intros H. assert (m = 0%nat) as -> by lia. now split.
Qed.

(** What a match returns: one capture per atom, each made of characters of
    the atom's class and of a length its quantifier allows; together they
    are a prefix of the string, and what follows satisfies the anchor. *)
Lemma match_atoms_sound (re : list atom) (dollar : bool) (s : str)
    (caps : list str) :
  match_atoms re dollar s = Some caps ->
  Forall2 atom_accepts re caps
  /\ exists rest, s = concat caps ++ rest /\ at_end dollar rest = true.
Proof.
  revert s caps. induction re as [|a re IH]; intros s caps; cbn [match_atoms].
  - destruct (at_end dollar s) eqn:E; [|discriminate]. intros [= <-].
    split; [constructor|]. now exists s.
  - assert (Hgreedy : forall lo,
              match qty a with
              | One => False | Plus => lo = 1%nat | Star => lo = 0%nat end ->
              try_greedy (match_atoms re dollar) s lo (span (cls a) s)
              = Some caps ->
              Forall2 atom_accepts (a :: re) caps
              /\ exists rest, s = concat caps ++ rest
                              /\ at_end dollar rest = true).
    { intros lo Hlo H.
      destruct (try_greedy_some _ _ _ _ _ H) as (m & caps' & Hm & -> & Hk).
      destruct (IH _ _ Hk) as (Hall & rest & Hs & Hend).
      destruct (span_take (cls a) s m ltac:(lia)) as [Hcls Hlen].
      split.
      - constructor; [|exact Hall]. split; [exact Hcls|].
        destruct (qty a); [contradiction|lia|exact I].
      - exists rest. split; [|exact Hend].
        cbn [concat]. rewrite <- app_assoc, <- Hs. symmetry.
        apply take_drop. }
    destruct (qty a) eqn:Hq.
    + destruct s as [|c s]; [discriminate|].
      destruct (cls a c) eqn:Hc; [|discriminate].
      destruct (match_atoms re dollar s) as [caps'|] eqn:Hk; [|discriminate].
      intros [= <-]. destruct (IH _ _ Hk) as (Hall & rest & Hs & Hend).
      split.
      * constructor; [|exact Hall]. split; [cbn; now rewrite Hc|].
        now rewrite Hq.
      * exists rest. split; [|exact Hend]. cbn. now rewrite <- Hs.
    + now apply Hgreedy.
    + now apply Hgreedy.
Qed.

Lemma lstrip_chars_split (set s : str) :
  exists ws, s = ws ++ lstrip_chars set s
             /\ forallb (fun c => mem_char c set) ws = true.
Proof.
  induction s as [|c s (ws & Hs & Hws)]; [now exists []|].
  cbn [lstrip_chars]. destruct (mem_char c set) eqn:E.
  - exists (c :: ws). cbn. rewrite E, Hws. split; [now f_equal|reflexivity].
  - now exists [].
Qed.

Lemma lstrip_chars_head (set s : str) c r :
  lstrip_chars set s = c :: r -> mem_char c set = false.
Proof.
  induction s as [|d s IH]; cbn [lstrip_chars]; [discriminate|].
  destruct (mem_char d set) eqn:E; [exact IH|].
  intros [= <- _]. exact E.
Qed.

Lemma rstrip_chars_split (set s : str) :
  exists ws, s = rstrip_chars set s ++ ws
             /\ forallb (fun c => mem_char c set) ws = true.
Proof.
  destruct (lstrip_chars_split set (rev s)) as (ws & Hs & Hws).
  exists (rev ws). split.
  - unfold rstrip_chars. rewrite <- rev_app_distr, <- Hs.
    now rewrite rev_involutive.
  - rewrite forallb_forall in *. intros x Hx. apply Hws. now apply in_rev.
Qed.

Lemma rstrip_chars_last (set s : str) :
  forall c, last (rstrip_chars set s) = Some c -> mem_char c set = false.
Proof.
  intros c. unfold rstrip_chars.
  destruct (lstrip_chars set (rev s)) as [|d r] eqn:E; [discriminate|].
  cbn [rev]. rewrite last_snoc. intros [= <-].
  eapply lstrip_chars_head. exact E.
Qed.

Lemma digit_not_dot d : is_digit d = true -> mem_char d [DOT] = false.
Proof.
  intros Hd. unfold mem_char. cbn [existsb]. rewrite orb_false_r.
  apply N.eqb_neq. intros ->. vm_compute in Hd. discriminate Hd.
Qed.

(** Every pattern of [get_step_number] opens with [\d+]: a match starts
    with a digit. *)
Lemma first_match_starts_with_digit (s g : str) :
  first_match number_patterns s = Some g ->
  (exists rest, s = g ++ rest)
  /\ exists d tl, g = d :: tl /\ is_digit d = true.
Proof.
  unfold number_patterns, first_match.
  assert (Hone : forall re caps,
            match_atoms (digits :: re) false s = Some caps ->
            (exists rest, s = concat caps ++ rest)
            /\ exists d tl, concat caps = d :: tl /\ is_digit d = true).
  { intros re caps H.
    destruct (match_atoms_sound _ _ _ _ H) as (Hall & rest & Hs & _).
    split; [now exists rest|].
    inversion Hall as [|a m re' caps' [Hcls Hlen] _]; subst.
    cbn in Hlen. destruct m as [|d m]; [cbn in Hlen; lia|].
    exists d, (m ++ concat caps'). split; [reflexivity|].
    cbn in Hcls. now apply andb_true_iff in Hcls as [Hd _]. }
  repeat match goal with
         | |- context [match_atoms (digits :: ?re) false s] =>
             let H := fresh "H" in
             destruct (match_atoms (digits :: re) false s) eqn:H;
             [intros [= <-]; now apply (Hone _ _ H)|]
         end.
  discriminate.
Qed.

(** *** TextDetector.get_step_number, again *)

Lemma get_step_number_spec (raw : str) :
  (exists rest, lstrip raw = get_step_number raw ++ rest)
  /\ (get_step_number raw <> [] ->
      (exists d tl, get_step_number raw = d :: tl /\ is_digit d = true)
      /\ last (get_step_number raw) <> Some DOT).
Proof.
  unfold get_step_number.
  destruct (first_match number_patterns (lstrip raw)) as [g|] eqn:Hg.
  - destruct (first_match_starts_with_digit _ _ Hg)
      as ((rest & Hs) & d & tl & -> & Hd).
    destruct (rstrip_chars_split [DOT] (d :: tl)) as (ws & Hsplit & Hws).
    split.
    + exists (ws ++ rest). now rewrite app_assoc, <- Hsplit.
    + intros _. split.
      * destruct (rstrip_chars [DOT] (d :: tl)) as [|d' tl'] eqn:E.
        -- exfalso. cbn [app] in Hsplit. subst ws. cbn [forallb] in Hws.
           rewrite (digit_not_dot _ Hd) in Hws. discriminate Hws.
        -- injection Hsplit as <- _. now exists d, tl'.
      * intros Hlast. apply rstrip_chars_last in Hlast. discriminate Hlast.
  - split; [now exists (lstrip raw)|]. congruence.
Qed.

(** The numbering prefix stands at the start of the left-trimmed text;
    when there is one, it starts with a digit and does not end with a
    dot. *)
Theorem get_step_number_is_prefix (raw : str) :
  (exists rest, lstrip raw = get_step_number raw ++ rest)
  /\ (get_step_number raw <> [] ->
      (exists d tl, get_step_number raw = d :: tl /\ is_digit d = true)
      /\ last (get_step_number raw) <> Some DOT).
Proof. exact (get_step_number_spec raw). Qed.

(** *** TextDetector.check_colon_format, again *)

Lemma strip_keeps_head (c : N) (r : str) :
  is_space c = false -> exists tl, strip (c :: r) = c :: tl.
Proof.
  intros Hc. unfold strip.
  destruct (rstrip_split (c :: r)) as (ws & Hs & Hws).
  destruct (rstrip (c :: r)) as [|d tl] eqn:E.
  - cbn [app] in Hs. subst ws. cbn [forallb] in Hws. rewrite Hc in Hws.
    discriminate Hws.
  - injection Hs as <- _. exists tl. now apply lstrip_nonspace.
Qed.

(** When the classifier reports a colon, the trimmed text is a non-empty
    part without colon, a colon, and a part without line break; the label
    and the content are those two parts, trimmed; the label is not empty,
    and content is reported exactly when the content is not empty. *)
Theorem check_colon_format_sound (text : str) (has_content : bool)
    (label content : str) :
  check_colon_format text = (true, has_content, label, content) ->
  exists g1 c g2,
    strip text = g1 ++ c :: g2
    /\ forallb (fun x => negb (is_colon x)) g1 = true
    /\ is_colon c = true
    /\ forallb (fun x => negb (x =? NEWLINE)) g2 = true
    /\ label = strip g1 /\ label <> []
    /\ content = strip g2 /\ has_content = truthy content.
Proof.
  unfold check_colon_format.
  destruct (match_atoms colon_pattern true (strip text)) as [caps|] eqn:Hm;
    [|discriminate].
  destruct (match_atoms_sound _ _ _ _ Hm) as (Hall & rest & Hs & Hend).
  unfold colon_pattern in Hall.
  inversion Hall as [|a1 g1 re1 caps1 [Hc1 Hl1] Hall1]; subst.
  inversion Hall1 as [|a2 g2 re2 caps2 [Hc2 Hl2] Hall2]; subst.
  inversion Hall2 as [|a3 g3 re3 caps3 [Hc3 _] Hall3]; subst.
  inversion Hall3; subst.
  intros [= <- <- <-]. cbn in Hl1, Hl2, Hc1, Hc2, Hc3.
  destruct g2 as [|c [|? ?]]; try discriminate Hl2.
  cbn in Hc2. rewrite andb_true_r in Hc2.
  cbn [concat app] in Hs. rewrite app_nil_r in Hs.
  assert (rest = []) as ->.
  { apply (trimmed_right_tail (g1 ++ c :: g3)).
    - rewrite <- Hs. apply strip_trimmed_right.
    - cbn in Hend. destruct rest as [|n [|? ?]]; try discriminate Hend;
        [reflexivity|].
      apply N.eqb_eq in Hend as ->. reflexivity. }
  rewrite app_nil_r in Hs.
  exists g1, c, g3. repeat split; try assumption.
  destruct g1 as [|c1 r1]; [cbn in Hl1; lia|].
  assert (Hsp : is_space c1 = false)
    by (apply (lstrip_head (rstrip text) c1 (r1 ++ c :: g3)); exact Hs).
  destruct (strip_keeps_head c1 r1 Hsp) as [tl ->]. discriminate.
Qed.

(** Conversely, a trimmed text of that shape is always classified as a
    colon format, with the first colon as the split. *)
Theorem check_colon_format_complete (text g1 : str) c (g2 : str) :
  strip text = g1 ++ c :: g2 ->
  g1 <> [] ->
  forallb (fun x => negb (is_colon x)) g1 = true ->
  is_colon c = true ->
  forallb (fun x => negb (x =? NEWLINE)) g2 = true ->
  check_colon_format text
  = (true, truthy (strip g2), strip g1, strip g2).
Proof.
  intros Hs Hne Hg1 Hc Hg2. unfold check_colon_format, colon_pattern.
  rewrite Hs. cbn [match_atoms qty cls].
  rewrite span_prefix by (try assumption; now rewrite Hc).
  rewrite (try_greedy_longest _ _ _ _ [[c]; g2]).
  - now rewrite take_app_length.
  - destruct g1; [contradiction|cbn; lia].
  - rewrite drop_app_length. cbn [match_atoms qty cls]. rewrite Hc.
    assert (Hspan : span (fun c0 => negb (c0 =? NEWLINE)) g2 = length g2).
    { clear -Hg2. induction g2 as [|x g2 IH]; [reflexivity|].
      cbn in *. apply andb_true_iff in Hg2 as [-> Hg2]. now rewrite IH. }
    rewrite Hspan.
    rewrite (try_greedy_longest _ _ _ _ []).
    + now rewrite take_ge.
    + lia.
    + now rewrite drop_ge.
Qed.

Lemma check_colon_format_sound_witness :
  exists g1 c g2,
    strip (lit " Note : text ") = g1 ++ c :: g2
    /\ forallb (fun x => negb (is_colon x)) g1 = true
    /\ is_colon c = true
    /\ forallb (fun x => negb (x =? NEWLINE)) g2 = true
    /\ lit "Note" = strip g1 /\ lit "Note" <> []
    /\ lit "text" = strip g2 /\ true = truthy (lit "text").
Proof.
  apply (check_colon_format_sound (lit " Note : text ") true (lit "Note")
           (lit "text")).
  reflexivity.
Defined.

Lemma check_colon_format_complete_witness :
  check_colon_format (lit " Note : text ")
  = (true, truthy (strip (lit " text")), strip (lit "Note "),
     strip (lit " text")).
Proof.
  apply (check_colon_format_complete (lit " Note : text ") (lit "Note ")
           COLON (lit " text")); try reflexivity.
  discriminate.
Defined.

(** *** TextDetector.has_long_spaces_in_runs *)

Lemma lstrip_chars_app (set ws rest : str) :
  forallb (fun c => mem_char c set) ws = true ->
  lstrip_chars set (ws ++ rest) = lstrip_chars set rest.
Proof.
  induction ws as [|c ws IH]; cbn [app forallb lstrip_chars]; [reflexivity|].
  intros [Hc Hws]%andb_true_iff. rewrite Hc. now apply IH.
Qed.

Lemma tab_weights (ws : str) :
  list_sum (map (fun c => if c =? TAB then 4%nat else 1%nat) ws)
  = (length ws + 3 * length (List.filter (N.eqb TAB) ws))%nat.
Proof.
  induction ws as [|c ws IH]; [reflexivity|].
  cbn [map List.filter].
  change (list_sum (?x :: ?l)) with (x + list_sum l)%nat. rewrite IH.
  rewrite (N.eqb_sym TAB c). destruct (c =? TAB); cbn [length]; lia.
Qed.

(** A text that opens with spaces and tabs is indented, and its width
    counts one for each of them and three more for each tab; the count
    stops at the first other character, an ideographic space included. *)
Theorem has_long_spaces_width (p : Paragraph) (ws rest : str) :
  text p = ws ++ rest ->
  ws <> [] ->
  forallb (fun c => mem_char c [SPACE; TAB]) ws = true ->
  lstrip_chars [SPACE; TAB] rest = rest ->
  has_long_spaces_in_runs p
  = (true, (length ws + 3 * length (List.filter (N.eqb TAB) ws))%nat).
Proof.
  intros Ht Hne Hws Hrest. unfold has_long_spaces_in_runs.
  change (flat_map r_text (runs p)) with (text p). rewrite Ht.
  rewrite (lstrip_chars_app _ _ _ Hws), Hrest.
  assert (Htruthy : truthy (ws ++ rest) = true) by (now destruct ws).
  rewrite Htruthy. cbn [negb].
  replace (length (ws ++ rest) - length rest)%nat with (length ws)
    by (rewrite length_app; lia).
  assert (Hpos : (0 <? length ws)%nat = true)
    by (apply Nat.ltb_lt; destruct ws; [contradiction|cbn; lia]).
  rewrite Hpos, take_app_length. now rewrite tab_weights.
Qed.

Lemma has_long_spaces_width_witness :
  has_long_spaces_in_runs tab_indented
  = (true, (length [TAB; SPACE]
            + 3 * length (List.filter (N.eqb TAB) [TAB; SPACE]))%nat).
Proof.
  apply (has_long_spaces_width tab_indented [TAB; SPACE] REMARKS);
    try reflexivity.
  discriminate.
Defined.

(** *** BilingualTranslator._extract_content_after_number *)

Lemma starts_with_app (sub rest : str) : starts_with sub (sub ++ rest) = true.
Proof.
  induction sub as [|c sub IH]; [reflexivity|].
  cbn. now rewrite N.eqb_refl, IH.
Qed.

Lemma find_prefix (sub rest : str) : find sub (sub ++ rest) = 0%Z.
Proof.
  unfold find. destruct (sub ++ rest) eqn:E; cbn [find_from];
    rewrite <- E, starts_with_app; reflexivity.
Qed.

Lemma extract_content_spec (text : str) :
  lstrip text = text ->
  exists skipped,
    text = get_step_number text ++ skipped
           ++ _extract_content_after_number text (get_step_number text)
    /\ forallb is_separator skipped = true
    /\ (forall c r,
          _extract_content_after_number text (get_step_number text) = c :: r ->
          is_separator c = false).
Proof.
  intros Hl.
  destruct (get_step_number_spec text) as [[rest Hrest] _].
  rewrite Hl in Hrest. unfold _extract_content_after_number.
  remember (get_step_number text) as num eqn:Hnum. clear Hl. subst text.
  rewrite find_prefix, Z.add_0_l, Nat2Z.id, drop_app_length.
  destruct (lstrip_chars_split SEPARATORS rest) as (skipped & Hs & Hsk).
  exists skipped. repeat split.
  - now rewrite <- Hs.
  - exact Hsk.
  - intros c r H. unfold is_separator. eapply lstrip_chars_head. exact H.
Qed.

(** Taking the number off a left-trimmed text loses nothing: the text is
    its numbering prefix, then separators only, then the content returned,
    which does not start with a separator. *)
Theorem extract_content_decomposition (text : str) :
  lstrip text = text ->
  exists skipped,
    text = get_step_number text ++ skipped
           ++ _extract_content_after_number text (get_step_number text)
    /\ forallb is_separator skipped = true
    /\ (forall c r,
          _extract_content_after_number text (get_step_number text) = c :: r ->
          is_separator c = false).
Proof. apply extract_content_spec. Qed.

Lemma extract_content_decomposition_witness :
  exists skipped,
    numbered_step
    = get_step_number numbered_step ++ skipped
      ++ _extract_content_after_number numbered_step
           (get_step_number numbered_step)
    /\ forallb is_separator skipped = true
    /\ (forall c r,
          _extract_content_after_number numbered_step
            (get_step_number numbered_step) = c :: r ->
          is_separator c = false).
Proof.
  apply (extract_content_decomposition numbered_step). reflexivity.
Defined.

Example extract_content_of_numbered_step :
  get_step_number numbered_step = lit "4.9"
  /\ _extract_content_after_number numbered_step (lit "4.9") = INSPECT.
Proof. split; vm_compute; reflexivity. Qed.

(** What the text of an item is made of: its number, a run of separators
    and its content, which starts with no separator; without number the
    content is the whole trimmed text. *)
Lemma item_decomposition (p : Paragraph) :
  exists skipped,
    strip (text p) = item_number p ++ skipped ++ item_content p
    /\ forallb is_separator skipped = true
    /\ (item_number p = [] -> skipped = [])
    /\ (item_number p <> [] ->
        forall c r, item_content p = c :: r -> is_separator c = false).
Proof.
  unfold item_content, item_number.
  destruct (extract_content_spec (strip (text p)) (lstrip_strip _))
    as (skipped & Hs & Hsep & Hstart).
  destruct (get_step_number (strip (text p))) as [|d num] eqn:Hnum.
  - exists []. cbn [truthy app].
    split; [reflexivity|]. split; [reflexivity|]. split; [reflexivity|].
    intros H. contradiction.
  - exists skipped. cbn [truthy].
    split; [exact Hs|]. split; [exact Hsep|]. split; [discriminate|].
    intros _. exact Hstart.
Qed.

(** *** ParagraphProcessor: the grouping pass *)

Lemma fold_left_append_lines (rest : list str) (line0 : str) :
  fold_left (fun result line => result ++ lstrip line) rest line0
  = line0 ++ concat (map lstrip rest).
Proof.
  revert line0. induction rest as [|l rest IH]; intros line0; cbn.
  - now rewrite app_nil_r.
  - now rewrite IH, <- app_assoc.
Qed.

(** [merge_group_text] on the left-trimmed texts of the members. *)
Lemma merge_group_text_lines (items : list Item) :
  merge_group_text items
  = if existsb numbered items
    then concat (map (fun it => lstrip (full_text it)) items)
    else join [SPACE] (map (fun it => lstrip (full_text it)) items).
Proof.
  unfold merge_group_text. destruct items as [|it items]; [reflexivity|].
  fold (existsb numbered (it :: items)).
  change (existsb (fun p => truthy (get_step_number (full_text p))) (it :: items))
    with (existsb numbered (it :: items)).
  destruct (existsb numbered (it :: items)); [|reflexivity].
  cbn [map]. rewrite fold_left_append_lines. cbn [concat]. f_equal. f_equal.
  rewrite map_map. apply map_ext. intros x. apply lstrip_idem.
Qed.

Lemma merge_group_text_stripped (items : list Item) :
  Forall (fun it => lstrip (full_text it) = full_text it) items ->
  merge_group_text items
  = if existsb numbered items
    then concat (map full_text items)
    else join [SPACE] (map full_text items).
Proof.
  intros H. rewrite merge_group_text_lines.
  assert (Hmap : map (fun it => lstrip (full_text it)) items = map full_text items).
  { induction H as [|it items Hit _ IH]; [reflexivity|]. cbn. now rewrite Hit, IH. }
  now rewrite Hmap.
Qed.

Lemma item_of_stripped ps it :
  item_of ps it -> lstrip (full_text it) = full_text it.
Proof. intros (p & _ & ->). apply lstrip_strip. Qed.

Lemma StronglySorted_snoc (l : list nat) (i : nat) :
  StronglySorted lt l -> Forall (fun j => (j < i)%nat) l ->
  StronglySorted lt (l ++ [i]).
Proof.
  induction 1 as [|a l Hl IH Ha]; intros Hlt; cbn.
  - repeat constructor.
  - apply Forall_cons in Hlt as [Hai Hlt]. constructor; [now apply IH|].
    apply Forall_app. split; [exact Ha|]. now repeat constructor.
Qed.

Lemma all_indices_app (gs1 gs2 : list Group) :
  all_indices (gs1 ++ gs2) = all_indices gs1 ++ all_indices gs2.
Proof. apply flat_map_app. Qed.

Lemma all_indices_close (gs : list Group) (g : Group) :
  all_indices (close_group gs g) = all_indices (gs ++ [g]).
Proof. unfold close_group. now rewrite !all_indices_app. Qed.

Lemma grouping_inv_weaken ps i st :
  grouping_inv ps i st -> grouping_inv ps (S i) st.
Proof.
  intros (Hs & Hb & Hi & Hm). repeat split; try assumption.
  eapply Forall_impl; [exact Hb|]. cbn. lia.
Qed.

(** Closing the open group keeps the invariant. *)
Lemma grouping_inv_close ps i st g :
  grouping_inv ps i st -> current_group st = Some g ->
  grouping_inv ps i
    (set_groups st (close_group (continuous_abnormal_groups st) g) None).
Proof.
  unfold grouping_inv, open_group. intros (Hs & Hb & Hi & Hm) Hcur.
  rewrite Hcur in *. cbn [set_groups continuous_abnormal_groups current_group].
  rewrite app_nil_r, all_indices_close.
  repeat split; try assumption.
  - unfold close_group. apply Forall_app in Hi as [Hi1 Hi2].
    apply Forall_app. split; [exact Hi1|].
    apply Forall_cons in Hi2 as [Hg _]. repeat constructor; apply Hg.
  - unfold close_group. apply Forall_app. split; [exact Hm|].
    now repeat constructor.
Qed.

(** Opening a group on paragraph [i], or adding paragraph [i] to the open
    group, keeps the invariant. *)
Lemma grouping_inv_extend ps i st gs g p count :
  StronglySorted lt (all_indices gs) ->
  Forall (fun j => (j < i)%nat) (all_indices gs) ->
  Forall (fun g => paragraphs g <> [] /\ Forall (item_of ps) (paragraphs g)) gs ->
  Forall (fun g => merged_text g = Some (merge_group_text (paragraphs g)))
         (continuous_abnormal_groups st) ->
  ps !! i = Some p ->
  (exists gs0 items id mt,
      gs = continuous_abnormal_groups st ++ gs0
      /\ all_indices gs0 = map para_index items
      /\ Forall (item_of ps) items
      /\ g = {| group_id := id;
                paragraphs := items ++ [new_item p i count];
                merged_text := mt |}) ->
  grouping_inv ps (S i) (set_groups st (continuous_abnormal_groups st) (Some g)).
Proof.
  intros Hs Hb Hi Hm Hp (gs0 & items & id & mt & -> & Hidx & Hitems & ->).
  unfold grouping_inv, open_group.
  cbn [set_groups continuous_abnormal_groups current_group].
  assert (Hall : all_indices
                   (continuous_abnormal_groups st
                    ++ [{| group_id := id;
                           paragraphs := items ++ [new_item p i count];
                           merged_text := mt |}])
                 = all_indices (continuous_abnormal_groups st ++ gs0) ++ [i]).
  { rewrite !all_indices_app, Hidx. cbn. unfold group_indices. cbn.
    now rewrite map_app, app_nil_r, <- app_assoc. }
  rewrite Hall. repeat split.
  - now apply StronglySorted_snoc.
  - apply Forall_app. split.
    + eapply Forall_impl; [exact Hb|]. cbn. lia.
    + repeat constructor.
  - apply Forall_app in Hi as [Hi1 _]. apply Forall_app. split; [exact Hi1|].
    repeat constructor; cbn.
    + now destruct items.
    + apply Forall_app. split; [exact Hitems|].
      repeat constructor. exists p. cbn. now split.
  - exact Hm.
Qed.

Lemma grouping_inv_record ps i st p :
  grouping_inv ps i st -> ps !! i = Some p ->
  grouping_inv ps (S i) (record_long_space_paragraph st p (Some i)).
Proof.
  intros Hinv Hp. unfold record_long_space_paragraph.
  destruct (has_long_spaces_in_runs p) as [has_abnormal count].
  destruct has_abnormal; cbn [negb].
  - destruct (truthy (get_step_number_of_paragraph p)).
    + (* A numbered paragraph closes the open group and seeds a new one. *)
      destruct (current_group st) as [g|] eqn:Hcur.
      * pose proof (grouping_inv_close _ _ _ _ Hinv Hcur) as Hc.
        destruct Hc as (Hs & Hb & Hi & Hm).
        unfold open_group in *.
        cbn [set_groups continuous_abnormal_groups current_group] in *.
        rewrite app_nil_r in *.
        apply (grouping_inv_extend ps i
                 (set_groups st (close_group (continuous_abnormal_groups st) g) None)
                 (close_group (continuous_abnormal_groups st) g) _ p count
                 Hs Hb Hi Hm Hp).
        exists [], []. do 2 eexists. cbn [app]. rewrite app_nil_r.
        repeat split; constructor.
      * destruct Hinv as (Hs & Hb & Hi & Hm).
        unfold open_group in *. rewrite Hcur, app_nil_r in *.
        apply (grouping_inv_extend ps i st (continuous_abnormal_groups st) _
                 p count Hs Hb Hi Hm Hp).
        exists [], []. do 2 eexists. cbn [app]. rewrite app_nil_r.
        repeat split; constructor.
    + destruct (current_group st) as [g|] eqn:Hcur.
      * (* A continuation line joins the open group. *)
        destruct Hinv as (Hs & Hb & Hi & Hm).
        unfold open_group in *. rewrite Hcur in *.
        apply (grouping_inv_extend ps i st
                 (continuous_abnormal_groups st ++ [g]) _ p count
                 Hs Hb Hi Hm Hp).
        exists [g], (paragraphs g), (group_id g), (merged_text g).
        repeat split.
        -- cbn. now rewrite app_nil_r.
        -- apply Forall_app in Hi as [_ Hg].
           apply Forall_cons in Hg as [Hg _]. apply Hg.
      * destruct Hinv as (Hs & Hb & Hi & Hm).
        unfold open_group in *. rewrite Hcur, app_nil_r in *.
        apply (grouping_inv_extend ps i st (continuous_abnormal_groups st) _
                 p count Hs Hb Hi Hm Hp).
        exists [], []. do 2 eexists. cbn [app]. rewrite app_nil_r.
        repeat split; constructor.
  - destruct (current_group st) as [g|] eqn:Hcur.
    + apply grouping_inv_weaken. now apply grouping_inv_close.
    + now apply grouping_inv_weaken.
Qed.

Lemma grouping_inv_record_paragraphs ps rest pre st :
  ps = pre ++ rest -> grouping_inv ps (length pre) st ->
  grouping_inv ps (length ps) (record_paragraphs st (length pre) rest).
Proof.
  revert pre st. induction rest as [|p rest IH]; intros pre st Hps Hinv.
  - cbn. rewrite app_nil_r in Hps. now subst pre.
  - cbn [record_paragraphs].
    assert (Hp : ps !! length pre = Some p).
    { rewrite Hps. now rewrite list_lookup_middle. }
    replace (S (length pre)) with (length (pre ++ [p]))
      by (rewrite length_app; cbn; lia).
    apply IH.
    + now rewrite Hps, <- app_assoc.
    + rewrite length_app. cbn [length]. rewrite Nat.add_1_r.
      destruct (qualifies p).
      * now apply grouping_inv_record.
      * now apply grouping_inv_weaken.
Qed.

Lemma grouping_inv_reset ps st0 : grouping_inv ps 0 (reset st0).
Proof. repeat split; cbn; constructor. Qed.

(** What the grouping pass produces: groups whose member indices increase
    strictly along the list, each with at least one member, every member
    recording its paragraph, and each with its merged text. *)
Lemma grouping_pass_groups st0 ps :
  StronglySorted lt
    (all_indices (continuous_abnormal_groups (grouping_pass (reset st0) ps)))
  /\ Forall (fun g => paragraphs g <> []
                      /\ Forall (item_of ps) (paragraphs g)
                      /\ merged_text g = Some (merge_group_text (paragraphs g)))
            (continuous_abnormal_groups (grouping_pass (reset st0) ps)).
Proof.
  pose proof (grouping_inv_record_paragraphs ps ps [] (reset st0) eq_refl
                (grouping_inv_reset ps st0)) as Hinv.
  cbn [length] in Hinv. unfold grouping_pass, finalize_groups.
  destruct (current_group (record_paragraphs (reset st0) 0 ps)) as [g|] eqn:Hcur.
  - pose proof (grouping_inv_close _ _ _ _ Hinv Hcur) as (Hs & _ & Hi & Hm).
    unfold open_group in *.
    cbn [set_groups continuous_abnormal_groups current_group] in *.
    rewrite app_nil_r in *. split; [exact Hs|].
    rewrite Forall_forall in *. intros x Hx.
    destruct (Hi x Hx). repeat split; auto.
  - destruct Hinv as (Hs & _ & Hi & Hm).
    unfold open_group in *. rewrite Hcur, app_nil_r in *. split; [exact Hs|].
    rewrite Forall_forall in *. intros x Hx.
    destruct (Hi x Hx). repeat split; auto.
Qed.

(** C2.  Every group the grouping pass produces is non-empty, its members
    record the stripped texts of their paragraphs, and its merged text is:
    when some member's text carries a numbering prefix, the concatenation
    of the members' stripped texts in member order, without separator;
    otherwise those texts joined by a single space. *)
Theorem merged_text_of_group (st0 : DocumentState) (ps : list Paragraph)
    (g : Group) :
  g ∈ continuous_abnormal_groups (grouping_pass (reset st0) ps) ->
  paragraphs g <> []
  /\ Forall (item_of ps) (paragraphs g)
  /\ merged_text g
     = Some (if existsb numbered (paragraphs g)
             then concat (map full_text (paragraphs g))
             else join [SPACE] (map full_text (paragraphs g))).
Proof.
  intros Hg.
  destruct (grouping_pass_groups st0 ps) as [_ Hall].
  rewrite Forall_forall in Hall.
  destruct (Hall g Hg) as (Hne & Hitems & Hm).
  repeat split; [exact Hne|exact Hitems|].
  rewrite Hm. f_equal. apply merge_group_text_stripped.
  eapply Forall_impl; [exact Hitems|]. intros it. apply item_of_stripped.
Qed.

(** Scenario B: the merged text is "注意事項 請小心操作". *)
Lemma merged_text_of_group_witness :
  paragraphs scenario_b_group <> []
  /\ Forall (item_of scenario_b) (paragraphs scenario_b_group)
  /\ merged_text scenario_b_group
     = Some (if existsb numbered (paragraphs scenario_b_group)
             then concat (map full_text (paragraphs scenario_b_group))
             else join [SPACE] (map full_text (paragraphs scenario_b_group))).
Proof.
  apply (merged_text_of_group empty_state scenario_b scenario_b_group).
  apply list_elem_of_In. vm_compute. left. reflexivity.
Defined.

(** *** BilingualTranslator: paragraphs of a group *)

Lemma elem_of_map {A B} (f : A -> B) (l : list A) (y : B) :
  y ∈ map f l <-> exists x, y = f x /\ x ∈ l.
Proof.
  rewrite list_elem_of_In, in_map_iff. split.
  - intros (x & <- & Hx). exists x. split; [reflexivity|now apply list_elem_of_In].
  - intros (x & -> & Hx). exists x. split; [reflexivity|now apply list_elem_of_In].
Qed.

Lemma elem_of_all_indices (gs : list Group) (i : nat) :
  i ∈ all_indices gs <-> exists g, g ∈ gs /\ i ∈ group_indices g.
Proof.
  unfold all_indices. rewrite list_elem_of_In, in_flat_map. split.
  - intros (g & Hg & Hi). exists g. split; now apply list_elem_of_In.
  - intros (g & Hg & Hi). exists g. split; now apply list_elem_of_In.
Qed.

Lemma StronglySorted_lt_NoDup (l : list nat) : StronglySorted lt l -> NoDup l.
Proof.
  induction 1 as [|a l _ IH Ha]; constructor; [|exact IH].
  intros Hin. rewrite Forall_forall in Ha. specialize (Ha a Hin). lia.
Qed.

Lemma matching_item_in (items : list Item) (i : nat) :
  i ∈ map para_index items ->
  exists it, matching_item items (Some i) = Some it /\ para_index it = i.
Proof.
  unfold matching_item.
  induction items as [|a items IH]; cbn [map List.find].
  - intros H. now apply not_elem_of_nil in H.
  - intros H. case_bool_decide as Ha.
    + exists a. split; [reflexivity|congruence].
    + apply elem_of_cons in H as [-> | H]; [congruence|]. now apply IH.
Qed.

Lemma matching_item_notin (items : list Item) (i : nat) :
  i ∉ map para_index items -> matching_item items (Some i) = None.
Proof.
  unfold matching_item.
  induction items as [|a items IH]; cbn [map List.find]; [reflexivity|].
  intros H. apply not_elem_of_cons in H as [Hne H].
  case_bool_decide as Ha; [congruence|]. now apply IH.
Qed.

(** With member indices that do not repeat, the search finds the one group
    that holds the index, provided it is not consumed. *)
Lemma belonging_group_found (gs : list Group) (T : gset nat) (g : Group)
    (i : nat) :
  NoDup (all_indices gs) -> g ∈ gs -> group_id g ∉ T ->
  i ∈ group_indices g ->
  belonging_group gs T (Some i)
  = Some (g, bool_decide (Some i = seed_index g)).
Proof.
  induction gs as [|g' gs IH]; intros Hnd Hg Hid Hi.
  - now apply not_elem_of_nil in Hg.
  - cbn [belonging_group]. unfold all_indices in Hnd. cbn [flat_map] in Hnd.
    apply NoDup_app in Hnd as (_ & Hdisj & Hnd).
    apply elem_of_cons in Hg as [<- | Hg].
    + rewrite bool_decide_eq_false_2 by exact Hid.
      destruct (matching_item_in _ _ Hi) as (it & -> & <-). reflexivity.
    + assert (Hnot : i ∉ group_indices g').
      { intros Hin. apply (Hdisj i Hin).
        apply elem_of_all_indices. now exists g. }
      rewrite (matching_item_notin _ _ Hnot).
      destruct (bool_decide (group_id g' ∈ T)); now apply IH.
Qed.

(** The search never returns a consumed group. *)
Lemma belonging_group_not_translated (gs : list Group) (T : gset nat)
    (index : option nat) (g : Group) (b : bool) :
  belonging_group gs T index = Some (g, b) -> group_id g ∉ T.
Proof.
  induction gs as [|g' gs IH]; cbn [belonging_group]; [discriminate|].
  case_bool_decide as Hid; [exact IH|].
  destruct (matching_item (paragraphs g') index); [|exact IH].
  now intros [= <- _].
Qed.

Lemma clear_slot_idem (s : Slot) : clear_slot (clear_slot s) = clear_slot s.
Proof.
  unfold clear_slot. cbn [para after]. now rewrite clear_paragraph_idem.
Qed.

(** The loop that clears the later members of a group. *)
Lemma lookup_clear_members (items : list Item) (body : list Slot) (j : nat) :
  fold_left (fun b item => alter clear_slot (para_index item) b) items body
  !! j
  = if bool_decide (j ∈ map para_index items)
    then clear_slot <$> body !! j
    else body !! j.
Proof.
  revert body. induction items as [|it items IH]; intros body;
    cbn [fold_left map].
  - rewrite bool_decide_eq_false_2; [reflexivity|apply not_elem_of_nil].
  - rewrite IH. destruct (decide (para_index it = j)) as [<- | Hne].
    + rewrite list_lookup_alter_eq.
      rewrite (bool_decide_eq_true_2 (para_index it ∈ para_index it :: _))
        by apply list_elem_of_here.
      destruct (bool_decide _); [|reflexivity].
      destruct (body !! para_index it); cbn; [|reflexivity].
      now rewrite clear_slot_idem.
    + rewrite list_lookup_alter_ne by exact Hne.
      apply (f_equal (fun b : bool => if b then _ else _)).
      apply bool_decide_ext. rewrite elem_of_cons.
      split; [now right|intros [Heq | Hj]; [congruence|exact Hj]].
Qed.

Lemma length_clear_members (items : list Item) (body : list Slot) :
  length (fold_left (fun b item => alter clear_slot (para_index item) b)
                    items body)
  = length body.
Proof.
  revert body. induction items as [|it items IH]; intros body; cbn [fold_left];
    [reflexivity|].
  now rewrite IH, length_alter.
Qed.

Lemma seed_in_group (g : Group) (i : nat) :
  seed_index g = Some i -> i ∈ group_indices g.
Proof.
  unfold seed_index, group_indices. destruct (paragraphs g) as [|it items];
    [discriminate|].
  intros [= <-]. apply list_elem_of_here.
Qed.

Lemma seed_not_later_member (g : Group) (i : nat) :
  NoDup (group_indices g) -> seed_index g = Some i ->
  i ∉ map para_index (tail (paragraphs g)).
Proof.
  unfold seed_index, group_indices. destruct (paragraphs g) as [|it items];
    [discriminate|].
  cbn [map head tail fmap option_fmap option_map]. intros Hnd [= <-].
  now apply NoDup_cons in Hnd as [Hnot _].
Qed.

Lemma NoDup_group_indices (gs : list Group) (g : Group) :
  NoDup (all_indices gs) -> g ∈ gs -> NoDup (group_indices g).
Proof.
  induction gs as [|g' gs IH]; intros Hnd Hg.
  - now apply not_elem_of_nil in Hg.
  - unfold all_indices in Hnd. cbn [flat_map] in Hnd.
    apply NoDup_app in Hnd as (Hg' & _ & Hnd).
    apply elem_of_cons in Hg as [-> | Hg]; [exact Hg'|now apply IH].
Qed.

(** The member indices of the groups the grouping pass produces do not
    repeat: the later members of a group never alias its seed, and no
    paragraph belongs to two groups. *)
Lemma grouping_pass_indices_NoDup (st0 : DocumentState) (ps : list Paragraph) :
  NoDup (all_indices (continuous_abnormal_groups (grouping_pass (reset st0) ps))).
Proof. apply StronglySorted_lt_NoDup, grouping_pass_groups. Qed.

Section GroupProperties.

Variable TRANSLATOR : str -> option str.

(** What one round of the paragraph loop does when it reaches the seed of
    a group that is not consumed.  The seed keeps its drawing runs, its
    other runs are emptied, and a run with the merged text is appended,
    after the indent when the seed holds no drawing; one sibling with the
    indented translation goes in right after the seed; the later members
    are cleared, drawings kept; the other paragraphs stay; the group is
    marked, after which the search returns it for no paragraph.  The
    indent is one space for each leading whitespace character of the seed,
    and the text of the sibling is the indent followed by the trimmed
    translation. *)
Lemma body_paragraph_at_seed (st : DocumentState) (body : list Slot)
    (i : nat) (g : Group) (seed : Slot) :
  NoDup (all_indices (continuous_abnormal_groups st)) ->
  g ∈ continuous_abnormal_groups st ->
  group_id g ∉ translated_group_ids st ->
  seed_index g = Some i ->
  body !! i = Some seed ->
  qualifies (para seed) = true ->
  exists st' body' rewritten,
    translate_body_paragraph TRANSLATOR st body i = (st', body')
    /\ st' = mark_translated st (group_id g)
    /\ rewritten
       = add_run (clear_paragraph_text_keep_images (para seed))
           (if existsb has_picture (runs (para seed))
            then merge_group_text (paragraphs g)
            else indent_of (text (para seed))
                 ++ merge_group_text (paragraphs g))
    /\ body' !! i
       = Some {| para := rewritten;
                 after :=
                   english_paragraph rewritten
                     (indent_of (text (para seed))
                      ++ strip (translate_text TRANSLATOR st
                                  (group_pure_content g)))
                     None None None
                   :: after seed |}
    /\ (forall j, j ∈ map para_index (tail (paragraphs g)) ->
                  body' !! j = clear_slot <$> body !! j)
    /\ (forall j, j ∉ group_indices g -> body' !! j = body !! j)
    /\ (forall index g' b,
          belonging_group (continuous_abnormal_groups st')
            (translated_group_ids st') index = Some (g', b) ->
          group_id g' <> group_id g)
    /\ (forall ws rest,
          text (para seed) = ws ++ rest -> forallb is_space ws = true ->
          lstrip rest = rest ->
          indent_of (text (para seed)) = replicate (length ws) SPACE)
    /\ (forall s, body' !! i = Some s ->
          exists sibling,
            after s = sibling :: after seed
            /\ text sibling
               = indent_of (text (para seed))
                 ++ strip (translate_text TRANSLATOR st
                             (group_pure_content g))).
Proof.
  intros Hnd Hg Hid Hseed Hbody Hq.
  pose proof (seed_in_group _ _ Hseed) as Hin.
  pose proof (seed_not_later_member _ _ (NoDup_group_indices _ _ Hnd Hg) Hseed)
    as Hlater.
  assert (Hlen : (i < length body)%nat) by (eapply lookup_lt_Some; eauto).
  unfold translate_body_paragraph, translate_paragraph. rewrite Hbody.
  pose proof Hq as Hq'. unfold qualifies in Hq'.
  apply andb_true_iff in Hq' as [Htext _]. rewrite Htext, Hq. cbn [negb].
  rewrite (belonging_group_found _ _ g i Hnd Hg Hid Hin).
  rewrite bool_decide_eq_true_2 by (now rewrite Hseed).
  unfold _translate_grouped_paragraphs.
  eexists _, _, _. split; [reflexivity|]. split; [reflexivity|].
  split; [reflexivity|].
  repeat split.
  - rewrite list_lookup_insert_eq by (now rewrite length_clear_members).
    unfold add_english_below. cbn [para after].
    destruct (existsb has_picture (runs (para seed))) eqn:Hpic; [reflexivity|].
    now rewrite clear_all_runs_no_picture.
  - intros j Hj.
    rewrite list_lookup_insert_ne by (intros ->; contradiction).
    rewrite lookup_clear_members. now rewrite bool_decide_eq_true_2.
  - intros j Hj.
    assert (Hne : i <> j) by (intros ->; contradiction).
    rewrite list_lookup_insert_ne by exact Hne.
    rewrite lookup_clear_members. rewrite bool_decide_eq_false_2; [reflexivity|].
    intros Hjt. apply Hj. unfold group_indices.
    destruct (paragraphs g); [exact Hjt|]. now apply list_elem_of_further.
  - intros index g' b Hfound Heq.
    apply belonging_group_not_translated in Hfound.
    apply Hfound. cbn [mark_translated translated_group_ids]. rewrite Heq.
    apply elem_of_union. left. now apply elem_of_singleton.
  - intros ws rest Ht Hws Hrest. rewrite Ht. unfold indent_of.
    now rewrite leading_whitespace_length.
  - intros s Hs.
    rewrite list_lookup_insert_eq in Hs
      by (now rewrite length_clear_members).
    injection Hs as <-. cbn [add_english_below after para].
    eexists. split; [reflexivity|]. now english_paragraph_text.
Qed.

End GroupProperties.

(** Scenario B through the whole paragraph loop: the seed holds the merged
    text after its indent, a sibling with the indented translation follows
    it, the second member is cleared, and "結果：" is rewritten in place. *)
Example scenario_b_paragraph_pass :
  map (fun s => (text (para s), map text (after s)))
      (out_paragraphs
         (translate_document (constant_backend (lit "Caution"))
            empty_state
            {| doc_paragraphs := scenario_b; doc_tables := [];
               doc_sections := [] |}))
  = [ (lit "   " ++ NOTICE ++ lit " " ++ CAREFUL, [lit "   Caution"]);
      ([], []);
      (RESULT ++ lit "(Caution)" ++ [FULLWIDTH_COLON], []) ].
Proof. vm_compute. reflexivity. Qed.

(** The same document when every backend call fails: the passes go on and
    the sibling holds the untranslated text. *)
Example scenario_b_backend_down :
  map (fun s => (text (para s), map text (after s)))
      (out_paragraphs
         (translate_document failing_backend empty_state
            {| doc_paragraphs := scenario_b; doc_tables := [];
               doc_sections := [] |}))
  = [ (lit "   " ++ NOTICE ++ lit " " ++ CAREFUL,
       [lit "   " ++ NOTICE ++ lit " " ++ CAREFUL]);
      ([], []);
      (RESULT ++ lit "(" ++ RESULT ++ lit ")" ++ [FULLWIDTH_COLON], []) ].
Proof. vm_compute. reflexivity. Qed.

(** C1 (the source departs from the claim).  The seed of a group is claimed
    to be rewritten to its indent followed by the merged text, drawing runs
    untouched.  When the seed holds a drawing run, the source appends the
    merged text without the indent, which it puts only before the
    translation: for the seed made of a picture and "   注意事項", followed
    by "   請小心操作", the picture run is untouched, the text run is
    emptied, the appended run is "注意事項 請小心操作" with no indent, and
    the sibling is "   Caution". *)
Theorem seed_with_picture_loses_indent :
  out_paragraphs
    (translate_document (constant_backend (lit "Caution")) empty_state
       picture_group_document)
  = [ {| para :=
           {| runs := [picture_run; text_run [];
                       text_run (NOTICE ++ lit " " ++ CAREFUL)];
              alignment := None |};
         after :=
           [ english_paragraph seed_with_picture (lit "   Caution")
               None None None ] |};
      pristine (plain []) ]
  /\ indent_of (text seed_with_picture) = lit "   ".
Proof. split; vm_compute; reflexivity. Qed.

(** *** BilingualTranslator.translate_table: numbered cells *)

Lemma labelled_lines_no_numbers (parts : list str) :
  labelled_lines [] parts = parts.
Proof. now destruct parts. Qed.

Lemma drop_lookup_cons {A} (l : list A) (i : nat) (x : A) :
  l !! i = Some x -> drop i l = x :: drop (S i) l.
Proof.
  revert i. induction l as [|a l IH]; intros [|i]; cbn; try discriminate.
  - now intros [= ->].
  - intros H. now apply IH.
Qed.

(** The loop over the numbers, followed by the excess segments, labels the
    segments by position. *)
Lemma number_lines_labelled (numbers parts : list str) (i : nat) :
  number_lines i numbers parts ++ drop (i + length numbers) parts
  = labelled_lines numbers (drop i parts).
Proof.
  revert i. induction numbers as [|num numbers IH]; intros i;
    cbn [number_lines length].
  - now rewrite Nat.add_0_r, labelled_lines_no_numbers.
  - replace (i + S (length numbers))%nat with (S i + length numbers)%nat by lia.
    destruct (parts !! i) as [part|] eqn:Hi.
    + rewrite (drop_lookup_cons _ _ _ Hi). cbn [labelled_lines app].
      now rewrite IH.
    + rewrite IH. apply lookup_ge_None in Hi.
      now rewrite !drop_ge by lia.
Qed.

Lemma english_lines_labelled (numbers parts : list str) :
  number_lines 0 numbers parts
  ++ (if (length numbers <? length parts)%nat
      then drop (length numbers) parts else [])
  = labelled_lines numbers parts.
Proof.
  pose proof (number_lines_labelled numbers parts 0) as H.
  cbn [Nat.add] in H. rewrite drop_0 in H. rewrite <- H.
  f_equal. destruct (length numbers <? length parts)%nat eqn:E; [reflexivity|].
  apply Nat.ltb_ge in E. now rewrite drop_ge.
Qed.


Lemma cell_paragraphs_app (c1 c2 : Cell) :
  cell_paragraphs (c1 ++ c2) = cell_paragraphs c1 ++ cell_paragraphs c2.
Proof. apply flat_map_app. Qed.

Lemma no_qualifying_paragraph (cell : Cell) :
  existsb item_qualifies cell = false ->
  filter (fun p => qualifies p = true) (cell_paragraphs cell) = [].
Proof.
  induction cell as [|it cell IH]; [reflexivity|].
  cbn [existsb]. intros [Hit Hcell]%orb_false_iff.
  destruct it as [p|rows]; cbn [cell_paragraphs flat_map app].
  - cbn in Hit. fold (cell_paragraphs cell).
    rewrite filter_cons_False by congruence. now apply IH.
  - now apply IH.
Qed.

Lemma insert_below_last_spec (l1 l2 : Cell) (q : Paragraph)
    (new : list Paragraph) :
  qualifies q = true -> existsb item_qualifies l2 = false ->
  insert_below_last (l1 ++ CPara q :: l2) new
  = l1 ++ CPara q :: map CPara new ++ l2.
Proof.
  intros Hq Hl2. induction l1 as [|it l1 IH]; cbn [app insert_below_last].
  - rewrite Hl2. cbn [item_qualifies]. now rewrite Hq.
  - rewrite existsb_app. cbn [existsb item_qualifies].
    now rewrite Hq, orb_true_r, IH.
Qed.

Section TableProperties.

Variable TRANSLATOR : str -> option str.

Lemma numbered_cell_english_spec (st : DocumentState) (ps : list Paragraph) :
  numbered_cell_english TRANSLATOR st ps
  = join [NEWLINE]
      (labelled_lines (map item_number ps)
         (sentence_parts
            (translate_text TRANSLATOR st
               (join [SPACE] (map item_content ps))))).
Proof.
  unfold numbered_cell_english. rewrite english_lines_labelled.
  rewrite !map_map. unfold sentence_parts.
  assert (Hnum : map (fun p => snd (if truthy (get_step_number (strip (text p)))
                                    then (_extract_content_after_number
                                            (strip (text p))
                                            (get_step_number (strip (text p))),
                                          get_step_number (strip (text p)))
                                    else (strip (text p), [])))
                     ps
                 = map item_number ps).
  { apply map_ext. intros p. unfold item_number.
    now destruct (get_step_number (strip (text p))). }
  assert (Hcontent : map (fun p => fst (if truthy (get_step_number (strip (text p)))
                                        then (_extract_content_after_number
                                                (strip (text p))
                                                (get_step_number (strip (text p))),
                                              get_step_number (strip (text p)))
                                        else (strip (text p), [])))
                         ps
                     = map item_content ps).
  { apply map_ext. intros p. unfold item_content, item_number.
    now destruct (truthy (get_step_number (strip (text p)))). }
  now rewrite Hnum, Hcontent.
Qed.

Lemma numbered_cell_below_last_qualifying (st : DocumentState)
    (body : list Slot) (l1 l2 : Cell) (q : Paragraph) :
  qualifies q = true ->
  existsb item_qualifies l2 = false ->
  (1 < length (filter (fun p => qualifies p = true)
                 (cell_paragraphs (l1 ++ CPara q :: l2))))%nat ->
  existsb (fun p => truthy (get_step_number (text p)))
    (filter (fun p => qualifies p = true)
       (cell_paragraphs (l1 ++ CPara q :: l2))) = true ->
  translate_cell TRANSLATOR st body (l1 ++ CPara q :: l2)
  = (st, body,
     l1 ++ CPara q
     :: CPara
          (english_paragraph q
             (join [NEWLINE]
                (labelled_lines
                   (map item_number
                      (filter (fun p => qualifies p = true)
                         (cell_paragraphs (l1 ++ CPara q :: l2))))
                   (sentence_parts
                      (translate_text TRANSLATOR st
                         (join [SPACE]
                            (map item_content
                               (filter (fun p => qualifies p = true)
                                  (cell_paragraphs (l1 ++ CPara q :: l2)))))))))
             None None None)
     :: l2).
Proof.
  intros Hq Hl2 Hlen Hnum. unfold translate_cell.
  set (ps := filter (fun p => qualifies p = true)
               (cell_paragraphs (l1 ++ CPara q :: l2))) in *.
  assert (Hlast : last ps = Some q).
  { unfold ps. rewrite cell_paragraphs_app. cbn [cell_paragraphs flat_map app].
    fold (cell_paragraphs l2). rewrite filter_app, filter_cons_True by exact Hq.
    rewrite (no_qualifying_paragraph _ Hl2). apply last_snoc. }
  destruct ps as [|p0 ps'] eqn:Hps; [cbn in Hlen; lia|].
  rewrite <- Hps in *. rewrite Hnum.
  apply Nat.ltb_lt in Hlen. rewrite Hlen. cbn [andb].
  unfold _translate_numbered_table_cell. rewrite Hlast.
  cbn [fmap option_fmap option_map add_english_below pristine para after].
  rewrite insert_below_last_spec by assumption.
  now rewrite numbered_cell_english_spec.
Qed.

(** C7, as the source has it.  In a cell with more than one source-language
    paragraph, at least one of them numbered, one paragraph is inserted
    right below the last source-language paragraph of the cell, before
    whatever follows it in the cell: the paragraph [add_english_below]
    builds, whose text is made as follows.  The trimmed text of each item
    is its number, a run of separators and its content, which starts with
    no separator (without number the content is the whole trimmed text);
    the contents are joined by single spaces and translated in one call;
    the translation is split on the full stop and the numbers are put back
    on the segments by position (segments beyond the numbers stay
    unlabelled, numbers beyond the segments are dropped); the lines are
    joined by newlines. *)
Theorem numbered_cell_translated_as_one_unit (st : DocumentState)
    (body : list Slot) (l1 l2 : Cell) (q : Paragraph) :
  qualifies q = true ->
  existsb item_qualifies l2 = false ->
  (1 < length (filter (fun p => qualifies p = true)
                 (cell_paragraphs (l1 ++ CPara q :: l2))))%nat ->
  existsb (fun p => truthy (get_step_number (text p)))
    (filter (fun p => qualifies p = true)
       (cell_paragraphs (l1 ++ CPara q :: l2))) = true ->
  exists english,
    translate_cell TRANSLATOR st body (l1 ++ CPara q :: l2)
    = (st, body, l1 ++ CPara q :: CPara english :: l2)
    /\ english = english_paragraph q (text english) None None None
    /\ text english
       = join [NEWLINE]
           (labelled_lines
              (map item_number
                 (filter (fun p => qualifies p = true)
                    (cell_paragraphs (l1 ++ CPara q :: l2))))
              (sentence_parts
                 (translate_text TRANSLATOR st
                    (join [SPACE]
                       (map item_content
                          (filter (fun p => qualifies p = true)
                             (cell_paragraphs (l1 ++ CPara q :: l2))))))))
    /\ Forall
         (fun p =>
            exists skipped,
              strip (text p) = item_number p ++ skipped ++ item_content p
              /\ forallb is_separator skipped = true
              /\ (item_number p = [] -> skipped = [])
              /\ (item_number p <> [] ->
                  forall c r, item_content p = c :: r ->
                              is_separator c = false))
         (filter (fun p => qualifies p = true)
            (cell_paragraphs (l1 ++ CPara q :: l2))).
Proof.
  intros Hq Hl2 Hlen Hnum. eexists.
  split; [now apply numbered_cell_below_last_qualifying|].
  split; [now english_paragraph_text|].
  split; [now english_paragraph_text|].
  apply Forall_forall. intros p _. apply item_decomposition.
Qed.

End TableProperties.

(** Scenario E: the two items are sent as "注意事項 請小心操作" and come
    back as "1.Alpha" and "2.Beta" in one paragraph below the second
    item. *)
Lemma numbered_cell_witness :
  exists english,
    translate_cell
      (glossary_backend [(NOTICE ++ lit " " ++ CAREFUL, lit "Alpha. Beta")])
      empty_state [] scenario_e_cell
    = (empty_state, [], scenario_e_cell ++ [CPara english])
    /\ english
       = english_paragraph (plain (lit "2. " ++ CAREFUL)) (text english)
           None None None
    /\ text english = lit "1.Alpha" ++ [NEWLINE] ++ lit "2.Beta"
    /\ Forall
         (fun p =>
            exists skipped,
              strip (text p) = item_number p ++ skipped ++ item_content p
              /\ forallb is_separator skipped = true
              /\ (item_number p = [] -> skipped = [])
              /\ (item_number p <> [] ->
                  forall c r, item_content p = c :: r ->
                              is_separator c = false))
         [plain (lit "1. " ++ NOTICE); plain (lit "2. " ++ CAREFUL)].
Proof.
  apply (numbered_cell_translated_as_one_unit
           (glossary_backend
              [(NOTICE ++ lit " " ++ CAREFUL, lit "Alpha. Beta")])
           empty_state []
           [CPara (plain (lit "1. " ++ NOTICE))] []
           (plain (lit "2. " ++ CAREFUL)));
    vm_compute; first [reflexivity | lia].
Defined.

(** C7 as stated fails in two ways.  When the cell goes on after its last
    source-language paragraph, the translation is not below the last
    paragraph of the cell: here it stands before the closing line "end".
    And the translation is split on the full stop only, wherever it
    stands: "Alpha! Beta?" stays one segment, so that the second number is
    dropped, and "Use 3.5 mm. Done" is cut inside the number, so that the
    second number labels "5 mm". *)
Lemma numbered_cell_departs_from_claim :
  ((translate_cell
      (glossary_backend [(NOTICE ++ lit " " ++ CAREFUL, lit "Alpha. Beta")])
      empty_state [] cell_with_closing_line).2
   = scenario_e_cell
     ++ [ CPara (english_paragraph (plain (lit "2. " ++ CAREFUL))
                   (lit "1.Alpha" ++ [NEWLINE] ++ lit "2.Beta")
                   None None None);
          CPara (plain (lit "end")) ]
   /\ ~ (exists english,
           (translate_cell
              (glossary_backend
                 [(NOTICE ++ lit " " ++ CAREFUL, lit "Alpha. Beta")])
              empty_state [] cell_with_closing_line).2
           = cell_with_closing_line ++ [CPara english]))
  /\ map text
       (cell_paragraphs
          (translate_cell
             (glossary_backend
                [(NOTICE ++ lit " " ++ CAREFUL, lit "Alpha! Beta?")])
             empty_state [] scenario_e_cell).2)
     = [ lit "1. " ++ NOTICE; lit "2. " ++ CAREFUL; lit "1.Alpha! Beta?" ]
  /\ map text
       (cell_paragraphs
          (translate_cell
             (glossary_backend
                [(NOTICE ++ lit " " ++ CAREFUL, lit "Use 3.5 mm. Done")])
             empty_state [] scenario_e_cell).2)
     = [ lit "1. " ++ NOTICE; lit "2. " ++ CAREFUL;
         lit "1.Use 3" ++ [NEWLINE] ++ lit "2.5 mm" ++ [NEWLINE]
         ++ lit "Done" ].
Proof.
  split; [split|split]; try (vm_compute; reflexivity).
  intros [english H]. vm_compute in H. discriminate H.
Qed.

(** *** Documents without source-language text *)

(** Induction on cell items through the rows and cells of nested tables. *)
Lemma CellItem_nested_ind (P : CellItem -> Prop) :
  (forall p, P (CPara p)) ->
  (forall rows, Forall (Forall (Forall P)) rows -> P (CTable rows)) ->
  forall it, P it.
Proof.
  intros Hp Ht. fix IH 1. intros [p|rows]; [apply Hp|].
  apply Ht.
  induction rows as [|row rows IHrows]; constructor; [|exact IHrows].
  induction row as [|cell row IHrow]; constructor; [|exact IHrow].
  induction cell as [|it cell IHcell]; constructor; [apply IH|exact IHcell].
Qed.

Lemma map_fixed {A} (f : A -> A) (c : A -> bool) (l : list A) :
  Forall (fun x => c x = true -> f x = x) l ->
  forallb c l = true -> map f l = l.
Proof.
  induction 1 as [|x l Hx _ IH]; [reflexivity|].
  cbn [forallb map]. intros [Hc Hl]%andb_true_iff.
  now rewrite Hx, IH.
Qed.

Lemma map_first_fixed {A} (f : A -> option A) (c : A -> bool) (l l' : list A) :
  Forall (fun x => c x = true -> forall x', f x = Some x' -> x' = x) l ->
  forallb c l = true -> map_first f l = Some l' -> l' = l.
Proof.
  intros H. revert l'. induction H as [|x l Hx _ IH]; intros l';
    [discriminate|].
  cbn [forallb map_first]. intros [Hc Hl]%andb_true_iff.
  destruct (f x) as [x'|] eqn:Hf.
  - intros [= <-]. now rewrite (Hx Hc x' eq_refl).
  - destruct (map_first f l) as [l0|]; [|discriminate].
    intros [= <-]. now rewrite (IH l0 Hl eq_refl).
Qed.

Lemma forallb_flat_map {A B} (c : B -> bool) (g : A -> list B) (l : list A) :
  forallb c (flat_map g l) = forallb (fun x => forallb c (g x)) l.
Proof.
  induction l as [|x l IH]; [reflexivity|].
  cbn [flat_map forallb]. now rewrite forallb_app, IH.
Qed.

Lemma Forall_of_all {A} (P : A -> Prop) (l : list A) :
  (forall x, P x) -> Forall P l.
Proof. intros H. apply Forall_forall. intros x _. apply H. Qed.

Lemma not_chinese_not_qualifies (p : Paragraph) :
  paragraph_no_chinese p = true -> qualifies p = false.
Proof.
  unfold paragraph_no_chinese, qualifies.
  intros [H _]%andb_true_iff. apply negb_true_iff in H.
  now rewrite H, andb_false_r.
Qed.

Section NoChinese.

Variable TRANSLATOR : str -> option str.
Variable st : DocumentState.

Lemma translate_text_elem_fixed (t : option str) :
  text_elem_no_chinese t = true -> translate_text_elem TRANSLATOR st t = t.
Proof.
  unfold text_elem_no_chinese, translate_text_elem.
  destruct t as [s|]; [|reflexivity]. cbn [default from_option id].
  intros H%negb_true_iff.
  rewrite (translate_text_not_chinese _ _ _ H).
  now destruct (handled (Some s)), (truthy s).
Qed.

Lemma translate_textbox_fixed (textbox : Textbox) :
  textbox_no_chinese textbox = true ->
  translate_textbox TRANSLATOR st textbox = textbox.
Proof.
  unfold textbox_no_chinese, translate_textbox, textbox_texts.
  intros H.
  assert (Hnone : existsb (fun t => handled t && is_chinese (default [] t))
                    (flat_map (fun p => flat_map tr_texts (tp_runs p)) textbox)
                  = false).
  { apply not_true_iff_false. intros (t & Ht & Hc)%existsb_exists.
    rewrite forallb_forall in H. specialize (H t Ht).
    unfold text_elem_no_chinese in H. apply andb_true_iff in Hc as [_ Hc].
    now rewrite Hc in H. }
  rewrite Hnone. rewrite forallb_flat_map in H.
  apply (map_fixed _ (fun p => forallb text_elem_no_chinese
                                 (flat_map tr_texts (tp_runs p)))); [|exact H].
  apply Forall_of_all. intros [line rule jc rs] Hp. cbn in *. f_equal.
  rewrite forallb_flat_map in Hp.
  apply (map_fixed _ (fun r => forallb text_elem_no_chinese (tr_texts r)));
    [|exact Hp].
  apply Forall_of_all. intros [sz ts] Hr. cbn in *. f_equal.
  apply (map_fixed _ text_elem_no_chinese); [|exact Hr].
  apply Forall_of_all. intros t. apply translate_text_elem_fixed.
Qed.

Lemma run_textboxes_no_chinese (p : Paragraph) :
  forallb textbox_no_chinese (paragraph_textboxes p) = true ->
  forallb (fun r => forallb textbox_no_chinese (default [] (r_drawing r)))
          (runs p) = true.
Proof. unfold paragraph_textboxes. now rewrite forallb_flat_map. Qed.

(** The generic pass changes no paragraph without source-language text. *)
Lemma translate_paragraph_textboxes_fixed (p : Paragraph) :
  paragraph_no_chinese p = true ->
  translate_paragraph_textboxes TRANSLATOR st p = p.
Proof.
  unfold paragraph_no_chinese. intros [_ H]%andb_true_iff.
  apply run_textboxes_no_chinese in H.
  unfold translate_paragraph_textboxes. destruct p as [rs al]. cbn in *.
  f_equal.
  apply (map_fixed _ (fun r => forallb textbox_no_chinese
                                 (default [] (r_drawing r)))); [|exact H].
  apply Forall_of_all. intros [t [tbs|] sz ft] Hr; cbn in *; [|reflexivity].
  f_equal. f_equal.
  apply (map_fixed _ textbox_no_chinese); [|exact Hr].
  apply Forall_of_all. intros tb. apply translate_textbox_fixed.
Qed.

Lemma nested_map_fixed (f : CellItem -> CellItem) (rows : Table) :
  Forall (Forall (Forall (fun it => item_no_chinese it = true -> f it = it)))
         rows ->
  forallb (forallb (forallb item_no_chinese)) rows = true ->
  map (map (map f)) rows = rows.
Proof.
  intros H. apply map_fixed.
  eapply Forall_impl; [exact H|]. intros row Hrow. apply map_fixed.
  eapply Forall_impl; [exact Hrow|]. intros cell Hcell. now apply map_fixed.
Qed.

Lemma translate_item_textboxes_fixed (skip : bool) (it : CellItem) :
  item_no_chinese it = true ->
  translate_item_textboxes TRANSLATOR st skip it = it.
Proof.
  revert skip. induction it as [p|rows IH] using CellItem_nested_ind;
    intros skip Hit; cbn [translate_item_textboxes].
  - destruct skip; [reflexivity|].
    now rewrite translate_paragraph_textboxes_fixed.
  - f_equal. apply nested_map_fixed; [|exact Hit].
    eapply Forall_impl; [exact IH|]. intros row Hrow.
    eapply Forall_impl; [exact Hrow|]. intros cell Hcell.
    eapply Forall_impl; [exact Hcell|]. intros x Hx. apply Hx.
Qed.

Lemma translate_table_textboxes_fixed (skip : bool) (table : Table) :
  table_no_chinese table = true ->
  translate_table_textboxes TRANSLATOR st skip table = table.
Proof.
  intros H. unfold translate_table_textboxes. apply nested_map_fixed; [|exact H].
  do 3 (apply Forall_of_all; intros ?). apply translate_item_textboxes_fixed.
Qed.

(** The first textbox of a cell item is left as it was. *)
Lemma run_first_textbox_fixed (r r' : Run) :
  forallb textbox_no_chinese (default [] (r_drawing r)) = true ->
  run_first_textbox (translate_textbox TRANSLATOR st) r = Some r' -> r' = r.
Proof.
  unfold run_first_textbox. destruct r as [t [tbs|] sz ft]; cbn;
    [|discriminate].
  intros Hr. destruct (map_first _ tbs) as [tbs'|] eqn:Htbs; [|discriminate].
  intros [= <-]. f_equal. f_equal.
  apply (map_first_fixed _ textbox_no_chinese _ _) in Htbs; [exact Htbs| |exact Hr].
  apply Forall_of_all. intros tb Htb tb' [= <-].
  now apply translate_textbox_fixed.
Qed.

Lemma paragraph_first_textbox_fixed (p p' : Paragraph) :
  paragraph_no_chinese p = true ->
  paragraph_first_textbox (translate_textbox TRANSLATOR st) p = Some p' ->
  p' = p.
Proof.
  unfold paragraph_no_chinese. intros [_ H]%andb_true_iff.
  apply run_textboxes_no_chinese in H.
  unfold paragraph_first_textbox. destruct p as [rs al]. cbn in *.
  destruct (map_first _ rs) as [rs'|] eqn:Hrs; [|discriminate].
  intros [= <-]. f_equal.
  apply (map_first_fixed _ _ _ _ (Forall_of_all _ _
           (fun r Hr r' => run_first_textbox_fixed r r' Hr)) H Hrs).
Qed.

Lemma nested_map_first_fixed (f : CellItem -> option CellItem)
    (rows rows' : Table) :
  Forall (Forall (Forall (fun it => item_no_chinese it = true ->
                                    forall it', f it = Some it' -> it' = it)))
         rows ->
  forallb (forallb (forallb item_no_chinese)) rows = true ->
  map_first (map_first (map_first f)) rows = Some rows' -> rows' = rows.
Proof.
  intros H.
  apply (map_first_fixed _ (forallb (forallb item_no_chinese))).
  eapply Forall_impl; [exact H|]. intros row Hrow Hc row'.
  apply (map_first_fixed _ (forallb item_no_chinese)); [|exact Hc].
  eapply Forall_impl; [exact Hrow|]. intros cell Hcell Hc' cell'.
  now apply (map_first_fixed _ item_no_chinese).
Qed.

Lemma item_first_textbox_fixed (it : CellItem) :
  item_no_chinese it = true ->
  forall it',
    item_first_textbox (translate_textbox TRANSLATOR st) it = Some it' ->
    it' = it.
Proof.
  induction it as [p|rows IH] using CellItem_nested_ind;
    intros Hit it'; cbn [item_first_textbox].
  - destruct (paragraph_first_textbox _ p) as [p'|] eqn:Hp; [|discriminate].
    intros [= <-]. f_equal. now apply paragraph_first_textbox_fixed.
  - destruct (map_first _ rows) as [rows'|] eqn:Hrows; [|discriminate].
    intros [= <-]. f_equal.
    apply (nested_map_first_fixed _ _ _ IH Hit Hrows).
Qed.

Lemma cell_first_textbox_fixed (cell cell' : Cell) :
  forallb item_no_chinese cell = true ->
  cell_first_textbox (translate_textbox TRANSLATOR st) cell = Some cell' ->
  cell' = cell.
Proof.
  unfold cell_first_textbox. apply (map_first_fixed _ item_no_chinese).
  apply Forall_of_all. intros it Hit it'. now apply item_first_textbox_fixed.
Qed.

Lemma translate_clone_cell_paragraphs_fixed (cell : Cell) :
  forallb item_no_chinese cell = true ->
  translate_clone_cell_paragraphs TRANSLATOR st cell = cell.
Proof.
  unfold translate_clone_cell_paragraphs. apply map_fixed.
  apply Forall_of_all. intros [p|rows] Hit; [|reflexivity].
  unfold translate_clone_paragraph.
  now rewrite (not_chinese_not_qualifies p Hit).
Qed.

Lemma clone_cells_fixed (cells : list Cell) :
  forallb (forallb item_no_chinese) cells = true ->
  (clone_cells TRANSLATOR st cells).2 = cells.
Proof.
  induction cells as [|cell cells IH]; [reflexivity|].
  cbn [forallb clone_cells]. intros [Hcell Hcells]%andb_true_iff.
  rewrite (translate_clone_cell_paragraphs_fixed _ Hcell).
  destruct (cell_first_textbox _ cell) as [cell2|] eqn:Hfirst.
  - cbn. now rewrite (cell_first_textbox_fixed _ _ Hcell Hfirst).
  - specialize (IH Hcells).
    destruct (clone_cells TRANSLATOR st cells) as [returned rest'].
    cbn in *. now rewrite IH.
Qed.

(** The clone of a table without source-language text is the table. *)
Lemma clone_rows_fixed (rows : Table) :
  table_no_chinese rows = true -> (clone_rows TRANSLATOR st rows).2 = rows.
Proof.
  unfold table_no_chinese.
  induction rows as [|row rows IH]; [reflexivity|].
  cbn [forallb clone_rows]. intros [Hrow Hrows]%andb_true_iff.
  pose proof (clone_cells_fixed _ Hrow) as Hcells.
  destruct (clone_cells TRANSLATOR st row) as [returned row'].
  cbn in Hcells. subst row'.
  destruct returned; [reflexivity|].
  specialize (IH Hrows).
  destruct (clone_rows TRANSLATOR st rows) as [returned' rest'].
  cbn in *. now rewrite IH.
Qed.

(** The table pass changes no cell without source-language paragraph. *)
Lemma translate_cell_fixed (body : list Slot) (cell : Cell) :
  forallb item_no_chinese cell = true ->
  translate_cell TRANSLATOR st body cell = (st, body, cell).
Proof.
  intros H. unfold translate_cell.
  rewrite no_qualifying_paragraph; [reflexivity|].
  apply not_true_iff_false. intros (it & Hin & Hq)%existsb_exists.
  rewrite forallb_forall in H. specialize (H it Hin).
  destruct it as [p|rows]; [|discriminate].
  cbn in *. now rewrite (not_chinese_not_qualifies p H) in Hq.
Qed.

Lemma translate_cells_fixed (body : list Slot) (cells : list Cell) :
  forallb (forallb item_no_chinese) cells = true ->
  translate_cells TRANSLATOR st body cells = (st, body, cells).
Proof.
  induction cells as [|cell cells IH]; [reflexivity|].
  cbn [forallb translate_cells]. intros [Hcell Hcells]%andb_true_iff.
  now rewrite translate_cell_fixed, IH.
Qed.

Lemma translate_table_fixed (body : list Slot) (table : Table) :
  table_no_chinese table = true ->
  translate_table TRANSLATOR st body table = (st, body, table).
Proof.
  unfold table_no_chinese.
  induction table as [|row table IH]; [reflexivity|].
  cbn [forallb translate_table]. intros [Hrow Htable]%andb_true_iff.
  now rewrite translate_cells_fixed, IH.
Qed.

End NoChinese.

(** *** FlowchartHandler *)

(** C4 (the source departs from the claim).  Every cell paragraph and every
    textbox of the clone is claimed to be translated.  The [return] of the
    source stands inside the loop over the textboxes of a cell, so the
    function leaves after the first textbox of the first cell that has one.
    For a flowchart whose first cell holds three textboxes in Chinese and
    whose second cell holds a Chinese paragraph, only the first textbox of
    the clone is translated and normalized; the two other textboxes and
    the paragraph of the second cell keep their Chinese text.  After the
    whole pipeline the generic pass has translated the remaining textboxes
    of the clone, and the paragraph of its second cell is still
    untranslated. *)
Theorem clone_stops_after_first_textbox :
  is_flowchart_table chinese_flowchart = true
  /\ (clone_and_translate_flowchart (constant_backend (lit "Step"))
        empty_state 0 chinese_flowchart).2
     = {| tbl := chinese_flowchart;
          inserted_after :=
            [ BPageBreak;
              BTable
                [[ [ CPara (drawing_paragraph
                              [normalized_textbox_of (lit "Step");
                               textbox_of CAREFUL; textbox_of RESULT]) ];
                   [ CPara (plain CAREFUL) ] ]] ] |}
  /\ map inserted_after
       (out_tables
          (translate_document (constant_backend (lit "Step")) empty_state
             {| doc_paragraphs := []; doc_tables := [chinese_flowchart];
                doc_sections := [] |}))
     = [ [ BPageBreak;
           BTable
             [[ [ CPara (drawing_paragraph
                           [normalized_textbox_of (lit "Step");
                            normalized_textbox_of (lit "Step");
                            normalized_textbox_of (lit "Step")]) ];
                [ CPara (plain CAREFUL) ] ]] ] ].
Proof. repeat split; vm_compute; reflexivity. Qed.

Section FlowchartProperties.

Variable TRANSLATOR : str -> option str.

(** The early return in general: once a cell of the clone has a textbox,
    the first textbox of that cell is handled and the cells after it are
    left as they were copied. *)
Lemma clone_cells_returns (st : DocumentState) (cell cell2 : Cell)
    (rest : list Cell) :
  cell_first_textbox (translate_textbox TRANSLATOR st)
    (translate_clone_cell_paragraphs TRANSLATOR st cell) = Some cell2 ->
  clone_cells TRANSLATOR st (cell :: rest) = (true, cell2 :: rest).
Proof. intros H. cbn [clone_cells]. now rewrite H. Qed.

(** The flowchart handler records the table, leaves it as it is and puts a
    page break and then the clone after it. *)
Lemma clone_keeps_original (st : DocumentState) (k : nat) (table : Table) :
  exists clone,
    clone_and_translate_flowchart TRANSLATOR st k table
    = (track_original st k,
       {| tbl := table; inserted_after := [BPageBreak; BTable clone] |}).
Proof. eexists. reflexivity. Qed.

(** In a table of the excluded list the generic pass changes no paragraph
    that is a direct child of a cell: it skips the textboxes whose nearest
    enclosing table is that table. *)
Lemma skipped_table_direct_paragraphs (st : DocumentState) (table : Table) :
  map (map cell_paragraphs) (translate_table_textboxes TRANSLATOR st true table)
  = map (map cell_paragraphs) table.
Proof.
  unfold translate_table_textboxes. rewrite map_map.
  apply map_ext. intros row. rewrite map_map. apply map_ext. intros cell.
  induction cell as [|it cell IH]; [reflexivity|].
  cbn [map cell_paragraphs flat_map]. fold (cell_paragraphs cell).
  fold (cell_paragraphs (map (translate_item_textboxes TRANSLATOR st true) cell)).
  rewrite IH. now destruct it.
Qed.

Lemma translate_paragraph_flowcharts (st : DocumentState) (body : list Slot)
    (paragraph : Slot) (index : option nat) :
  flowchart_original_tables
    (translate_paragraph TRANSLATOR st body paragraph index).1.1
  = flowchart_original_tables st.
Proof.
  unfold translate_paragraph.
  destruct (negb (qualifies (para paragraph))); [reflexivity|].
  destruct (belonging_group _ _ index) as [[g [|]]|]; reflexivity.
Qed.

Lemma translate_cell_items_flowcharts (st : DocumentState) (body : list Slot)
    (cell : Cell) :
  flowchart_original_tables
    (translate_cell_items TRANSLATOR st body cell).1.1
  = flowchart_original_tables st.
Proof.
  revert st body. induction cell as [|it cell IH]; intros st body;
    [reflexivity|].
  cbn [translate_cell_items]. destruct it as [p|rows].
  - destruct (qualifies p).
    + pose proof (translate_paragraph_flowcharts st body (pristine p) None) as H.
      destruct (translate_paragraph TRANSLATOR st body (pristine p) None)
        as [[st' body'] s'].
      specialize (IH st' body').
      destruct (translate_cell_items TRANSLATOR st' body' cell)
        as [[st2 body2] rest'].
      cbn in *. congruence.
    + specialize (IH st body).
      destruct (translate_cell_items TRANSLATOR st body cell)
        as [[st2 body2] rest'].
      exact IH.
  - specialize (IH st body).
    destruct (translate_cell_items TRANSLATOR st body cell)
      as [[st2 body2] rest'].
    exact IH.
Qed.

Lemma translate_cell_flowcharts (st : DocumentState) (body : list Slot)
    (cell : Cell) :
  flowchart_original_tables (translate_cell TRANSLATOR st body cell).1.1
  = flowchart_original_tables st.
Proof.
  unfold translate_cell.
  destruct (filter _ (cell_paragraphs cell)) as [|p ps]; [reflexivity|].
  destruct (_ && _).
  - now destruct (_translate_numbered_table_cell TRANSLATOR st (p :: ps)).
  - apply translate_cell_items_flowcharts.
Qed.

Lemma translate_cells_flowcharts (st : DocumentState) (body : list Slot)
    (cells : list Cell) :
  flowchart_original_tables (translate_cells TRANSLATOR st body cells).1.1
  = flowchart_original_tables st.
Proof.
  revert st body. induction cells as [|cell cells IH]; intros st body;
    [reflexivity|].
  cbn [translate_cells].
  pose proof (translate_cell_flowcharts st body cell) as H.
  destruct (translate_cell TRANSLATOR st body cell) as [[st1 body1] cell'].
  specialize (IH st1 body1).
  destruct (translate_cells TRANSLATOR st1 body1 cells) as [[st2 body2] rest'].
  cbn in *. congruence.
Qed.

Lemma translate_table_flowcharts (st : DocumentState) (body : list Slot)
    (table : Table) :
  flowchart_original_tables (translate_table TRANSLATOR st body table).1.1
  = flowchart_original_tables st.
Proof.
  revert st body. induction table as [|row table IH]; intros st body;
    [reflexivity|].
  cbn [translate_table].
  pose proof (translate_cells_flowcharts st body row) as H.
  destruct (translate_cells TRANSLATOR st body row) as [[st1 body1] row'].
  specialize (IH st1 body1).
  destruct (translate_table TRANSLATOR st1 body1 table) as [[st2 body2] rest'].
  cbn in *. congruence.
Qed.

(** The table loop only adds to the excluded list. *)
Lemma translate_tables_flowcharts_grow (tables : list Table)
    (st : DocumentState) (body : list Slot) (k0 : nat) (x : nat) :
  x ∈ flowchart_original_tables st ->
  x ∈ flowchart_original_tables
        (translate_tables TRANSLATOR st body k0 tables).1.1.
Proof.
  revert st body k0. induction tables as [|table tables IH];
    intros st body k0 Hx; [exact Hx|].
  cbn [translate_tables]. destruct (is_flowchart_table table).
  - cbn [clone_and_translate_flowchart].
    specialize (IH (track_original st k0) body (S k0)).
    destruct (translate_tables TRANSLATOR (track_original st k0) body (S k0)
                tables) as [[st2 body2] rest'].
    cbn in *. apply IH. apply elem_of_app. now left.
  - pose proof (translate_table_flowcharts st body table) as H.
    destruct (translate_table TRANSLATOR st body table) as [[st1 body1] table'].
    specialize (IH st1 body1 (S k0)).
    destruct (translate_tables TRANSLATOR st1 body1 (S k0) tables)
      as [[st2 body2] rest'].
    cbn in *. apply IH. now rewrite H.
Qed.

(** A flowchart of [doc.tables] comes out of the table loop unchanged and
    recorded in the excluded list. *)
Lemma translate_tables_flowchart (tables : list Table) (st : DocumentState)
    (body : list Slot) (k0 k : nat) (table : Table) :
  tables !! k = Some table -> is_flowchart_table table = true ->
  tbl <$> (translate_tables TRANSLATOR st body k0 tables).2 !! k = Some table
  /\ (k0 + k)%nat
     ∈ flowchart_original_tables
         (translate_tables TRANSLATOR st body k0 tables).1.1.
Proof.
  revert st body k0 k. induction tables as [|t tables IH];
    intros st body k0 k Hk Hflow; [discriminate|].
  cbn [translate_tables]. destruct k as [|k].
  - injection Hk as ->. rewrite Hflow. cbn [clone_and_translate_flowchart].
    pose proof (translate_tables_flowcharts_grow tables
                  (track_original st k0) body (S k0) k0) as Hgrow.
    destruct (translate_tables TRANSLATOR (track_original st k0) body (S k0)
                tables) as [[st2 body2] rest'].
    cbn in *. split; [reflexivity|].
    rewrite Nat.add_0_r. apply Hgrow. apply elem_of_app. right.
    apply list_elem_of_here.
  - cbn in Hk.
    replace (k0 + S k)%nat with (S k0 + k)%nat by lia.
    destruct (is_flowchart_table t).
    + cbn [clone_and_translate_flowchart].
      specialize (IH (track_original st k0) body (S k0) k Hk Hflow).
      destruct (translate_tables TRANSLATOR (track_original st k0) body (S k0)
                  tables) as [[st2 body2] rest'].
      exact IH.
    + destruct (translate_table TRANSLATOR st body t) as [[st1 body1] table'].
      specialize (IH st1 body1 (S k0) k Hk Hflow).
      destruct (translate_tables TRANSLATOR st1 body1 (S k0) tables)
        as [[st2 body2] rest'].
      exact IH.
Qed.

(** Through the five passes of [translate_document] (grouping, paragraphs,
    tables, headers and footers, textboxes), the paragraphs that are
    direct children of the cells of an original flowchart table, and so
    the textboxes they hold, come out as they went in. *)
Lemma original_flowchart_direct_paragraphs (st0 : DocumentState)
    (doc : Document) (k : nat) (table : Table) :
  doc_tables doc !! k = Some table -> is_flowchart_table table = true ->
  exists s,
    out_tables (translate_document TRANSLATOR st0 doc) !! k = Some s
    /\ map (map cell_paragraphs) (tbl s) = map (map cell_paragraphs) table.
Proof.
  intros Hk Hflow. unfold translate_document.
  destruct (translate_body TRANSLATOR _ _) as [st2 body2].
  pose proof (translate_tables_flowchart (doc_tables doc) st2 body2 0 k table
                Hk Hflow) as [Hslot Hrec].
  destruct (translate_tables TRANSLATOR st2 body2 0 (doc_tables doc))
    as [[st3 body3] tables3].
  cbn [fst snd Nat.add out_tables] in *.
  destruct (tables3 !! k) as [s|] eqn:Hs; [|discriminate].
  injection Hslot as Htbl.
  eexists. split.
  - rewrite list_lookup_imap, Hs. reflexivity.
  - unfold translate_table_slot_textboxes. cbn [tbl].
    rewrite bool_decide_eq_true_2 by exact Hrec.
    now rewrite skipped_table_direct_paragraphs, Htbl.
Qed.

End FlowchartProperties.

(** C5 (the source departs from the claim).  The textboxes of an original
    flowchart table are claimed never to be translated.  The generic pass
    skips a textbox when its nearest enclosing table is in the excluded
    list; for a textbox in a table nested in a cell of the flowchart that
    table is the nested one, which is never in the list.  Here the
    flowchart holds two textboxes in a cell and a third in a nested table:
    it is counted as a flowchart, recorded and cloned, and the generic pass
    then translates the third textbox inside the original. *)
Theorem nested_flowchart_textbox_translated :
  is_flowchart_table nested_flowchart = true
  /\ flowchart_original_tables
       (out_state (translate_document (constant_backend (lit "Step"))
                     empty_state nested_flowchart_document))
     = [0%nat]
  /\ map tbl
       (out_tables (translate_document (constant_backend (lit "Step"))
                      empty_state nested_flowchart_document))
     = [ [[ [ CPara (drawing_paragraph
                       [textbox_of NOTICE; textbox_of CAREFUL]);
              CTable
                [[ [ CPara (drawing_paragraph
                              [normalized_textbox_of (lit "Step")]) ] ]] ] ]] ].
Proof. repeat split; vm_compute; reflexivity. Qed.

(** *** DocumentTranslator.translate_document *)

Lemma fold_left_fixed {A B} (f : A -> B -> A) (a : A) (l : list B) :
  (forall b, f a b = a) -> fold_left f l a = a.
Proof. intros H. induction l as [|b l IH]; cbn; [reflexivity|]. now rewrite H. Qed.

Lemma imap_fixed {A} (f : nat -> A -> A) (l : list A) :
  (forall i x, x ∈ l -> f i x = x) -> imap f l = l.
Proof.
  revert f. induction l as [|x l IH]; intros f H; [reflexivity|].
  cbn [imap]. rewrite H by apply list_elem_of_here. f_equal.
  apply IH. intros i y Hy. apply H. now apply list_elem_of_further.
Qed.

Lemma record_paragraphs_no_chinese (st : DocumentState) (i : nat)
    (ps : list Paragraph) :
  forallb paragraph_no_chinese ps = true -> record_paragraphs st i ps = st.
Proof.
  revert i. induction ps as [|p ps IH]; intros i; [reflexivity|].
  cbn [forallb record_paragraphs]. intros [Hp Hps]%andb_true_iff.
  rewrite (not_chinese_not_qualifies p Hp). now apply IH.
Qed.

Section PipelineProperties.

Variable TRANSLATOR : str -> option str.

Lemma translate_body_paragraph_no_chinese (st : DocumentState)
    (body : list Slot) (i : nat) :
  Forall (fun s => qualifies (para s) = false) body ->
  translate_body_paragraph TRANSLATOR st body i = (st, body).
Proof.
  intros H. unfold translate_body_paragraph.
  destruct (body !! i) as [s|] eqn:Hs; [|reflexivity].
  destruct (truthy (strip (text (para s)))); [|reflexivity].
  unfold translate_paragraph.
  rewrite Forall_forall in H.
  rewrite (H s) by (eapply list_elem_of_lookup_2; eauto). cbn [negb].
  now rewrite list_insert_id.
Qed.

Lemma translate_body_no_chinese (st : DocumentState) (ps : list Paragraph) :
  forallb paragraph_no_chinese ps = true ->
  translate_body TRANSLATOR st (map pristine ps) = (st, map pristine ps).
Proof.
  intros H. unfold translate_body. apply fold_left_fixed. intros i.
  cbn [fst snd]. apply translate_body_paragraph_no_chinese.
  apply Forall_forall. intros s (p & -> & Hp)%elem_of_map.
  rewrite forallb_forall in H. apply not_chinese_not_qualifies, H.
  now apply list_elem_of_In.
Qed.

Lemma translate_tables_no_chinese (tables : list Table) (st : DocumentState)
    (body : list Slot) (k : nat) :
  forallb table_no_chinese tables = true ->
  exists st',
    translate_tables TRANSLATOR st body k tables
    = (st', body, map untranslated_table_slot tables).
Proof.
  revert st k. induction tables as [|table tables IH]; intros st k.
  - intros _. now exists st.
  - cbn [forallb translate_tables map].
    intros [Htable Htables]%andb_true_iff.
    unfold untranslated_table_slot at 1.
    destruct (is_flowchart_table table).
    + unfold clone_and_translate_flowchart.
      rewrite (clone_rows_fixed _ _ _ Htable).
      destruct (IH (track_original st k) (S k) Htables) as [st' ->].
      now exists st'.
    + rewrite (translate_table_fixed _ _ _ _ Htable).
      destruct (IH st (S k) Htables) as [st' ->].
      now exists st'.
Qed.

Lemma translate_hf_cell_no_chinese (st : DocumentState)
    (processed : gset (list N)) (cell : Cell) :
  forallb item_no_chinese cell = true ->
  translate_hf_cell TRANSLATOR st processed cell = (processed, cell).
Proof.
  revert processed. induction cell as [|it cell IH]; intros processed;
    [reflexivity|].
  cbn [forallb translate_hf_cell]. intros [Hit Hcell]%andb_true_iff.
  destruct it as [p|rows]; [|now rewrite (IH _ Hcell)].
  cbn in Hit. unfold paragraph_no_chinese in Hit.
  apply andb_true_iff in Hit as [Hp _]. apply negb_true_iff in Hp.
  rewrite is_chinese_strip, Hp, andb_false_r.
  now rewrite (IH _ Hcell).
Qed.

Lemma translate_hf_cells_no_chinese (st : DocumentState)
    (processed : gset (list N)) (cells : list Cell) :
  forallb (forallb item_no_chinese) cells = true ->
  translate_hf_cells TRANSLATOR st processed cells = (processed, cells).
Proof.
  induction cells as [|cell cells IH]; [reflexivity|].
  cbn [forallb translate_hf_cells]. intros [Hcell Hcells]%andb_true_iff.
  now rewrite translate_hf_cell_no_chinese, IH.
Qed.

Lemma translate_hf_rows_no_chinese (st : DocumentState)
    (processed : gset (list N)) (rows : Table) :
  table_no_chinese rows = true ->
  translate_hf_rows TRANSLATOR st processed rows = (processed, rows).
Proof.
  unfold table_no_chinese. induction rows as [|row rows IH]; [reflexivity|].
  cbn [forallb translate_hf_rows]. intros [Hrow Hrows]%andb_true_iff.
  now rewrite translate_hf_cells_no_chinese, IH.
Qed.

Lemma translate_hf_no_chinese (st : DocumentState) (hf : HeaderFooter) :
  hf_no_chinese hf = true -> translate_hf TRANSLATOR st hf = hf.
Proof.
  unfold hf_no_chinese, translate_hf.
  destruct hf as [linked ps ts]. cbn. intros [Hps Hts]%andb_true_iff.
  destruct linked; [reflexivity|]. f_equal.
  - clear Hts. induction ps as [|p ps IH]; [reflexivity|].
    cbn [forallb flat_map] in *. apply andb_true_iff in Hps as [Hp Hps].
    unfold translate_hf_paragraph at 1.
    rewrite (not_chinese_not_qualifies p Hp). cbn [app]. now rewrite IH.
  - apply (map_fixed _ table_no_chinese); [|exact Hts].
    apply Forall_of_all. intros t Ht.
    now rewrite translate_hf_rows_no_chinese.
Qed.

Lemma translate_header_footer_no_chinese (st : DocumentState)
    (sections : list (list HeaderFooter)) :
  forallb (forallb hf_no_chinese) sections = true ->
  translate_header_footer TRANSLATOR st sections = sections.
Proof.
  unfold translate_header_footer.
  apply (map_fixed _ (forallb hf_no_chinese)).
  apply Forall_of_all. intros parts.
  apply (map_fixed _ hf_no_chinese).
  apply Forall_of_all. intros hf. apply translate_hf_no_chinese.
Qed.

(** C6, as the source has it.  For a document without any source-language
    character the passes insert no sibling paragraph: the body paragraphs,
    the cells of the tables, the headers and the footers come out as they
    went in.  Every table with at least three textboxes is still cloned,
    whatever its language: it is followed by a page break and a copy of
    itself.  The other tables are followed by nothing. *)
Theorem no_chinese_document_untouched (st0 : DocumentState) (doc : Document) :
  document_no_chinese doc = true ->
  out_paragraphs (translate_document TRANSLATOR st0 doc)
  = map pristine (doc_paragraphs doc)
  /\ out_tables (translate_document TRANSLATOR st0 doc)
     = map untranslated_table_slot (doc_tables doc)
  /\ out_sections (translate_document TRANSLATOR st0 doc) = doc_sections doc.
Proof.
  unfold document_no_chinese.
  intros [[Hps Hts]%andb_true_iff Hsec]%andb_true_iff.
  unfold translate_document, grouping_pass.
  rewrite (record_paragraphs_no_chinese _ _ _ Hps).
  change (finalize_groups (reset st0)) with (reset st0).
  rewrite (translate_body_no_chinese _ _ Hps).
  destruct (translate_tables_no_chinese (doc_tables doc) (reset st0)
              (map pristine (doc_paragraphs doc)) 0 Hts) as [st3 ->].
  cbn [out_paragraphs out_tables out_sections]. repeat split.
  - rewrite map_map. apply map_ext_in. intros p Hp.
    unfold translate_slot_textboxes, pristine. cbn. f_equal.
    apply translate_paragraph_textboxes_fixed.
    rewrite forallb_forall in Hps. now apply Hps.
  - apply imap_fixed. intros k s (t & -> & Ht)%elem_of_map.
    rewrite forallb_forall in Hts.
    assert (Htable : table_no_chinese t = true)
      by (now apply Hts, list_elem_of_In).
    unfold translate_table_slot_textboxes, untranslated_table_slot.
    cbn [tbl inserted_after].
    rewrite translate_table_textboxes_fixed by exact Htable. f_equal.
    destruct (is_flowchart_table t); [|reflexivity].
    cbn [map translate_block_textboxes].
    now rewrite translate_table_textboxes_fixed.
  - now apply translate_header_footer_no_chinese.
Qed.

End PipelineProperties.

Lemma no_chinese_document_witness :
  out_paragraphs
    (translate_document failing_backend empty_state english_flowchart_document)
  = map pristine (doc_paragraphs english_flowchart_document)
  /\ out_tables
       (translate_document failing_backend empty_state
          english_flowchart_document)
     = map untranslated_table_slot (doc_tables english_flowchart_document)
  /\ out_sections
       (translate_document failing_backend empty_state
          english_flowchart_document)
     = doc_sections english_flowchart_document.
Proof.
  apply (no_chinese_document_untouched failing_backend empty_state
           english_flowchart_document).
  reflexivity.
Defined.

(** C6 as stated fails: a document without any source-language character
    whose table holds three textboxes gets that table cloned. *)
Lemma english_flowchart_is_cloned :
  document_no_chinese english_flowchart_document = true
  /\ map inserted_after
       (out_tables
          (translate_document (constant_backend (lit "unused")) empty_state
             english_flowchart_document))
     = [[BPageBreak; BTable english_flowchart]].
Proof. split; vm_compute; reflexivity. Qed.

(** *** WordDocumentHelper, again *)

Lemma drawing_runs_cleared (p : Paragraph) :
  drawing_runs (clear_paragraph_text_keep_images p) = drawing_runs p.
Proof.
  unfold drawing_runs, clear_paragraph_text_keep_images. cbn [runs].
  induction (runs p) as [|r rs IH]; [reflexivity|].
  cbn [map List.filter]. destruct (has_picture r) eqn:E; cbn [negb].
  - now rewrite E, IH.
  - cbn [has_picture set_run_text r_drawing]. exact IH.
Qed.

Lemma existsb_has_picture_cleared (p : Paragraph) :
  existsb has_picture (runs (clear_paragraph_text_keep_images p))
  = existsb has_picture (runs p).
Proof.
  unfold clear_paragraph_text_keep_images. cbn [runs].
  induction (runs p) as [|r rs IH]; [reflexivity|].
  cbn [map existsb]. rewrite IH.
  destruct (has_picture r) eqn:E; cbn [negb]; [now rewrite E|reflexivity].
Qed.

(** Clearing a paragraph keeps its runs in number, keeps the runs that
    hold a drawing as they are and in order, empties the text of every
    other run, and clearing twice is clearing once. *)
Theorem clear_paragraph_keeps_drawings (p : Paragraph) :
  drawing_runs (clear_paragraph_text_keep_images p) = drawing_runs p
  /\ length (runs (clear_paragraph_text_keep_images p)) = length (runs p)
  /\ Forall (fun r => has_picture r = false -> r_text r = [])
            (runs (clear_paragraph_text_keep_images p))
  /\ clear_paragraph_text_keep_images (clear_paragraph_text_keep_images p)
     = clear_paragraph_text_keep_images p.
Proof.
  split; [apply drawing_runs_cleared|].
  split; [unfold clear_paragraph_text_keep_images; cbn [runs];
          apply length_map|].
  split; [|apply clear_paragraph_idem].
  unfold clear_paragraph_text_keep_images. cbn [runs].
  apply Forall_forall. intros r (r0 & -> & _)%elem_of_map.
  destruct (has_picture r0) eqn:E; cbn [negb]; [congruence|reflexivity].
Qed.

(** Setting the font size of a paragraph changes neither its text, nor
    its drawings, nor its alignment, and a run whose text is blank keeps
    its size. *)
Theorem set_paragraph_font_size_frame (p : Paragraph) (size : N)
    (target_chinese : bool) :
  text (set_paragraph_font_size p size target_chinese) = text p
  /\ map r_drawing (runs (set_paragraph_font_size p size target_chinese))
     = map r_drawing (runs p)
  /\ alignment (set_paragraph_font_size p size target_chinese) = alignment p
  /\ Forall2 (fun r r' => truthy (strip (r_text r)) = false -> r' = r)
       (runs p) (runs (set_paragraph_font_size p size target_chinese)).
Proof.
  unfold set_paragraph_font_size.
  assert (Hsame : Forall2 (fun r r' : Run =>
                             truthy (strip (r_text r)) = false -> r' = r)
                    (runs p) (runs p)).
  { apply Forall2_same_length_lookup. split; [reflexivity|].
    intros i r r' H1 H2 _. congruence. }
  destruct (runs p) as [|r0 rs] eqn:Hruns; [now rewrite Hruns|].
  destruct (negb _); [now rewrite Hruns|].
  rewrite <- Hruns. clear Hruns Hsame r0 rs. unfold text. cbn [runs alignment].
  repeat split.
  - induction (runs p) as [|r rs IH]; [reflexivity|].
    cbn [map flat_map]. rewrite IH. now destruct (negb _).
  - induction (runs p) as [|r rs IH]; [reflexivity|].
    cbn [map]. rewrite IH. now destruct (negb _).
  - induction (runs p) as [|r rs IH]; [constructor|].
    cbn [map]. constructor; [|exact IH].
    intros Hblank. now rewrite Hblank.
Qed.

(** *** DocumentFormatter.remove_empty_paragraphs *)

Lemma is_removed_cleared (p : Paragraph) :
  is_removed (clear_paragraph_text_keep_images p)
  = negb (existsb has_picture (runs p)).
Proof.
  unfold is_removed. rewrite existsb_has_picture_cleared.
  destruct (existsb has_picture (runs p)) eqn:E;
    [now rewrite andb_false_r|].
  rewrite text_cleared; [reflexivity|].
  apply Forall_forall. intros r Hr Hpic. exfalso.
  apply not_true_iff_false in E. apply E. apply existsb_exists.
  exists r. split; [now apply list_elem_of_In|exact Hpic].
Qed.

(** The cleaning pass after the translation: a paragraph that was cleared
    as a later member of a group is removed, unless it holds a picture;
    no paragraph with a picture or with text is ever removed; the pass
    keeps the order and does nothing more when run again. *)
Theorem remove_empty_paragraphs_after_clearing (p : Paragraph)
    (ps : list Paragraph) :
  remove_empty_paragraphs [clear_paragraph_text_keep_images p]
  = (if existsb has_picture (runs p)
     then [clear_paragraph_text_keep_images p] else [])
  /\ sublist (remove_empty_paragraphs ps) ps
  /\ (forall q, q ∈ ps ->
        truthy (strip (text q)) || existsb has_picture (runs q) = true ->
        q ∈ remove_empty_paragraphs ps)
  /\ remove_empty_paragraphs (remove_empty_paragraphs ps)
     = remove_empty_paragraphs ps.
Proof.
  unfold remove_empty_paragraphs. repeat split.
  - rewrite filter_cons, filter_nil. rewrite is_removed_cleared.
    now destruct (existsb has_picture (runs p)).
  - apply sublist_filter.
  - intros q Hq Hkeep. apply list_elem_of_filter. split; [|exact Hq].
    unfold is_removed.
    destruct (truthy (strip (text q))), (existsb has_picture (runs q));
      try reflexivity. discriminate Hkeep.
  - apply list_filter_filter_l. auto.
Qed.

(** *** TranslationEngine._check_pcb_terms *)

Lemma pcb_entry_matches_spec (traditional text : str) :
  pcb_entry_matches traditional text = true <->
  traditional = text
  \/ exists item,
       item ∈ split_on (fun c => (c =? 0xFF0C) || (c =? 0x2C)) traditional
       /\ strip item = text.
Proof.
  unfold pcb_entry_matches, str_eqb.
  rewrite orb_true_iff, bool_decide_eq_true, existsb_exists.
  split; (intros [H | (item & Hin & Hitem)]; [now left|right]).
  - exists item. rewrite bool_decide_eq_true in Hitem.
    split; [now apply list_elem_of_In|exact Hitem].
  - exists item. rewrite bool_decide_eq_true.
    split; [now apply list_elem_of_In|exact Hitem].
Qed.

(** The dictionary lookup returns the key of the first entry that is a
    dictionary whose ['traditional'] text, or one of its comma-separated
    items once trimmed, is the text asked for; entries before it do not
    match or are not dictionaries.  It returns nothing exactly when no
    entry matches. *)
Theorem _check_pcb_terms_first_match (st : DocumentState) (text : str) :
  match _check_pcb_terms st text with
  | Some english_key =>
      exists before traditional after,
        pcb_terms_dict st
        = before ++ (english_key, TermDict traditional) :: after
        /\ pcb_entry_matches (default [] traditional) text = true
        /\ Forall (fun entry =>
                     match entry.2 with
                     | NotADict => True
                     | TermDict t =>
                         pcb_entry_matches (default [] t) text = false
                     end) before
  | None =>
      Forall (fun entry =>
                match entry.2 with
                | NotADict => True
                | TermDict t => pcb_entry_matches (default [] t) text = false
                end) (pcb_terms_dict st)
  end.
Proof.
  unfold _check_pcb_terms.
  induction (pcb_terms_dict st) as [|[key data] items IH];
    cbn [_check_pcb_terms_items]; [constructor|].
  destruct data as [|traditional].
  - destruct (_check_pcb_terms_items items text) as [k|].
    + destruct IH as (before & t & after & -> & Hm & Hb).
      exists ((key, NotADict) :: before), t, after.
      repeat split; [exact Hm|]. constructor; [exact I|exact Hb].
    + constructor; [exact I|exact IH].
  - destruct (pcb_entry_matches (default [] traditional) text) eqn:E.
    + exists [], traditional, items. repeat split; [exact E|constructor].
    + destruct (_check_pcb_terms_items items text) as [k|].
      * destruct IH as (before & t & after & -> & Hm & Hb).
        exists ((key, TermDict traditional) :: before), t, after.
        repeat split; [exact Hm|]. constructor; [exact E|exact Hb].
      * constructor; [exact E|exact IH].
Qed.

(** *** BilingualTranslator._translate_numbered_table_cell, again *)

Lemma labelled_lines_tails (numbers parts : list str) :
  Forall2 (fun line part => exists label, line = label ++ part)
          (labelled_lines numbers parts) parts.
Proof.
  revert numbers. induction parts as [|part parts IH]; intros numbers;
    [constructor|].
  cbn [labelled_lines]. destruct numbers as [|num numbers].
  - constructor; [now exists []|].
    apply Forall2_same_length_lookup. split; [reflexivity|].
    intros i x y H1 H2. exists []. cbn. congruence.
  - constructor; [|apply IH].
    destruct (truthy num); [|now exists []].
    exists (num ++ [DOT]). now rewrite <- app_assoc.
Qed.

(** Whatever the numbers of items and of translated segments, the lines
    built for a numbered cell are the segments, each once and in order,
    each behind a label or none: a mismatch loses numbers, never a
    segment. *)
Theorem english_lines_keep_segments (all_numbers translated_parts : list str) :
  Forall2 (fun line part => exists label, line = label ++ part)
    (number_lines 0 all_numbers translated_parts
     ++ (if (length all_numbers <? length translated_parts)%nat
         then drop (length all_numbers) translated_parts else []))
    translated_parts.
Proof. rewrite english_lines_labelled. apply labelled_lines_tails. Qed.

(** *** BilingualTranslator.translate_paragraph and translate_table *)

Lemma drawing_runs_add_run (p : Paragraph) (t : str) :
  drawing_runs (add_run p t) = drawing_runs p.
Proof.
  unfold drawing_runs, add_run. cbn [runs].
  rewrite List.filter_app. cbn. apply app_nil_r.
Qed.

Lemma drawing_runs_none (p : Paragraph) :
  existsb has_picture (runs p) = false -> drawing_runs p = [].
Proof.
  unfold drawing_runs. induction (runs p) as [|r rs IH]; [reflexivity|].
  cbn [existsb List.filter]. intros [-> H]%orb_false_iff. now apply IH.
Qed.

Lemma drawing_runs_clear_all (p : Paragraph) :
  drawing_runs (clear_all_runs p) = [].
Proof.
  unfold drawing_runs, clear_all_runs. cbn [runs].
  induction (runs p) as [|r rs IH]; [reflexivity|exact IH].
Qed.

Lemma drawing_runs_rewritten (p : Paragraph) (t u : str) :
  drawing_runs
    (if existsb has_picture (runs p)
     then add_run (clear_paragraph_text_keep_images p) t
     else add_run (clear_all_runs p) u)
  = drawing_runs p.
Proof.
  destruct (existsb has_picture (runs p)) eqn:E;
    rewrite drawing_runs_add_run.
  - apply drawing_runs_cleared.
  - now rewrite drawing_runs_clear_all, drawing_runs_none.
Qed.

Lemma drawing_runs_english (p : Paragraph) (t : str) size font al :
  drawing_runs (english_paragraph p t size font al) = [].
Proof. reflexivity. Qed.

Lemma matching_item_no_index (items : list Item) :
  matching_item items None = None.
Proof.
  unfold matching_item. induction items as [|it items IH]; [reflexivity|].
  cbn [List.find]. now rewrite bool_decide_eq_false_2.
Qed.

Lemma belonging_group_no_index (gs : list Group) (T : gset nat) :
  belonging_group gs T None = None.
Proof.
  induction gs as [|g gs IH]; [reflexivity|].
  cbn [belonging_group]. rewrite matching_item_no_index, IH.
  now destruct (bool_decide _).
Qed.

Lemma kept_or_cleared_members (items : list Item) (body : list Slot) :
  Forall2 kept_or_cleared body
    (fold_left (fun b item => alter clear_slot (para_index item) b)
               items body).
Proof.
  apply Forall2_same_length_lookup. split.
  - now rewrite length_clear_members.
  - intros j s s' Hs. rewrite lookup_clear_members, Hs.
    destruct (bool_decide _); intros [= <-]; split; auto.
Qed.

Section ParagraphFrame.

Variable TRANSLATOR : str -> option str.

(** What [_translate_regular_paragraph] does to a paragraph object. *)
Lemma regular_paragraph_frame (st : DocumentState) (s : Slot) :
  drawing_runs (para (_translate_regular_paragraph TRANSLATOR st s))
  = drawing_runs (para s)
  /\ exists new,
       after (_translate_regular_paragraph TRANSLATOR st s) = new ++ after s
       /\ (length new <= 1)%nat
       /\ Forall (fun q => drawing_runs q = []) new.
Proof.
  unfold _translate_regular_paragraph.
  destruct (check_colon_format (strip (text (para s))))
    as [[[has_colon has_content] colon_part] content].
  destruct (has_colon && negb has_content).
  - unfold _translate_colon_no_content. cbn [para after]. split.
    + apply drawing_runs_rewritten.
    + exists []. repeat split; [cbn; lia|constructor].
  - assert (H : forall t,
               drawing_runs (para (add_english_below s t None None None))
               = drawing_runs (para s)
               /\ exists new,
                    after (add_english_below s t None None None)
                    = new ++ after s
                    /\ (length new <= 1)%nat
                    /\ Forall (fun q => drawing_runs q = []) new).
    { intros t. split; [reflexivity|].
      exists [english_paragraph (para s) t None None None].
      repeat split; [cbn; lia|]. now constructor. }
    destruct (has_colon && has_content); apply H.
Qed.

(** Whatever the paragraph, the state and the index, one call of
    [translate_paragraph] keeps the drawing runs of the paragraph, adds at
    most one sibling, without drawing, before the siblings inserted
    earlier, keeps the number of body paragraphs, leaves each of them as
    it is or cleared with its siblings, keeps the groups and never
    unmarks a group. *)
Theorem translate_paragraph_frame (st : DocumentState) (body : list Slot)
    (paragraph : Slot) (index : option nat) :
  match translate_paragraph TRANSLATOR st body paragraph index with
  | (st', body', s') =>
      drawing_runs (para s') = drawing_runs (para paragraph)
      /\ (exists new,
            after s' = new ++ after paragraph
            /\ (length new <= 1)%nat
            /\ Forall (fun q => drawing_runs q = []) new)
      /\ Forall2 kept_or_cleared body body'
      /\ continuous_abnormal_groups st' = continuous_abnormal_groups st
      /\ translated_group_ids st ⊆ translated_group_ids st'
  end.
Proof.
  assert (Hbody : Forall2 kept_or_cleared body body).
  { apply Forall2_same_length_lookup. split; [reflexivity|].
    intros j s s' H1 H2. assert (s' = s) as -> by congruence.
    split; auto. }
  assert (Hsame : drawing_runs (para paragraph) = drawing_runs (para paragraph)
                  /\ (exists new,
                        after paragraph = new ++ after paragraph
                        /\ (length new <= 1)%nat
                        /\ Forall (fun q => drawing_runs q = []) new)
                  /\ Forall2 kept_or_cleared body body
                  /\ continuous_abnormal_groups st
                     = continuous_abnormal_groups st
                  /\ translated_group_ids st ⊆ translated_group_ids st).
  { split; [reflexivity|]. split; [|split; [exact Hbody|split; reflexivity]].
    exists []. repeat split; [cbn; lia|constructor]. }
  unfold translate_paragraph.
  destruct (negb (qualifies (para paragraph))); [exact Hsame|].
  destruct (belonging_group _ _ index) as [[group [|]]|]; [| exact Hsame |].
  - unfold _translate_grouped_paragraphs. cbn [para after add_english_below].
    split; [apply drawing_runs_rewritten|].
    split; [|split; [apply kept_or_cleared_members|split; [reflexivity|]]].
    + eexists [_]. repeat split; [cbn; lia|]. now constructor.
    + cbn [mark_translated translated_group_ids]. apply union_subseteq_r.
  - destruct (regular_paragraph_frame st paragraph) as [Hd Hnew].
    split; [exact Hd|]. split; [exact Hnew|].
    split; [exact Hbody|split; reflexivity].
Qed.

(** A paragraph translated without an index, as those of the table cells
    are, is never taken for a member of a group. *)
Lemma translate_paragraph_no_index (st : DocumentState) (body : list Slot)
    (s : Slot) :
  translate_paragraph TRANSLATOR st body s None
  = (st, body,
     if qualifies (para s) then _translate_regular_paragraph TRANSLATOR st s
     else s).
Proof.
  unfold translate_paragraph. rewrite belonging_group_no_index.
  now destruct (qualifies (para s)).
Qed.

Lemma translate_cell_items_spec (st : DocumentState) (body : list Slot)
    (cell : Cell) :
  translate_cell_items TRANSLATOR st body cell
  = (st, body, flat_map (translated_item TRANSLATOR st) cell).
Proof.
  induction cell as [|it cell IH]; [reflexivity|].
  cbn [translate_cell_items flat_map].
  destruct it as [p|rows]; cbn [translated_item].
  - destruct (qualifies p) eqn:Hq.
    + rewrite translate_paragraph_no_index. cbn [pristine para]. rewrite Hq.
      now rewrite IH.
    + now rewrite IH.
  - now rewrite IH.
Qed.

End ParagraphFrame.

Lemma cell_tables_app (c1 c2 : Cell) :
  cell_tables (c1 ++ c2) = cell_tables c1 ++ cell_tables c2.
Proof. apply flat_map_app. Qed.

Lemma cell_drawings_app (c1 c2 : Cell) :
  cell_drawings (c1 ++ c2) = cell_drawings c1 ++ cell_drawings c2.
Proof.
  unfold cell_drawings. rewrite cell_paragraphs_app. apply flat_map_app.
Qed.

Lemma cell_tables_paragraphs (ps : list Paragraph) :
  cell_tables (map CPara ps) = [].
Proof. induction ps as [|p ps IH]; [reflexivity|exact IH]. Qed.

Lemma cell_paragraphs_paragraphs (ps : list Paragraph) :
  cell_paragraphs (map CPara ps) = ps.
Proof.
  induction ps as [|p ps IH]; [reflexivity|].
  cbn [map cell_paragraphs flat_map app]. fold (cell_paragraphs (map CPara ps)).
  now rewrite IH.
Qed.

Lemma cell_drawings_paragraphs (ps : list Paragraph) :
  Forall (fun q => drawing_runs q = []) ps -> cell_drawings (map CPara ps) = [].
Proof.
  unfold cell_drawings. rewrite cell_paragraphs_paragraphs.
  induction 1 as [|p ps Hp _ IH]; [reflexivity|].
  cbn [flat_map]. now rewrite Hp, IH.
Qed.

Lemma insert_below_last_frame (cell : Cell) (new : list Paragraph) :
  Forall (fun q => drawing_runs q = []) new ->
  cell_tables (insert_below_last cell new) = cell_tables cell
  /\ cell_drawings (insert_below_last cell new) = cell_drawings cell.
Proof.
  intros Hnew. induction cell as [|it cell [IHt IHd]]; [now split|].
  cbn [insert_below_last].
  destruct (existsb item_qualifies cell).
  - change (it :: insert_below_last cell new)
      with ([it] ++ insert_below_last cell new).
    change (it :: cell) with ([it] ++ cell).
    now rewrite !cell_tables_app, !cell_drawings_app, IHt, IHd.
  - destruct (item_qualifies it); [|now split].
    change (it :: map CPara new ++ cell)
      with ([it] ++ map CPara new ++ cell).
    change (it :: cell) with ([it] ++ cell).
    rewrite !cell_tables_app, !cell_drawings_app.
    now rewrite cell_tables_paragraphs, cell_drawings_paragraphs.
Qed.

Section TableFrame.

Variable TRANSLATOR : str -> option str.

Lemma translated_item_frame (st : DocumentState) (it : CellItem) :
  cell_tables (translated_item TRANSLATOR st it) = cell_tables [it]
  /\ cell_drawings (translated_item TRANSLATOR st it) = cell_drawings [it].
Proof.
  destruct it as [p|rows]; cbn [translated_item]; [|now split].
  destruct (qualifies p); [|now split].
  split; [apply cell_tables_paragraphs|].
  destruct (regular_paragraph_frame TRANSLATOR st (pristine p))
    as (Hd & new & Hafter & _ & Hnew).
  cbn [pristine para after] in Hd, Hafter. rewrite app_nil_r in Hafter.
  unfold cell_drawings. rewrite cell_paragraphs_paragraphs.
  cbn [cell_paragraphs flat_map app]. rewrite Hd, Hafter, !app_nil_r.
  rewrite <- (app_nil_r (drawing_runs p)) at 2. f_equal.
  clear -Hnew. induction Hnew as [|q qs Hq _ IH]; [reflexivity|].
  cbn [flat_map]. now rewrite Hq, IH.
Qed.

Lemma translate_cell_frame (st : DocumentState) (body : list Slot)
    (cell : Cell) :
  match translate_cell TRANSLATOR st body cell with
  | (st', body', cell') =>
      st' = st /\ body' = body
      /\ cell_tables cell' = cell_tables cell
      /\ cell_drawings cell' = cell_drawings cell
  end.
Proof.
  unfold translate_cell.
  destruct (filter _ (cell_paragraphs cell)) as [|p0 ps] eqn:Hps;
    [now repeat split|].
  destruct (_ && _).
  - unfold _translate_numbered_table_cell.
    destruct (last (p0 :: ps)) as [last_para|]; cbn [fmap option_fmap option_map];
      [|now repeat split].
    cbn [add_english_below after pristine].
    split; [reflexivity|]. split; [reflexivity|].
    apply insert_below_last_frame. now constructor.
  - rewrite translate_cell_items_spec.
    split; [reflexivity|]. split; [reflexivity|].
    clear Hps. induction cell as [|it cell [IHt IHd]]; [now split|].
    cbn [flat_map]. change (it :: cell) with ([it] ++ cell).
    rewrite !cell_tables_app, !cell_drawings_app, IHt, IHd.
    destruct (translated_item_frame st it) as [-> ->]. now split.
Qed.

Lemma translate_cells_frame (st : DocumentState) (body : list Slot)
    (cells : list Cell) :
  match translate_cells TRANSLATOR st body cells with
  | (st', body', cells') =>
      st' = st /\ body' = body
      /\ map cell_tables cells' = map cell_tables cells
      /\ map cell_drawings cells' = map cell_drawings cells
  end.
Proof.
  induction cells as [|cell cells IH]; [now repeat split|].
  cbn [translate_cells].
  pose proof (translate_cell_frame st body cell) as Hc.
  destruct (translate_cell TRANSLATOR st body cell) as [[st1 body1] cell'].
  destruct Hc as (-> & -> & Ht & Hd).
  destruct (translate_cells TRANSLATOR st body cells) as [[st2 body2] cells'].
  destruct IH as (-> & -> & IHt & IHd).
  cbn [map]. now rewrite Ht, Hd, IHt, IHd.
Qed.

Lemma translate_table_unchanged (st : DocumentState) (body : list Slot)
    (table : Table) :
  match translate_table TRANSLATOR st body table with
  | (st', body', table') =>
      st' = st /\ body' = body
      /\ map (map cell_tables) table' = map (map cell_tables) table
      /\ map (map cell_drawings) table' = map (map cell_drawings) table
  end.
Proof.
  induction table as [|row table IH]; [now repeat split|].
  cbn [translate_table].
  pose proof (translate_cells_frame st body row) as Hr.
  destruct (translate_cells TRANSLATOR st body row) as [[st1 body1] row'].
  destruct Hr as (-> & -> & Ht & Hd).
  destruct (translate_table TRANSLATOR st body table) as [[st2 body2] table'].
  destruct IH as (-> & -> & IHt & IHd).
  cbn [map]. now rewrite Ht, Hd, IHt, IHd.
Qed.

(** Translating a table changes neither the state nor any body paragraph;
    it keeps the rows and the cells in number, leaves every nested table
    as it is -- the paragraphs of a nested table are never translated --
    and keeps the drawing runs of the cell paragraphs, in order. *)
Theorem translate_table_frame (st : DocumentState) (body : list Slot)
    (table : Table) :
  match translate_table TRANSLATOR st body table with
  | (st', body', table') =>
      st' = st /\ body' = body
      /\ map length table' = map length table
      /\ map (map cell_tables) table' = map (map cell_tables) table
      /\ map (map cell_drawings) table' = map (map cell_drawings) table
  end.
Proof.
  pose proof (translate_table_unchanged st body table) as H.
  destruct (translate_table TRANSLATOR st body table) as [[st' body'] table'].
  destruct H as (Hst & Hbody & Ht & Hd).
  split; [exact Hst|]. split; [exact Hbody|]. split; [|now split].
  apply (f_equal (map (@length _))) in Ht. rewrite !map_map in Ht.
  erewrite map_ext in Ht; [|intros row; apply length_map].
  symmetry in Ht.
  erewrite map_ext in Ht; [|intros row; apply length_map].
  now symmetry.
Qed.

End TableFrame.

(** *** The paragraph loop *)

Section BodyLoop.

Variable TRANSLATOR : str -> option str.

(** A source-language paragraph outside the groups that is not a label
    before a colon is kept as it is, and gets one sibling right below it,
    the paragraph [add_english_below] builds.  Its text is one space for
    each leading whitespace character of the original, then the
    translation of the content: the trimmed text without its numbering
    prefix and the run of separators after it, so that the content starts
    with no separator; without prefix the content is the whole trimmed
    text.  The prefix is not put back before the translation. *)
Theorem regular_paragraph_bilingual (st : DocumentState) (body : list Slot)
    (paragraph : Slot) (index : option nat) (ws core ws' : str) :
  qualifies (para paragraph) = true ->
  belonging_group (continuous_abnormal_groups st) (translated_group_ids st)
    index = None ->
  text (para paragraph) = ws ++ core ++ ws' ->
  forallb is_space ws = true -> forallb is_space ws' = true ->
  lstrip core = core -> trimmed_right core ->
  (forall label content,
     check_colon_format core <> (true, false, label, content)) ->
  exists sibling,
    translate_paragraph TRANSLATOR st body paragraph index
    = (st, body,
       {| para := para paragraph; after := sibling :: after paragraph |})
    /\ sibling
       = english_paragraph (para paragraph) (text sibling) None None None
    /\ text sibling
       = replicate (length ws) SPACE
         ++ translate_text TRANSLATOR st (item_content (para paragraph))
    /\ exists skipped,
         core = item_number (para paragraph) ++ skipped
                ++ item_content (para paragraph)
         /\ forallb is_separator skipped = true
         /\ (item_number (para paragraph) = [] -> skipped = [])
         /\ (item_number (para paragraph) <> [] ->
             forall c r, item_content (para paragraph) = c :: r ->
                         is_separator c = false).
Proof.
  intros Hq Hgroup Htext Hws Hws' Hl Htr Hlabel.
  assert (Hs : strip (text (para paragraph)) = core)
    by (rewrite Htext; now apply strip_core).
  assert (Hne : core <> []).
  { intros ->. unfold qualifies in Hq. rewrite Hs in Hq. discriminate Hq. }
  assert (Hindent : indent_of (text (para paragraph))
                    = replicate (length ws) SPACE).
  { rewrite Htext. unfold indent_of.
    rewrite leading_whitespace_length; [reflexivity|exact Hws|].
    now apply lstrip_app_fixed. }
  assert (Hres : translate_paragraph TRANSLATOR st body paragraph index
                 = (st, body,
                    add_english_below paragraph
                      (indent_of (text (para paragraph))
                       ++ translate_text TRANSLATOR st
                            (item_content (para paragraph)))
                      None None None)).
  { unfold translate_paragraph. rewrite Hq, Hgroup. cbn [negb].
    unfold _translate_regular_paragraph. rewrite Hs.
    destruct (check_colon_format core)
      as [[[has_colon has_content] colon_part] content_part] eqn:Hfmt.
    assert (Hnot : has_colon && negb has_content = false).
    { destruct has_colon, has_content; try reflexivity.
      now destruct (Hlabel colon_part content_part). }
    rewrite Hnot.
    unfold _translate_colon_with_content, _translate_no_colon,
      item_content, item_number.
    rewrite Hs.
    destruct (has_colon && has_content), (truthy (get_step_number core));
      reflexivity. }
  eexists. split; [rewrite Hres; reflexivity|].
  split; [now english_paragraph_text|].
  split; [english_paragraph_text; now rewrite Hindent|].
  rewrite <- Hs. apply item_decomposition.
Qed.

(** In the paragraph loop a later member of a group that is not consumed
    is left to the seed: nothing is translated, inserted or marked. *)
Theorem later_member_left_to_seed (st : DocumentState) (body : list Slot)
    (i : nat) (g : Group) :
  NoDup (all_indices (continuous_abnormal_groups st)) ->
  g ∈ continuous_abnormal_groups st ->
  group_id g ∉ translated_group_ids st ->
  i ∈ map para_index (tail (paragraphs g)) ->
  translate_body_paragraph TRANSLATOR st body i = (st, body).
Proof.
  intros Hnd Hg Hid Hi.
  assert (Hin : i ∈ group_indices g).
  { unfold group_indices. destruct (paragraphs g) as [|it items];
      [exact Hi|]. now apply list_elem_of_further. }
  assert (Hseed : Some i <> seed_index g).
  { intros Hs. symmetry in Hs.
    exact (seed_not_later_member _ _ (NoDup_group_indices _ _ Hnd Hg) Hs Hi). }
  unfold translate_body_paragraph.
  destruct (body !! i) as [paragraph|] eqn:Hbody; [|reflexivity].
  destruct (truthy (strip (text (para paragraph)))); [|reflexivity].
  unfold translate_paragraph.
  rewrite (belonging_group_found _ _ g i Hnd Hg Hid Hin).
  rewrite (bool_decide_eq_false_2 _ Hseed).
  destruct (negb (qualifies (para paragraph)));
    now rewrite list_insert_id.
Qed.

End BodyLoop.

(** "4.9： 檢查完整性" behind two spaces: the text sent is "檢查完整性",
    and the sibling holds two spaces and its translation. *)
Lemma regular_paragraph_bilingual_witness :
  exists sibling,
    translate_paragraph (glossary_backend [(INSPECT, lit "Check integrity")])
      empty_state [] (pristine indented_step_paragraph) None
    = (empty_state, [],
       {| para := indented_step_paragraph; after := [sibling] |})
    /\ sibling
       = english_paragraph indented_step_paragraph (text sibling)
           None None None
    /\ text sibling = lit "  Check integrity"
    /\ exists skipped,
         numbered_step = lit "4.9" ++ skipped ++ INSPECT
         /\ forallb is_separator skipped = true
         /\ (lit "4.9" = [] -> skipped = [])
         /\ (lit "4.9" <> [] ->
             forall c r, INSPECT = c :: r -> is_separator c = false).
Proof.
  apply (regular_paragraph_bilingual
           (glossary_backend [(INSPECT, lit "Check integrity")])
           empty_state [] (pristine indented_step_paragraph) None
           (lit "  ") numbered_step [SPACE]); try reflexivity.
  intros label content H. vm_compute in H. discriminate H.
Defined.

(** Scenario B: the second member waits for the seed. *)
Lemma later_member_left_to_seed_witness :
  translate_body_paragraph (constant_backend (lit "Caution"))
    scenario_b_state scenario_b_body 1
  = (scenario_b_state, scenario_b_body).
Proof.
  apply (later_member_left_to_seed (constant_backend (lit "Caution"))
           scenario_b_state scenario_b_body 1 scenario_b_group).
  - apply (bool_decide_unpack _). vm_compute. exact I.
  - apply list_elem_of_In. vm_compute. left. reflexivity.
  - apply (bool_decide_unpack _). vm_compute. exact I.
  - apply list_elem_of_In. vm_compute. left. reflexivity.
Defined.

(** Scenario B at its seed. *)
Lemma body_paragraph_at_seed_witness :
  exists st' body' rewritten,
    translate_body_paragraph (constant_backend (lit "Caution"))
      scenario_b_state scenario_b_body 0 = (st', body')
    /\ st' = mark_translated scenario_b_state (group_id scenario_b_group)
    /\ rewritten
       = add_run
           (clear_paragraph_text_keep_images
              (para (pristine (plain (lit "   " ++ NOTICE)))))
           (if existsb has_picture
                 (runs (para (pristine (plain (lit "   " ++ NOTICE)))))
            then merge_group_text (paragraphs scenario_b_group)
            else indent_of
                   (text (para (pristine (plain (lit "   " ++ NOTICE)))))
                 ++ merge_group_text (paragraphs scenario_b_group))
    /\ body' !! 0%nat
       = Some {| para := rewritten;
                 after :=
                   english_paragraph rewritten
                     (indent_of
                        (text (para (pristine (plain (lit "   " ++ NOTICE)))))
                      ++ strip (translate_text (constant_backend (lit "Caution"))
                                  scenario_b_state
                                  (group_pure_content scenario_b_group)))
                     None None None
                   :: after (pristine (plain (lit "   " ++ NOTICE))) |}
    /\ (forall j, j ∈ map para_index (tail (paragraphs scenario_b_group)) ->
                  body' !! j = clear_slot <$> scenario_b_body !! j)
    /\ (forall j, j ∉ group_indices scenario_b_group ->
                  body' !! j = scenario_b_body !! j)
    /\ (forall index g' b,
          belonging_group (continuous_abnormal_groups st')
            (translated_group_ids st') index = Some (g', b) ->
          group_id g' <> group_id scenario_b_group)
    /\ (forall ws rest,
          lit "   " ++ NOTICE = ws ++ rest -> forallb is_space ws = true ->
          lstrip rest = rest ->
          lit "   " = replicate (length ws) SPACE)
    /\ (forall s, body' !! 0%nat = Some s ->
          exists sibling,
            after s = [sibling] /\ text sibling = lit "   Caution").
Proof.
  apply (body_paragraph_at_seed (constant_backend (lit "Caution"))
           scenario_b_state scenario_b_body 0 scenario_b_group
           (pristine (plain (lit "   " ++ NOTICE)))).
  - apply (bool_decide_unpack _). vm_compute. exact I.
  - apply list_elem_of_In. vm_compute. left. reflexivity.
  - apply (bool_decide_unpack _). vm_compute. exact I.
  - vm_compute. reflexivity.
  - vm_compute. reflexivity.
  - vm_compute. reflexivity.
Defined.

(** *** The grouping pass, second invariant *)

Lemma closed_groups_weaken ps i gs :
  closed_groups_inv ps i gs -> closed_groups_inv ps (S i) gs.
Proof.
  intros [Hids Hgs]. split; [exact Hids|].
  eapply Forall_impl; [exact Hgs|]. cbn.
  intros g (Hm & hi & Hhi & Hc & Hlt). split; [exact Hm|].
  exists hi. repeat split; [lia|exact Hc|exact Hlt].
Qed.

Lemma closed_groups_close ps i gs g :
  closed_groups_inv ps i gs -> open_group_inv ps i (length gs) g ->
  closed_groups_inv ps i (close_group gs g).
Proof.
  intros [Hids Hgs] (Hid & Hm & Hc & Hlt). unfold close_group. split.
  - rewrite map_app, length_app, Hids. cbn [map length group_id].
    rewrite Nat.add_1_r, seq_S, Hid. reflexivity.
  - apply Forall_app. split; [exact Hgs|].
    repeat constructor; try apply Hm.
    exists i. repeat split; [lia|exact Hc|exact Hlt].
Qed.

Lemma length_close_group gs g : length (close_group gs g) = S (length gs).
Proof. unfold close_group. rewrite length_app. cbn. lia. Qed.

Lemma open_group_skip ps i n g :
  open_group_inv ps i n g ->
  (forall p, ps !! i = Some p -> qualifies p = false) ->
  open_group_inv ps (S i) n g.
Proof.
  intros (Hid & Hm & Hc & Hlt) Hp. repeat split; try assumption; try apply Hm.
  - intros a j p Ha Hj Hjp Hq.
    destruct (decide (j = i)) as [-> | Hne].
    + rewrite (Hp _ Hjp) in Hq. discriminate Hq.
    + apply (Hc a j p Ha); [lia|exact Hjp|exact Hq].
  - eapply Forall_impl; [exact Hlt|]. cbn. lia.
Qed.

Lemma member_of_new_item ps i p count :
  ps !! i = Some p -> qualifies p = true ->
  has_long_spaces_in_runs p = (true, count) ->
  member_of ps (new_item p i count).
Proof.
  intros Hp Hq Hl. exists p. unfold indented. rewrite Hl. now repeat split.
Qed.

Lemma open_group_new ps i n p count :
  ps !! i = Some p -> qualifies p = true ->
  has_long_spaces_in_runs p = (true, count) ->
  open_group_inv ps (S i) n
    {| group_id := n + 1; paragraphs := [new_item p i count];
       merged_text := None |}.
Proof.
  intros Hp Hq Hl. unfold open_group_inv, group_members_ok, group_indices.
  cbn [group_id paragraphs tail map new_item para_index].
  repeat split.
  - lia.
  - repeat constructor. now apply member_of_new_item.
  - constructor.
  - intros a j p' Ha Hj. apply list_elem_of_singleton in Ha.
    cbn [new_item para_index] in Ha. exfalso. lia.
  - repeat constructor.
Qed.

Lemma tail_snoc {A} (l : list A) (x : A) :
  tail (l ++ [x]) = match l with [] => [] | _ => tail l ++ [x] end.
Proof. now destruct l. Qed.

Lemma open_group_join ps i n g p count mt :
  open_group_inv ps i n g ->
  ps !! i = Some p -> qualifies p = true ->
  has_long_spaces_in_runs p = (true, count) ->
  truthy (get_step_number_of_paragraph p) = false ->
  open_group_inv ps (S i) n
    {| group_id := group_id g;
       paragraphs := paragraphs g ++ [new_item p i count];
       merged_text := mt |}.
Proof.
  intros (Hid & [Hm Hu] & Hc & Hlt) Hp Hq Hl Hnum.
  unfold open_group_inv, group_members_ok, covers_up_to, group_indices in *.
  cbn [group_id paragraphs].
  assert (Hnew : unnumbered_in ps (new_item p i count)).
  { intros p'. cbn [new_item para_index]. rewrite Hp. intros [= <-].
    now destruct (get_step_number_of_paragraph p). }
  repeat split.
  - exact Hid.
  - apply Forall_app. split; [exact Hm|].
    repeat constructor. now apply member_of_new_item.
  - rewrite tail_snoc. destruct (paragraphs g) as [|it items]; [constructor|].
    apply Forall_app. split; [exact Hu|]. now repeat constructor.
  - rewrite map_app. cbn [map new_item para_index].
    intros a j p' Ha Hj Hjp Hq'.
    apply elem_of_app in Ha as [Ha | Ha];
      [|apply list_elem_of_singleton in Ha; exfalso; lia].
    apply elem_of_app.
    destruct (decide (j = i)) as [-> | Hne];
      [right; apply list_elem_of_here|].
    left. apply (Hc a j p' Ha); [lia|exact Hjp|exact Hq'].
  - rewrite map_app. apply Forall_app. split.
    + eapply Forall_impl; [exact Hlt|]. cbn. lia.
    + repeat constructor.
Qed.

Lemma all_indices_singleton (g : Group) : all_indices [g] = group_indices g.
Proof. unfold all_indices. cbn. apply app_nil_r. Qed.

Lemma covered_step ps i (l l' : list nat) :
  covered ps i l -> (forall j, j ∈ l -> j ∈ l') ->
  (i ∈ l'
   \/ forall p, ps !! i = Some p -> qualifies p && indented p = false) ->
  covered ps (S i) l'.
Proof.
  intros Hc Hsub Hi j p Hj Hjp Hq Hind.
  destruct (decide (j = i)) as [-> | Hne].
  - destruct Hi as [Hi | Hi]; [exact Hi|].
    specialize (Hi _ Hjp). rewrite Hq, Hind in Hi. discriminate Hi.
  - apply Hsub. apply (Hc j p); [lia|assumption..].
Qed.

Lemma grouping_inv2_skip ps i st :
  grouping_inv2 ps i st ->
  (forall p, ps !! i = Some p -> qualifies p = false) ->
  grouping_inv2 ps (S i) st.
Proof.
  intros (Hcl & Hop & Hcov) Hp. split; [now apply closed_groups_weaken|].
  split.
  - intros g Hg. apply open_group_skip; [now apply Hop|exact Hp].
  - apply (covered_step ps i _ _ Hcov); [auto|].
    right. intros p Hip. now rewrite (Hp _ Hip).
Qed.

(** The closed groups once the open group, if any, is closed. *)
Lemma closed_groups_after_close ps i st :
  grouping_inv2 ps i st ->
  closed_groups_inv ps i
    (match current_group st with
     | Some g => close_group (continuous_abnormal_groups st) g
     | None => continuous_abnormal_groups st
     end)
  /\ all_indices
       (match current_group st with
        | Some g => close_group (continuous_abnormal_groups st) g
        | None => continuous_abnormal_groups st
        end)
     = all_indices (continuous_abnormal_groups st ++ open_group st).
Proof.
  intros (Hcl & Hop & _). unfold open_group.
  destruct (current_group st) as [g|].
  - split; [apply closed_groups_close; auto|apply all_indices_close].
  - now rewrite app_nil_r.
Qed.

Lemma grouping_inv2_record ps i st p :
  grouping_inv2 ps i st -> ps !! i = Some p -> qualifies p = true ->
  grouping_inv2 ps (S i) (record_long_space_paragraph st p (Some i)).
Proof.
  intros Hinv Hp Hq.
  pose proof (closed_groups_after_close _ _ _ Hinv) as [Hclosed Hidx].
  destruct Hinv as (Hcl & Hop & Hcov).
  unfold record_long_space_paragraph.
  destruct (has_long_spaces_in_runs p) as [has_abnormal count] eqn:Hl.
  assert (Hind : indented p = has_abnormal)
    by (unfold indented; now rewrite Hl).
  destruct has_abnormal; cbn [negb].
  - destruct (truthy (get_step_number_of_paragraph p)) eqn:Hnum.
    + (* numbered: the open group is closed and a new one is seeded *)
      unfold grouping_inv2, open_group.
      cbn [set_groups continuous_abnormal_groups current_group].
      split; [now apply closed_groups_weaken|]. split.
      * intros g [= <-]. now apply open_group_new.
      * apply (covered_step ps i _ _ Hcov).
        -- intros j Hj. rewrite all_indices_app, Hidx.
           apply elem_of_app. now left.
        -- left. rewrite all_indices_app. apply elem_of_app. right.
           cbn. apply list_elem_of_here.
    + destruct (current_group st) as [g|] eqn:Hcur;
      unfold open_group in Hcov, Hidx; rewrite ?Hcur in Hcov, Hidx.
      * (* a continuation line joins the open group *)
        unfold grouping_inv2, open_group in *.
        cbn [set_groups continuous_abnormal_groups current_group].
        split; [now apply closed_groups_weaken|]. split.
        -- intros g' [= <-]. apply open_group_join; auto.
        -- apply (covered_step ps i _ _ Hcov).
           ++ intros j.
              rewrite !all_indices_app, !all_indices_singleton, !elem_of_app.
              intros [Hj | Hj]; [now left|right].
              unfold group_indices. cbn [paragraphs].
              rewrite map_app. apply elem_of_app. now left.
           ++ left. rewrite all_indices_app, all_indices_singleton.
              apply elem_of_app. right.
              unfold group_indices. cbn [paragraphs].
              rewrite map_app. apply elem_of_app. right.
              apply list_elem_of_here.
      * unfold grouping_inv2, open_group in *.
        cbn [set_groups continuous_abnormal_groups current_group].
        split; [now apply closed_groups_weaken|]. split.
        -- intros g' [= <-]. now apply open_group_new.
        -- apply (covered_step ps i _ _ Hcov).
           ++ intros j. rewrite !all_indices_app, !elem_of_app.
              intros [Hj | Hj]; [now left|].
              now apply not_elem_of_nil in Hj.
           ++ left. rewrite all_indices_app. apply elem_of_app. right.
              cbn. apply list_elem_of_here.
  - assert (Hnot : forall p', ps !! i = Some p' ->
                              qualifies p' && indented p' = false).
    { intros p'. rewrite Hp. intros [= <-]. now rewrite Hind, andb_false_r. }
    destruct (current_group st) as [g|] eqn:Hcur;
      unfold open_group in Hcov, Hidx; rewrite ?Hcur in Hcov, Hidx.
    + unfold grouping_inv2, open_group in *.
      cbn [set_groups continuous_abnormal_groups current_group].
      split; [now apply closed_groups_weaken|].
      split; [discriminate|].
      apply (covered_step ps i _ _ Hcov); [|now right].
      intros j. now rewrite app_nil_r, Hidx.
    + unfold grouping_inv2, open_group in *. rewrite Hcur in *.
      split; [now apply closed_groups_weaken|].
      split; [discriminate|].
      apply (covered_step ps i _ _ Hcov); [auto|now right].
Qed.

Lemma grouping_inv2_record_paragraphs ps rest pre st :
  ps = pre ++ rest -> grouping_inv2 ps (length pre) st ->
  grouping_inv2 ps (length ps) (record_paragraphs st (length pre) rest).
Proof.
  revert pre st. induction rest as [|p rest IH]; intros pre st Hps Hinv.
  - cbn. rewrite app_nil_r in Hps. now subst pre.
  - cbn [record_paragraphs].
    assert (Hp : ps !! length pre = Some p).
    { rewrite Hps. now rewrite list_lookup_middle. }
    replace (S (length pre)) with (length (pre ++ [p]))
      by (rewrite length_app; cbn; lia).
    apply IH.
    + now rewrite Hps, <- app_assoc.
    + rewrite length_app. cbn [length]. rewrite Nat.add_1_r.
      destruct (qualifies p) eqn:Hq.
      * now apply grouping_inv2_record.
      * apply grouping_inv2_skip; [exact Hinv|].
        intros p'. rewrite Hp. now intros [= <-].
Qed.

Lemma grouping_inv2_reset ps st0 : grouping_inv2 ps 0 (reset st0).
Proof.
  split; [split; [reflexivity|constructor]|].
  split; [discriminate|]. intros j p Hj. lia.
Qed.

Lemma covers_contiguous ps hi g :
  covers_up_to ps hi g -> Forall (fun a => (a < hi)%nat) (group_indices g) ->
  contiguous ps g.
Proof.
  intros Hc Hlt a b j p Ha Hb Hj Hjp Hq.
  rewrite Forall_forall in Hlt. specialize (Hlt b Hb).
  apply (Hc a j p Ha); [lia|exact Hjp|exact Hq].
Qed.

Lemma grouping_pass_structure_aux (st0 : DocumentState) (ps : list Paragraph) :
  map group_id (continuous_abnormal_groups (grouping_pass (reset st0) ps))
  = seq 1 (length (continuous_abnormal_groups
                     (grouping_pass (reset st0) ps)))
  /\ Forall (fun g => group_members_ok ps g /\ contiguous ps g)
       (continuous_abnormal_groups (grouping_pass (reset st0) ps))
  /\ (forall j p, ps !! j = Some p -> qualifies p = true ->
                  indented p = true ->
                  j ∈ all_indices
                        (continuous_abnormal_groups
                           (grouping_pass (reset st0) ps))).
Proof.
  pose proof (grouping_inv2_record_paragraphs ps ps [] (reset st0) eq_refl
                (grouping_inv2_reset ps st0)) as Hinv.
  cbn [length] in Hinv.
  pose proof (closed_groups_after_close _ _ _ Hinv) as [[Hids Hgs] Hidx].
  destruct Hinv as (_ & _ & Hcov).
  assert (Hfinal : continuous_abnormal_groups (grouping_pass (reset st0) ps)
                   = match current_group (record_paragraphs (reset st0) 0 ps)
                     with
                     | Some g =>
                         close_group
                           (continuous_abnormal_groups
                              (record_paragraphs (reset st0) 0 ps)) g
                     | None =>
                         continuous_abnormal_groups
                           (record_paragraphs (reset st0) 0 ps)
                     end).
  { unfold grouping_pass, finalize_groups.
    now destruct (current_group (record_paragraphs (reset st0) 0 ps)). }
  rewrite Hfinal. split; [exact Hids|]. split.
  - eapply Forall_impl; [exact Hgs|]. cbn.
    intros g (Hm & hi & _ & Hc & Hlt). split; [exact Hm|].
    now apply (covers_contiguous ps hi).
  - intros j p Hjp Hq Hind. rewrite Hidx.
    apply (Hcov j p); [|assumption..].
    now apply lookup_lt_Some in Hjp.
Qed.

(** What the grouping pass produces, besides the merged texts: the ids of
    the groups are 1, 2, ... in order; the member indices increase
    strictly along the groups, so that no paragraph is in two groups;
    every member is a source-language paragraph that starts with spaces or
    tabs, recorded with its indent width; only the first member of a group
    may carry a numbering prefix; between two members of a group every
    source-language paragraph is a member; and every indented
    source-language paragraph of the document is a member of some group. *)
Theorem grouping_pass_structure (st0 : DocumentState) (ps : list Paragraph) :
  map group_id (continuous_abnormal_groups (grouping_pass (reset st0) ps))
  = seq 1 (length (continuous_abnormal_groups
                     (grouping_pass (reset st0) ps)))
  /\ StronglySorted lt
       (all_indices
          (continuous_abnormal_groups (grouping_pass (reset st0) ps)))
  /\ Forall (fun g => group_members_ok ps g /\ contiguous ps g)
       (continuous_abnormal_groups (grouping_pass (reset st0) ps))
  /\ (forall j p, ps !! j = Some p -> qualifies p = true ->
                  indented p = true ->
                  j ∈ all_indices
                        (continuous_abnormal_groups
                           (grouping_pass (reset st0) ps))).
Proof.
  destruct (grouping_pass_structure_aux st0 ps) as (Hids & Hgs & Hcov).
  destruct (grouping_pass_groups st0 ps) as [Hsorted _].
  now repeat split.
Qed.

(** *** The paragraph loop in closed form *)

Lemma StronglySorted_app_inv {A} (R : A -> A -> Prop) (l1 l2 : list A) :
  StronglySorted R (l1 ++ l2) ->
  StronglySorted R l1 /\ StronglySorted R l2
  /\ forall x y, x ∈ l1 -> y ∈ l2 -> R x y.
Proof.
  induction l1 as [|a l1 IH]; cbn [app]; intros H.
  - split; [constructor|]. split; [exact H|].
    intros x y Hx. now apply not_elem_of_nil in Hx.
  - apply StronglySorted_inv in H as [H Ha].
    destruct (IH H) as (H1 & H2 & H12).
    apply Forall_app in Ha as [Ha1 Ha2].
    split; [now constructor|]. split; [exact H2|].
    intros x y [-> | Hx]%elem_of_cons Hy.
    + rewrite Forall_forall in Ha2. now apply Ha2.
    + now apply H12.
Qed.

Lemma sorted_group_indices (gs : list Group) (g : Group) :
  StronglySorted lt (all_indices gs) -> g ∈ gs ->
  StronglySorted lt (group_indices g).
Proof.
  intros Hs Hg. apply list_elem_of_split in Hg as (l1 & l2 & ->).
  rewrite all_indices_app in Hs.
  apply StronglySorted_app_inv in Hs as (_ & Hs & _).
  change (g :: l2) with ([g] ++ l2) in Hs.
  rewrite all_indices_app, all_indices_singleton in Hs.
  now apply StronglySorted_app_inv in Hs as (Hs & _).
Qed.

(** A later member comes after the seed of its group. *)
Lemma later_member_after_seed (gs : list Group) (g : Group) (j : nat) :
  StronglySorted lt (all_indices gs) -> g ∈ gs ->
  j ∈ map para_index (tail (paragraphs g)) ->
  exists s, seed_index g = Some s /\ (s < j)%nat.
Proof.
  intros Hs Hg Hj. pose proof (sorted_group_indices _ _ Hs Hg) as Hsg.
  unfold group_indices, seed_index in *.
  destruct (paragraphs g) as [|it items];
    [now apply not_elem_of_nil in Hj|].
  cbn [map head tail fmap option_fmap option_map] in *.
  exists (para_index it). split; [reflexivity|].
  apply StronglySorted_inv in Hsg as [_ Hlt].
  rewrite Forall_forall in Hlt. now apply Hlt.
Qed.

(** With member indices that do not repeat, an index is in one group. *)
Lemma index_unique (gs : list Group) (g g' : Group) (i : nat) :
  NoDup (all_indices gs) -> g ∈ gs -> g' ∈ gs ->
  i ∈ group_indices g -> i ∈ group_indices g' -> g = g'.
Proof.
  induction gs as [|g0 gs IH]; intros Hnd Hg Hg' Hi Hi'.
  - now apply not_elem_of_nil in Hg.
  - unfold all_indices in Hnd. cbn [flat_map] in Hnd.
    apply NoDup_app in Hnd as (_ & Hdisj & Hnd).
    apply elem_of_cons in Hg as [-> | Hg];
      apply elem_of_cons in Hg' as [-> | Hg'].
    + reflexivity.
    + exfalso. apply (Hdisj i Hi). apply elem_of_all_indices. now exists g'.
    + exfalso. apply (Hdisj i Hi'). apply elem_of_all_indices. now exists g.
    + now apply IH.
Qed.

Lemma id_unique (gs : list Group) (g g' : Group) :
  NoDup (map group_id gs) -> g ∈ gs -> g' ∈ gs ->
  group_id g = group_id g' -> g = g'.
Proof.
  induction gs as [|g0 gs IH]; intros Hnd Hg Hg' Hid.
  - now apply not_elem_of_nil in Hg.
  - cbn [map] in Hnd. apply NoDup_cons in Hnd as [Hnot Hnd].
    assert (Hin : forall x, x ∈ gs -> group_id x ∈ map group_id gs).
    { intros x Hx. apply elem_of_map. now exists x. }
    apply elem_of_cons in Hg as [-> | Hg];
      apply elem_of_cons in Hg' as [-> | Hg'].
    + reflexivity.
    + exfalso. apply Hnot. rewrite Hid. now apply Hin.
    + exfalso. apply Hnot. rewrite <- Hid. now apply Hin.
    + now apply IH.
Qed.

(** The search returns nothing for an index whose groups are consumed. *)
Lemma belonging_group_none (gs : list Group) (T : gset nat) (i : nat) :
  (forall g, g ∈ gs -> i ∈ group_indices g -> group_id g ∈ T) ->
  belonging_group gs T (Some i) = None.
Proof.
  induction gs as [|g gs IH]; intros H; [reflexivity|].
  cbn [belonging_group].
  assert (IH' : belonging_group gs T (Some i) = None).
  { apply IH. intros g' Hg'. apply H. now apply list_elem_of_further. }
  case_bool_decide as Hid; [exact IH'|].
  rewrite matching_item_notin; [exact IH'|].
  intros Hi. apply Hid. apply H; [apply list_elem_of_here|exact Hi].
Qed.

Lemma seed_group_Some (gs : list Group) (j : nat) (g : Group) :
  seed_group gs j = Some g -> g ∈ gs /\ seed_index g = Some j.
Proof.
  unfold seed_group. intros H. apply find_some in H as [Hin Hb].
  split; [now apply list_elem_of_In|].
  now apply bool_decide_eq_true in Hb.
Qed.

Lemma seed_group_None (gs : list Group) (j : nat) (g : Group) :
  seed_group gs j = None -> g ∈ gs -> seed_index g <> Some j.
Proof.
  unfold seed_group. intros H Hg Hs.
  apply list_elem_of_In in Hg.
  pose proof (find_none _ _ H g Hg) as Hb. cbn in Hb.
  now rewrite bool_decide_eq_true_2 in Hb.
Qed.

Lemma elem_of_later_members (gs : list Group) (j : nat) :
  j ∈ later_members gs
  <-> exists g, g ∈ gs /\ j ∈ map para_index (tail (paragraphs g)).
Proof.
  unfold later_members. rewrite list_elem_of_In, in_flat_map. split.
  - intros (g & Hg & Hj). exists g. split; now apply list_elem_of_In.
  - intros (g & Hg & Hj). exists g. split; now apply list_elem_of_In.
Qed.

Lemma later_member_index (g : Group) (j : nat) :
  j ∈ map para_index (tail (paragraphs g)) -> j ∈ group_indices g.
Proof.
  unfold group_indices. destruct (paragraphs g) as [|it items]; [auto|].
  cbn [tail map]. apply list_elem_of_further.
Qed.

Lemma index_seed_or_later (g : Group) (j : nat) :
  j ∈ group_indices g ->
  seed_index g = Some j \/ j ∈ map para_index (tail (paragraphs g)).
Proof.
  unfold group_indices, seed_index.
  destruct (paragraphs g) as [|it items];
    [intros H; now apply not_elem_of_nil in H|].
  cbn [map head tail fmap option_fmap option_map].
  intros [-> | H]%elem_of_cons; [now left|now right].
Qed.

Section LoopProperties.

Variable TRANSLATOR : str -> option str.

Lemma translate_text_same_dictionaries (st st' : DocumentState) (t : str) :
  same_dictionaries st st' ->
  translate_text TRANSLATOR st' t = translate_text TRANSLATOR st t.
Proof.
  intros [Hpcb Hfixed]. unfold translate_text, _check_pcb_terms.
  now rewrite Hpcb, Hfixed.
Qed.

Lemma regular_paragraph_same_dictionaries (st st' : DocumentState) (s : Slot) :
  same_dictionaries st st' ->
  _translate_regular_paragraph TRANSLATOR st' s
  = _translate_regular_paragraph TRANSLATOR st s.
Proof.
  intros H. unfold _translate_regular_paragraph.
  destruct (check_colon_format (strip (text (para s))))
    as [[[has_colon has_content] colon_part] content].
  unfold _translate_colon_no_content, _translate_colon_with_content,
    _translate_no_colon.
  now rewrite !(translate_text_same_dictionaries st st' _ H).
Qed.

Lemma regular_result_same_dictionaries (st st' : DocumentState) (s : Slot) :
  same_dictionaries st st' ->
  regular_result TRANSLATOR st' s = regular_result TRANSLATOR st s.
Proof.
  intros H. unfold regular_result.
  now rewrite (regular_paragraph_same_dictionaries st st' s H).
Qed.

Lemma seed_result_same_dictionaries (st st' : DocumentState) (g : Group)
    (s : Slot) :
  same_dictionaries st st' ->
  seed_result TRANSLATOR st' g s = seed_result TRANSLATOR st g s.
Proof.
  intros H. unfold seed_result, _translate_grouped_paragraphs. cbn [snd].
  now rewrite !(translate_text_same_dictionaries st st' _ H).
Qed.

(** One round of the loop on a paragraph that no unconsumed group holds. *)
Lemma translate_body_paragraph_regular (st : DocumentState)
    (body : list Slot) (k : nat) (s : Slot) :
  body !! k = Some s ->
  belonging_group (continuous_abnormal_groups st) (translated_group_ids st)
    (Some k) = None ->
  translate_body_paragraph TRANSLATOR st body k
  = (st, <[ k := regular_result TRANSLATOR st s ]> body).
Proof.
  intros Hs Hnone. unfold translate_body_paragraph, regular_result.
  rewrite Hs. unfold translate_paragraph, qualifies. rewrite Hnone.
  destruct (truthy (strip (text (para s)))); cbn [andb negb].
  - destruct (is_chinese (text (para s))); cbn [negb];
      [reflexivity|now rewrite list_insert_id].
  - now rewrite list_insert_id.
Qed.

(** One round of the loop on the seed of an unconsumed group. *)
Lemma translate_body_paragraph_seed (st : DocumentState) (body : list Slot)
    (k : nat) (s : Slot) (g : Group) :
  body !! k = Some s -> qualifies (para s) = true ->
  belonging_group (continuous_abnormal_groups st) (translated_group_ids st)
    (Some k) = Some (g, true) ->
  translate_body_paragraph TRANSLATOR st body k
  = (mark_translated st (group_id g),
     <[ k := seed_result TRANSLATOR st g s ]>
       (fold_left (fun b item => alter clear_slot (para_index item) b)
                  (tail (paragraphs g)) body)).
Proof.
  intros Hs Hq Hfound. unfold translate_body_paragraph. rewrite Hs.
  pose proof Hq as Hq'. unfold qualifies in Hq'.
  apply andb_true_iff in Hq' as [-> _].
  unfold translate_paragraph. rewrite Hq, Hfound. reflexivity.
Qed.

End LoopProperties.

Section LoopInvariant.

Variable TRANSLATOR : str -> option str.
Variable ps : list Paragraph.
Variable st1 : DocumentState.

Hypothesis Hsorted :
  StronglySorted lt (all_indices (continuous_abnormal_groups st1)).
Hypothesis Hids : NoDup (map group_id (continuous_abnormal_groups st1)).
Hypothesis Hseeds :
  forall g, g ∈ continuous_abnormal_groups st1 ->
            exists s p, seed_index g = Some s /\ ps !! s = Some p
                        /\ qualifies p = true.

Lemma cleared_before_weaken (k j : nat) :
  cleared_before (continuous_abnormal_groups st1) k j ->
  cleared_before (continuous_abnormal_groups st1) (S k) j.
Proof.
  intros (g & s & Hg & Hs & Hlt & Hj). exists g, s.
  repeat split; [exact Hg|exact Hs|lia|exact Hj].
Qed.

Lemma cleared_before_strengthen (k j : nat) :
  (forall g, g ∈ continuous_abnormal_groups st1 -> seed_index g <> Some k) ->
  cleared_before (continuous_abnormal_groups st1) (S k) j ->
  cleared_before (continuous_abnormal_groups st1) k j.
Proof.
  intros Hno (g & s & Hg & Hs & Hlt & Hj). exists g, s.
  repeat split; [exact Hg|exact Hs| |exact Hj].
  destruct (decide (s = k)) as [-> | Hne]; [|lia].
  now destruct (Hno g Hg).
Qed.

(** The round on the seed of a group. *)
Lemma loop_step_seed (k : nat) (st : DocumentState) (body : list Slot)
    (p : Paragraph) (g : Group) :
  loop_inv TRANSLATOR ps st1 k st body -> ps !! k = Some p ->
  seed_group (continuous_abnormal_groups st1) k = Some g ->
  loop_inv TRANSLATOR ps st1 (S k)
    (translate_body_paragraph TRANSLATOR st body k).1
    (translate_body_paragraph TRANSLATOR st body k).2.
Proof.
  intros (Hgs & Hdict & Hcons & Hlen & Hbody) Hp Hsg.
  pose proof (StronglySorted_lt_NoDup _ Hsorted) as Hnd.
  pose proof (seed_group_Some _ _ _ Hsg) as [Hg Hseed].
  pose proof (seed_in_group _ _ Hseed) as Hkg.
  assert (Hq : qualifies p = true).
  { destruct (Hseeds g Hg) as (s & p' & Hs & Hp' & Hq).
    rewrite Hseed in Hs. injection Hs as <-. congruence. }
  assert (Hsame : forall g' j, g' ∈ continuous_abnormal_groups st1 ->
                    j ∈ map para_index (tail (paragraphs g')) ->
                    j ∈ group_indices g -> g' = g).
  { intros g' j Hg' Hj Hjg.
    apply (index_unique _ g' g j Hnd Hg' Hg); [|exact Hjg].
    now apply later_member_index. }
  assert (Hafter : forall j, j ∈ map para_index (tail (paragraphs g)) ->
                             (k < j)%nat).
  { intros j Hj.
    destruct (later_member_after_seed _ _ _ Hsorted Hg Hj) as (s & Hs & Hlt).
    rewrite Hseed in Hs. injection Hs as <-. exact Hlt. }
  assert (Hpristine : body !! k = Some (pristine p)).
  { destruct (Hbody k p Hp) as (_ & _ & Hpr). apply Hpr; [lia|].
    intros (g' & s & Hg' & Hs & Hlt & Hk).
    assert (g' = g) as -> by (now apply (Hsame g' k)).
    rewrite Hseed in Hs. injection Hs as <-. lia. }
  assert (Hunc : group_id g ∉ translated_group_ids st).
  { rewrite (Hcons g Hg). intros (s & Hs & Hlt).
    rewrite Hseed in Hs. injection Hs as <-. lia. }
  assert (Hfound : belonging_group (continuous_abnormal_groups st)
                     (translated_group_ids st) (Some k) = Some (g, true)).
  { rewrite Hgs, (belonging_group_found _ _ g k Hnd Hg Hunc Hkg).
    now rewrite bool_decide_eq_true_2 by (now rewrite Hseed). }
  rewrite (translate_body_paragraph_seed TRANSLATOR st body k (pristine p) g
             Hpristine Hq Hfound).
  cbn [fst snd]. split; [exact Hgs|]. split; [exact Hdict|].
  split; [|split].
  - intros g' Hg'. cbn [mark_translated translated_group_ids].
    rewrite elem_of_union, elem_of_singleton, (Hcons g' Hg'). split.
    + intros [Hid | (s & Hs & Hlt)].
      * assert (g' = g) as -> by (now apply (id_unique _ g' g Hids)).
        exists k. split; [exact Hseed|lia].
      * exists s. split; [exact Hs|lia].
    + intros (s & Hs & Hlt). destruct (decide (s = k)) as [-> | Hne].
      * left. f_equal.
        apply (index_unique _ g' g k Hnd Hg' Hg); [|exact Hkg].
        now apply seed_in_group.
      * right. exists s. split; [exact Hs|lia].
  - now rewrite length_insert, length_clear_members.
  - intros j q Hjq. destruct (Hbody j q Hjq) as (Hb1 & Hb2 & Hb3).
    repeat split.
    + intros Hj. destruct (decide (j = k)) as [-> | Hne].
      * rewrite list_lookup_insert_eq
          by (rewrite length_clear_members, Hlen;
              now apply lookup_lt_Some in Hp).
        assert (q = p) as -> by congruence.
        unfold body_result. rewrite Hsg. f_equal.
        now apply seed_result_same_dictionaries.
      * rewrite list_lookup_insert_ne by auto.
        rewrite lookup_clear_members, bool_decide_eq_false_2.
        -- apply Hb1. lia.
        -- intros Hjl. specialize (Hafter j Hjl). lia.
    + intros Hj (g' & s & Hg' & Hs & Hlt & Hjl).
      rewrite list_lookup_insert_ne by lia.
      rewrite lookup_clear_members.
      destruct (decide (s = k)) as [-> | Hne].
      * assert (g' = g) as ->.
        { apply (index_unique _ g' g k Hnd Hg' Hg); [|exact Hkg].
          now apply seed_in_group. }
        rewrite bool_decide_eq_true_2 by exact Hjl.
        rewrite Hb3; [reflexivity|lia|].
        intros (g'' & s' & Hg'' & Hs' & Hlt' & Hjl').
        assert (g'' = g) as ->
          by (apply (Hsame g'' j Hg'' Hjl'); now apply later_member_index).
        rewrite Hseed in Hs'. injection Hs' as <-. lia.
      * rewrite Hb2; [|lia|exists g', s; repeat split; auto; lia].
        destruct (bool_decide _); [|reflexivity].
        cbn. now rewrite clear_slot_idem.
    + intros Hj Hncl. rewrite list_lookup_insert_ne by lia.
      rewrite lookup_clear_members, bool_decide_eq_false_2.
      * apply Hb3; [lia|]. intros Hcl. apply Hncl.
        now apply cleared_before_weaken.
      * intros Hjl. apply Hncl. exists g, k.
        repeat split; [exact Hg|exact Hseed|lia|exact Hjl].
Qed.

(** The round on a paragraph that is the seed of no group. *)
Lemma loop_step_other (k : nat) (st : DocumentState) (body : list Slot)
    (p : Paragraph) :
  loop_inv TRANSLATOR ps st1 k st body -> ps !! k = Some p ->
  seed_group (continuous_abnormal_groups st1) k = None ->
  loop_inv TRANSLATOR ps st1 (S k)
    (translate_body_paragraph TRANSLATOR st body k).1
    (translate_body_paragraph TRANSLATOR st body k).2.
Proof.
  intros (Hgs & Hdict & Hcons & Hlen & Hbody) Hp Hsg.
  assert (Hno : forall g, g ∈ continuous_abnormal_groups st1 ->
                          seed_index g <> Some k).
  { intros g Hg. now apply (seed_group_None _ _ _ Hsg). }
  assert (Hnone : belonging_group (continuous_abnormal_groups st)
                    (translated_group_ids st) (Some k) = None).
  { rewrite Hgs. apply belonging_group_none. intros g Hg Hk.
    apply (Hcons g Hg).
    destruct (index_seed_or_later g k Hk) as [Hs | Hl];
      [now destruct (Hno g Hg)|].
    exact (later_member_after_seed _ _ _ Hsorted Hg Hl). }
  assert (Hk : body !! k
               = Some (if bool_decide
                            (k ∈ later_members (continuous_abnormal_groups st1))
                       then clear_slot (pristine p) else pristine p)).
  { destruct (Hbody k p Hp) as (_ & Hb2 & Hb3).
    case_bool_decide as Hl.
    - apply Hb2; [lia|].
      apply elem_of_later_members in Hl as (g & Hg & Hl).
      destruct (later_member_after_seed _ _ _ Hsorted Hg Hl)
        as (s & Hs & Hlt).
      exists g, s. now repeat split.
    - apply Hb3; [lia|]. intros (g & s & Hg & _ & _ & Hkl).
      apply Hl. apply elem_of_later_members. now exists g. }
  rewrite (translate_body_paragraph_regular TRANSLATOR st body k _ Hk Hnone).
  cbn [fst snd]. split; [exact Hgs|]. split; [exact Hdict|].
  split; [|split].
  - intros g Hg. rewrite (Hcons g Hg).
    split; intros (s & Hs & Hlt); exists s; (split; [exact Hs|]); [lia|].
    destruct (decide (s = k)) as [-> | Hne]; [now destruct (Hno g Hg)|lia].
  - now rewrite length_insert.
  - intros j q Hjq. destruct (Hbody j q Hjq) as (Hb1 & Hb2 & Hb3).
    repeat split.
    + intros Hj. destruct (decide (j = k)) as [-> | Hne].
      * rewrite list_lookup_insert_eq
          by (rewrite Hlen; now apply lookup_lt_Some in Hp).
        assert (q = p) as -> by congruence.
        unfold body_result. rewrite Hsg. f_equal.
        now apply regular_result_same_dictionaries.
      * rewrite list_lookup_insert_ne by auto. apply Hb1. lia.
    + intros Hj Hcl. rewrite list_lookup_insert_ne by lia.
      apply Hb2; [lia|]. now apply cleared_before_strengthen.
    + intros Hj Hncl. rewrite list_lookup_insert_ne by lia.
      apply Hb3; [lia|]. intros Hcl. apply Hncl.
      now apply cleared_before_weaken.
Qed.

Lemma loop_rounds (n : nat) (st : DocumentState) (body : list Slot) :
  (n <= length ps)%nat ->
  loop_inv TRANSLATOR ps st1 0 st body ->
  loop_inv TRANSLATOR ps st1 n
    (fold_left (fun acc i => translate_body_paragraph TRANSLATOR acc.1 acc.2 i)
               (seq 0 n) (st, body)).1
    (fold_left (fun acc i => translate_body_paragraph TRANSLATOR acc.1 acc.2 i)
               (seq 0 n) (st, body)).2.
Proof.
  intros Hn H0. induction n as [|n IH]; [exact H0|].
  rewrite seq_S, fold_left_app. cbn [fold_left Nat.add].
  destruct (lookup_lt_is_Some_2 ps n ltac:(lia)) as [p Hp].
  specialize (IH ltac:(lia)).
  destruct (seed_group (continuous_abnormal_groups st1) n) as [g|] eqn:Hsg.
  - exact (loop_step_seed n _ _ p g IH Hp Hsg).
  - exact (loop_step_other n _ _ p IH Hp Hsg).
Qed.

End LoopInvariant.

Lemma lookup_map {A B} (f : A -> B) (l : list A) (i : nat) :
  map f l !! i = f <$> l !! i.
Proof.
  revert i. induction l as [|a l IH]; intros [|i]; cbn; try reflexivity.
  apply IH.
Qed.

(** The grouping pass touches the groups only. *)
Lemma record_long_space_paragraph_frame (st : DocumentState) (p : Paragraph)
    (index : option nat) :
  translated_group_ids (record_long_space_paragraph st p index)
  = translated_group_ids st
  /\ flowchart_original_tables (record_long_space_paragraph st p index)
     = flowchart_original_tables st
  /\ same_dictionaries st (record_long_space_paragraph st p index).
Proof.
  unfold record_long_space_paragraph, same_dictionaries.
  destruct (has_long_spaces_in_runs p) as [[|] count]; cbn [negb].
  - destruct index as [i|]; [|now repeat split].
    destruct (truthy (get_step_number_of_paragraph p));
      destruct (current_group st); now repeat split.
  - destruct (current_group st); now repeat split.
Qed.

Lemma grouping_pass_frame (st : DocumentState) (ps : list Paragraph) :
  translated_group_ids (grouping_pass st ps) = translated_group_ids st
  /\ flowchart_original_tables (grouping_pass st ps)
     = flowchart_original_tables st
  /\ same_dictionaries st (grouping_pass st ps).
Proof.
  unfold grouping_pass.
  assert (H : forall i st,
             translated_group_ids (record_paragraphs st i ps)
             = translated_group_ids st
             /\ flowchart_original_tables (record_paragraphs st i ps)
                = flowchart_original_tables st
             /\ same_dictionaries st (record_paragraphs st i ps)).
  { induction ps as [|p rest IH]; intros i st'; cbn [record_paragraphs];
      [now repeat split|].
    destruct (qualifies p); [|apply IH].
    destruct (IH (S i) (record_long_space_paragraph st' p (Some i)))
      as (Hi & Hf & [Hp1 Hp2]).
    destruct (record_long_space_paragraph_frame st' p (Some i))
      as (Hi' & Hf' & [Hp1' Hp2']).
    unfold same_dictionaries. repeat split; congruence. }
  destruct (H 0%nat st) as (Hids & Hflow & [Hpcb Hfixed]).
  unfold finalize_groups, same_dictionaries.
  destruct (current_group (record_paragraphs st 0 ps));
    cbn [set_groups translated_group_ids flowchart_original_tables
         pcb_terms_dict fixed_translation_map]; now repeat split.
Qed.

Section LoopResult.

Variable TRANSLATOR : str -> option str.

Lemma grouping_pass_seeds (st0 : DocumentState) (ps : list Paragraph)
    (g : Group) :
  g ∈ continuous_abnormal_groups (grouping_pass (reset st0) ps) ->
  exists s p, seed_index g = Some s /\ ps !! s = Some p
              /\ qualifies p = true.
Proof.
  intros Hg.
  destruct (grouping_pass_groups st0 ps) as [_ Hne].
  destruct (grouping_pass_structure_aux st0 ps) as (_ & Hm & _).
  rewrite Forall_forall in Hne, Hm.
  destruct (Hne g Hg) as (Hne' & _). destruct (Hm g Hg) as [[Hmem _] _].
  unfold seed_index. destruct (paragraphs g) as [|it items]; [contradiction|].
  apply Forall_cons in Hmem as [(p & Hp & Hq & _) _].
  now exists (para_index it), p.
Qed.

Lemma paragraph_loop_closed_form_aux (st0 : DocumentState)
    (ps : list Paragraph) :
  loop_inv TRANSLATOR ps (grouping_pass (reset st0) ps) (length ps)
    (translate_body TRANSLATOR (grouping_pass (reset st0) ps)
       (map pristine ps)).1
    (translate_body TRANSLATOR (grouping_pass (reset st0) ps)
       (map pristine ps)).2.
Proof.
  unfold translate_body. rewrite length_map.
  destruct (grouping_pass_groups st0 ps) as [Hsorted _].
  destruct (grouping_pass_structure_aux st0 ps) as (Hids & _ & _).
  apply loop_rounds.
  - exact Hsorted.
  - rewrite Hids. apply NoDup_seq.
  - apply grouping_pass_seeds.
  - lia.
  - split; [reflexivity|]. split; [now split|]. split; [|split].
    + intros g Hg. destruct (grouping_pass_frame (reset st0) ps) as (-> & _).
      cbn [reset translated_group_ids]. split.
      * intros H. now apply not_elem_of_empty in H.
      * intros (s & _ & Hlt). lia.
    + apply length_map.
    + intros j p Hp. repeat split.
      * lia.
      * intros _ (g & s & _ & _ & Hlt & _). lia.
      * intros _ _. now rewrite lookup_map, Hp.
Qed.

(** The paragraph loop in closed form.  After the grouping pass and the
    loop over the body paragraphs, paragraph [j] is: for the seed of a
    group, the seed rewritten with the merged text and followed by the
    translation of the group; for a later member, the paragraph cleared,
    drawings kept (and translated on its own if its drawing runs still
    carry source-language text); for any other source-language paragraph,
    its own translation; otherwise the paragraph as it was.  Every group
    is consumed, and the groups are those of the grouping pass. *)
Theorem paragraph_loop_closed_form (st0 : DocumentState)
    (ps : list Paragraph) :
  (translate_body TRANSLATOR (grouping_pass (reset st0) ps)
     (map pristine ps)).2
  = imap (body_result TRANSLATOR (grouping_pass (reset st0) ps)) ps
  /\ Forall (fun g =>
               group_id g
               ∈ translated_group_ids
                   (translate_body TRANSLATOR (grouping_pass (reset st0) ps)
                      (map pristine ps)).1)
       (continuous_abnormal_groups (grouping_pass (reset st0) ps))
  /\ continuous_abnormal_groups
       (translate_body TRANSLATOR (grouping_pass (reset st0) ps)
          (map pristine ps)).1
     = continuous_abnormal_groups (grouping_pass (reset st0) ps).
Proof.
  destruct (paragraph_loop_closed_form_aux st0 ps)
    as (Hgs & _ & Hcons & Hlen & Hbody).
  split; [|split; [|exact Hgs]].
  - apply list_eq. intros j. rewrite list_lookup_imap.
    destruct (ps !! j) as [p|] eqn:Hp; cbn.
    + destruct (Hbody j p Hp) as (Hb & _). apply Hb.
      now apply lookup_lt_Some in Hp.
    + apply lookup_ge_None. rewrite Hlen. now apply lookup_ge_None.
  - apply Forall_forall. intros g Hg. apply (Hcons g Hg).
    destruct (grouping_pass_seeds st0 ps g Hg) as (s & p & Hs & Hp & _).
    exists s. split; [exact Hs|]. now apply lookup_lt_Some in Hp.
Qed.

End LoopResult.

(** *** The table loop and the whole pipeline *)

Lemma elem_of_flowchart_indices (tables : list Table) (k0 i : nat) :
  i ∈ flowchart_indices k0 tables
  <-> exists table, (k0 <= i)%nat /\ tables !! (i - k0)%nat = Some table
                    /\ is_flowchart_table table = true.
Proof.
  revert k0. induction tables as [|t tables IH]; intros k0;
    cbn [flowchart_indices].
  - split; [intros H; now apply not_elem_of_nil in H|].
    intros (table & _ & H & _). discriminate H.
  - assert (Hrest : i ∈ flowchart_indices (S k0) tables
                    <-> exists table, (k0 < i)%nat
                          /\ (t :: tables) !! (i - k0)%nat = Some table
                          /\ is_flowchart_table table = true).
    { rewrite IH. split; intros (table & Hle & Hi & Hf); exists table.
      - split; [lia|]. split; [|exact Hf].
        replace (i - k0)%nat with (S (i - S k0)) by lia. exact Hi.
      - split; [lia|]. split; [|exact Hf].
        replace (i - k0)%nat with (S (i - S k0)) in Hi by lia. exact Hi. }
    destruct (is_flowchart_table t) eqn:Hflow.
    + rewrite elem_of_cons, Hrest. split.
      * intros [-> | (table & Hlt & Hi & Hf)].
        -- exists t. rewrite Nat.sub_diag. now repeat split.
        -- exists table. split; [lia|now split].
      * intros (table & Hle & Hi & Hf).
        destruct (decide (i = k0)) as [-> | Hne]; [now left|right].
        exists table. split; [lia|now split].
    + rewrite Hrest. split.
      * intros (table & Hlt & Hi & Hf). exists table. split; [lia|now split].
      * intros (table & Hle & Hi & Hf).
        destruct (decide (i = k0)) as [-> | Hne].
        -- rewrite Nat.sub_diag in Hi. cbn in Hi. congruence.
        -- exists table. split; [lia|now split].
Qed.

Section PipelineFrame.

Variable TRANSLATOR : str -> option str.

Lemma paragraph_round_flowcharts (st : DocumentState) (body : list Slot)
    (i : nat) :
  flowchart_original_tables (translate_body_paragraph TRANSLATOR st body i).1
  = flowchart_original_tables st.
Proof.
  unfold translate_body_paragraph.
  destruct (body !! i) as [s|]; [|reflexivity].
  destruct (truthy (strip (text (para s)))); [|reflexivity].
  pose proof (translate_paragraph_flowcharts TRANSLATOR st body s (Some i))
    as H.
  now destruct (translate_paragraph TRANSLATOR st body s (Some i))
    as [[st' body'] s'].
Qed.

Lemma paragraph_loop_flowcharts (st : DocumentState) (body : list Slot) :
  flowchart_original_tables (translate_body TRANSLATOR st body).1
  = flowchart_original_tables st.
Proof.
  unfold translate_body.
  change st with (st, body).1 at 2.
  generalize (st, body). generalize (seq 0 (length body)).
  intros l. induction l as [|i l IH]; intros acc; cbn [fold_left];
    [reflexivity|].
  rewrite IH. apply paragraph_round_flowcharts.
Qed.

(** The table loop: no body paragraph is touched, the groups and the
    dictionaries stay, and the recorded originals are the flowcharts, in
    order. *)
Lemma translate_tables_frame (tables : list Table) (st : DocumentState)
    (body : list Slot) (k : nat) :
  match translate_tables TRANSLATOR st body k tables with
  | (st', body', slots) =>
      body' = body
      /\ same_dictionaries st st'
      /\ flowchart_original_tables st'
         = flowchart_original_tables st ++ flowchart_indices k tables
      /\ Forall2 cloned_iff_flowchart tables slots
  end.
Proof.
  revert st k. induction tables as [|table tables IH]; intros st k.
  - cbn. rewrite app_nil_r. repeat split. constructor.
  - cbn [translate_tables flowchart_indices].
    destruct (is_flowchart_table table) eqn:Hflow.
    + cbn [clone_and_translate_flowchart].
      specialize (IH (track_original st k) (S k)).
      destruct (translate_tables TRANSLATOR (track_original st k) body (S k)
                  tables) as [[st2 body2] rest'].
      destruct IH as (-> & [Hpcb Hfixed] & Hrec & Hslots).
      split; [reflexivity|]. split; [now split|]. split.
      * rewrite Hrec. cbn [track_original flowchart_original_tables].
        now rewrite <- app_assoc.
      * constructor; [|exact Hslots].
        unfold cloned_iff_flowchart. rewrite Hflow. now eexists.
    + pose proof (translate_table_unchanged TRANSLATOR st body table) as Ht.
      destruct (translate_table TRANSLATOR st body table)
        as [[st1 body1] table'].
      destruct Ht as (-> & -> & _).
      specialize (IH st (S k)).
      destruct (translate_tables TRANSLATOR st body (S k) tables)
        as [[st2 body2] rest'].
      destruct IH as (-> & Hdict & Hrec & Hslots).
      split; [reflexivity|]. split; [exact Hdict|]. split; [exact Hrec|].
      constructor; [|exact Hslots].
      unfold cloned_iff_flowchart. now rewrite Hflow.
Qed.

Lemma translate_text_elem_same_dictionaries (st st' : DocumentState)
    (t : option str) :
  same_dictionaries st st' ->
  translate_text_elem TRANSLATOR st' t = translate_text_elem TRANSLATOR st t.
Proof.
  intros H. unfold translate_text_elem. destruct t as [s|]; [|reflexivity].
  now rewrite (translate_text_same_dictionaries TRANSLATOR st st' s H).
Qed.

Lemma translate_textbox_same_dictionaries (st st' : DocumentState)
    (textbox : Textbox) :
  same_dictionaries st st' ->
  translate_textbox TRANSLATOR st' textbox
  = translate_textbox TRANSLATOR st textbox.
Proof.
  intros H. unfold translate_textbox.
  assert (Hmap : map (fun p =>
                        {| tp_line := tp_line p; tp_lineRule := tp_lineRule p;
                           tp_jc := tp_jc p;
                           tp_runs :=
                             map (fun r =>
                                    {| tr_sz := tr_sz r;
                                       tr_texts :=
                                         map (translate_text_elem TRANSLATOR st')
                                             (tr_texts r) |}) (tp_runs p) |})
                     textbox
                 = map (fun p =>
                          {| tp_line := tp_line p; tp_lineRule := tp_lineRule p;
                             tp_jc := tp_jc p;
                             tp_runs :=
                               map (fun r =>
                                      {| tr_sz := tr_sz r;
                                         tr_texts :=
                                           map (translate_text_elem TRANSLATOR st)
                                               (tr_texts r) |}) (tp_runs p) |})
                       textbox).
  { apply map_ext. intros p. f_equal. apply map_ext. intros r. f_equal.
    apply map_ext. intros t.
    now apply translate_text_elem_same_dictionaries. }
  now rewrite Hmap.
Qed.

Lemma translate_paragraph_textboxes_same_dictionaries
    (st st' : DocumentState) (p : Paragraph) :
  same_dictionaries st st' ->
  translate_paragraph_textboxes TRANSLATOR st' p
  = translate_paragraph_textboxes TRANSLATOR st p.
Proof.
  intros H. unfold translate_paragraph_textboxes. f_equal.
  apply map_ext. intros r. f_equal.
  destruct (r_drawing r) as [textboxes|]; [|reflexivity].
  cbn. f_equal. apply map_ext. intros textbox.
  now apply translate_textbox_same_dictionaries.
Qed.

Lemma translate_slot_textboxes_same_dictionaries (st st' : DocumentState)
    (s : Slot) :
  same_dictionaries st st' ->
  translate_slot_textboxes TRANSLATOR st' s
  = translate_slot_textboxes TRANSLATOR st s.
Proof.
  intros H. unfold translate_slot_textboxes. f_equal.
  - now apply translate_paragraph_textboxes_same_dictionaries.
  - apply map_ext. intros p.
    now apply translate_paragraph_textboxes_same_dictionaries.
Qed.

Lemma same_dictionaries_trans (a b c : DocumentState) :
  same_dictionaries a b -> same_dictionaries b c -> same_dictionaries a c.
Proof. intros [H1 H2] [H3 H4]. split; congruence. Qed.

(** The body of the translated document in closed form: paragraph [j]
    comes out as the paragraph loop leaves it, with the textboxes it holds
    translated.  The tables, the headers and the footers have no effect
    on the body. *)
Theorem document_body_closed_form (st0 : DocumentState) (doc : Document) :
  out_paragraphs (translate_document TRANSLATOR st0 doc)
  = imap (fun j p =>
            translate_slot_textboxes TRANSLATOR
              (grouping_pass (reset st0) (doc_paragraphs doc))
              (body_result TRANSLATOR
                 (grouping_pass (reset st0) (doc_paragraphs doc)) j p))
         (doc_paragraphs doc).
Proof.
  unfold translate_document.
  pose proof (paragraph_loop_closed_form_aux TRANSLATOR st0
                (doc_paragraphs doc)) as (_ & Hdict & _ & Hlen & Hbody).
  destruct (translate_body TRANSLATOR _ _) as [st2 body2].
  cbn [fst snd] in Hdict, Hlen, Hbody.
  pose proof (translate_tables_frame (doc_tables doc) st2 body2 0) as Ht.
  destruct (translate_tables TRANSLATOR st2 body2 0 (doc_tables doc))
    as [[st3 body3] tables3].
  destruct Ht as (-> & Hdict3 & _). cbn [out_paragraphs].
  pose proof (same_dictionaries_trans _ _ _ Hdict Hdict3) as Hd.
  apply list_eq. intros j. rewrite lookup_map, list_lookup_imap.
  destruct (doc_paragraphs doc !! j) as [p|] eqn:Hp; cbn.
  - destruct (Hbody j p Hp) as (Hb & _).
    rewrite Hb by (now apply lookup_lt_Some in Hp). cbn. f_equal.
    now apply translate_slot_textboxes_same_dictionaries.
  - assert (Hnone : body2 !! j = None).
    { apply lookup_ge_None. rewrite Hlen. now apply lookup_ge_None. }
    now rewrite Hnone.
Qed.

(** Which tables are taken for flowcharts, for every document: the
    recorded originals are the indices of the tables of [doc.tables] that
    hold at least [FLOWCHART_TEXTBOX_THRESHOLD] textboxes, in order, so
    that table [k] is recorded exactly when it holds that many; each of
    them is followed by a page break and one clone, and nothing is
    inserted after any other table. *)
Theorem flowcharts_recorded_and_cloned (st0 : DocumentState)
    (doc : Document) :
  flowchart_original_tables
    (out_state (translate_document TRANSLATOR st0 doc))
  = flowchart_indices 0 (doc_tables doc)
  /\ (forall k table, doc_tables doc !! k = Some table ->
        k ∈ flowchart_original_tables
              (out_state (translate_document TRANSLATOR st0 doc))
        <-> is_flowchart_table table = true)
  /\ Forall2 cloned_iff_flowchart (doc_tables doc)
       (out_tables (translate_document TRANSLATOR st0 doc)).
Proof.
  assert (Hmem : forall l, l = flowchart_indices 0 (doc_tables doc) ->
            forall k table, doc_tables doc !! k = Some table ->
              k ∈ l <-> is_flowchart_table table = true).
  { intros l -> k table Hk. rewrite elem_of_flowchart_indices.
    rewrite Nat.sub_0_r. split.
    - intros (table' & _ & Hk' & Hf). congruence.
    - intros Hf. exists table. split; [lia|now split]. }
  cut (flowchart_original_tables
         (out_state (translate_document TRANSLATOR st0 doc))
       = flowchart_indices 0 (doc_tables doc)
       /\ Forall2 cloned_iff_flowchart (doc_tables doc)
            (out_tables (translate_document TRANSLATOR st0 doc))).
  { intros [H1 H2]. split; [exact H1|]. split; [|exact H2].
    now apply Hmem. }
  unfold translate_document.
  pose proof (grouping_pass_frame (reset st0) (doc_paragraphs doc))
    as (_ & Hflow1 & _).
  pose proof (paragraph_loop_flowcharts (grouping_pass (reset st0)
                                           (doc_paragraphs doc))
                (map pristine (doc_paragraphs doc))) as Hflow2.
  destruct (translate_body TRANSLATOR _ _) as [st2 body2].
  cbn [fst] in Hflow2.
  pose proof (translate_tables_frame (doc_tables doc) st2 body2 0) as Ht.
  destruct (translate_tables TRANSLATOR st2 body2 0 (doc_tables doc))
    as [[st3 body3] tables3].
  destruct Ht as (_ & _ & Hrec & Hslots). cbn [out_state out_tables].
  split.
  - rewrite Hrec, Hflow2, Hflow1. reflexivity.
  - apply Forall2_same_length_lookup.
    apply Forall2_same_length_lookup in Hslots as [Hlen Hslots].
    split; [now rewrite length_imap|].
    intros i table s Htable. rewrite list_lookup_imap.
    destruct (tables3 !! i) as [s3|] eqn:Hs3; [|discriminate].
    cbn. intros [= <-]. specialize (Hslots i table s3 Htable Hs3).
    unfold cloned_iff_flowchart in *.
    unfold translate_table_slot_textboxes. cbn [inserted_after].
    destruct (is_flowchart_table table).
    + destruct Hslots as [clone ->]. cbn. now eexists.
    + now rewrite Hslots.
Qed.

End PipelineFrame.

(** *** Textboxes *)

Lemma textbox_texts_adjusted (textbox : Textbox) :
  textbox_texts (_adjust_textbox_formatting textbox) = textbox_texts textbox.
Proof.
  unfold textbox_texts, _adjust_textbox_formatting.
  induction textbox as [|p textbox IH]; [reflexivity|].
  cbn [map flat_map tp_runs]. rewrite IH. f_equal.
  induction (tp_runs p) as [|r rs IHr]; [reflexivity|].
  cbn [map flat_map tr_texts]. now rewrite IHr.
Qed.

Lemma flat_map_map_texts (f : option str -> option str) (rs : list TbRun) :
  flat_map tr_texts
    (map (fun r => {| tr_sz := tr_sz r; tr_texts := map f (tr_texts r) |}) rs)
  = map f (flat_map tr_texts rs).
Proof.
  induction rs as [|r rs IH]; [reflexivity|].
  cbn [map flat_map tr_texts]. now rewrite IH, map_app.
Qed.

Section TextboxProperties.

Variable TRANSLATOR : str -> option str.

Lemma textbox_texts_translated (st : DocumentState) (textbox : Textbox) :
  textbox_texts (translate_textbox TRANSLATOR st textbox)
  = map (translate_text_elem TRANSLATOR st) (textbox_texts textbox).
Proof.
  unfold translate_textbox.
  destruct (existsb _ (textbox_texts textbox));
    [rewrite textbox_texts_adjusted|];
    unfold textbox_texts;
    (induction textbox as [|p textbox IH]; [reflexivity|]);
    cbn [map flat_map tp_runs];
    now rewrite IH, flat_map_map_texts, map_app.
Qed.

Lemma translate_text_elem_kept (st : DocumentState) (t : option str) :
  if handled t
  then exists s, translate_text_elem TRANSLATOR st t = Some s /\ s <> []
  else translate_text_elem TRANSLATOR st t = t.
Proof.
  unfold translate_text_elem. destruct t as [s|]; [|reflexivity].
  destruct (handled (Some s)) eqn:Hh; [|reflexivity].
  destruct (translate_text TRANSLATOR st s) as [|c r] eqn:Ht; cbn [truthy].
  - exists s. split; [reflexivity|].
    cbn in Hh. now destruct s.
  - now exists (c :: r).
Qed.

(** The pass over a textbox adds, drops or blanks no text node: a node
    without text or with blank text is left as it is, and every other node
    holds a non-empty text afterwards (its translation, or its own text
    when the translation is empty).  The paragraphs and the runs of the
    textbox keep their number, and formatting the textbox changes no
    text. *)
Theorem translate_textbox_keeps_nodes (st : DocumentState)
    (textbox : Textbox) :
  Forall2 (fun t t' => if handled t
                       then exists s, t' = Some s /\ s <> []
                       else t' = t)
    (textbox_texts textbox)
    (textbox_texts (translate_textbox TRANSLATOR st textbox))
  /\ map (fun p => length (tp_runs p)) (translate_textbox TRANSLATOR st textbox)
     = map (fun p => length (tp_runs p)) textbox
  /\ textbox_texts (_adjust_textbox_formatting textbox)
     = textbox_texts textbox.
Proof.
  split; [|split; [|apply textbox_texts_adjusted]].
  - rewrite textbox_texts_translated.
    induction (textbox_texts textbox) as [|t ts IH]; [constructor|].
    cbn [map]. constructor; [apply translate_text_elem_kept|exact IH].
  - unfold translate_textbox, _adjust_textbox_formatting.
    destruct (existsb _ (textbox_texts textbox)); rewrite ?map_map;
      apply map_ext; intros p; cbn [tp_runs]; now rewrite ?length_map.
Qed.

End TextboxProperties.

(** The nested flowchart: the paragraphs that are direct children of the
    cell of the original table come out as they went in. *)
Lemma original_flowchart_direct_paragraphs_witness :
  exists s,
    out_tables
      (translate_document (constant_backend (lit "Step")) empty_state
         nested_flowchart_document) !! 0%nat = Some s
    /\ map (map cell_paragraphs) (tbl s)
       = map (map cell_paragraphs) nested_flowchart.
Proof.
  apply (original_flowchart_direct_paragraphs (constant_backend (lit "Step"))
           empty_state nested_flowchart_document 0 nested_flowchart).
  - reflexivity.
  - vm_compute. reflexivity.
Defined.

(** *** Headers and footers *)

Lemma translated_once_refl (S : gset (list N)) (ps : list Paragraph) :
  translated_once S S ps ps.
Proof. split; [reflexivity|]. split; [reflexivity|]. intros x Hx. now left. Qed.

Lemma translated_once_app (S1 S2 S3 : gset (list N))
    (b1 a1 b2 a2 : list Paragraph) :
  translated_once S1 S2 b1 a1 -> translated_once S2 S3 b2 a2 ->
  translated_once S1 S3 (b1 ++ b2) (a1 ++ a2).
Proof.
  intros (Hs1 & Hl1 & Hx1) (Hs2 & Hl2 & Hx2).
  split; [now transitivity S2|].
  split; [rewrite !length_app; lia|].
  intros x Hx. destruct (Hx2 x Hx) as [Hx' | (p & Hp & Ht)].
  - destruct (Hx1 x Hx') as [Hx'' | (p & Hp & Ht)]; [now left|right].
    exists p. split; [|exact Ht]. apply elem_of_app. now left.
  - right. exists p. split; [|exact Ht]. apply elem_of_app. now right.
Qed.

Section HeaderFooterProperties.

Variable TRANSLATOR : str -> option str.

Lemma translate_hf_cell_once (st : DocumentState) (cell : Cell)
    (processed : gset (list N)) :
  translated_once processed
    (translate_hf_cell TRANSLATOR st processed cell).1
    (cell_paragraphs cell)
    (cell_paragraphs (translate_hf_cell TRANSLATOR st processed cell).2)
  /\ cell_tables (translate_hf_cell TRANSLATOR st processed cell).2
     = cell_tables cell.
Proof.
  revert processed. induction cell as [|it cell IH]; intros processed.
  - split; [apply translated_once_refl|reflexivity].
  - destruct it as [p|rows]; cbn [translate_hf_cell].
    + set (first :=
             if truthy (strip (text p)) && is_chinese (strip (text p))
             then
               if bool_decide (strip (text p) ∈ processed)
               then (processed,
                     [set_paragraph_font_size p HEADER_FOOTER_CHINESE_SIZE true])
               else
                 if truthy
                      (translate_text TRANSLATOR st
                         (text (set_paragraph_font_size p
                                  HEADER_FOOTER_CHINESE_SIZE true)))
                 then
                   ({[ strip (text p) ]} ∪ processed,
                    para (add_english_below
                            (pristine (set_paragraph_font_size p
                                         HEADER_FOOTER_CHINESE_SIZE true))
                            (translate_text TRANSLATOR st
                               (text (set_paragraph_font_size p
                                        HEADER_FOOTER_CHINESE_SIZE true)))
                            (Some TABLE_HEADER_ENGLISH_SIZE) None (Some CENTER))
                    :: after (add_english_below
                                (pristine (set_paragraph_font_size p
                                             HEADER_FOOTER_CHINESE_SIZE true))
                                (translate_text TRANSLATOR st
                                   (text (set_paragraph_font_size p
                                            HEADER_FOOTER_CHINESE_SIZE true)))
                                (Some TABLE_HEADER_ENGLISH_SIZE) None
                                (Some CENTER)))
                 else (processed,
                       [set_paragraph_font_size p HEADER_FOOTER_CHINESE_SIZE
                          true])
             else (processed, [p])).
      assert (Hfirst : translated_once processed first.1 [p] first.2).
      { subst first.
        destruct (truthy (strip (text p)) && is_chinese (strip (text p)));
          [|apply translated_once_refl].
        case_bool_decide as Hin;
          [split; [reflexivity|]; split; [reflexivity|]; now left|].
        destruct (truthy _);
          [|split; [reflexivity|]; split; [reflexivity|]; now left].
        cbn [fst snd add_english_below pristine para after].
        split; [apply union_subseteq_r|]. split.
        - rewrite size_union by (now apply disjoint_singleton_l).
          rewrite size_singleton. cbn [length]. lia.
        - intros x [Hx | Hx]%elem_of_union; [|now left].
          apply elem_of_singleton in Hx as ->. right.
          exists p. split; [apply list_elem_of_here|reflexivity]. }
      destruct first as [processed1 ps1]. cbn [fst snd] in Hfirst.
      specialize (IH processed1).
      destruct (translate_hf_cell TRANSLATOR st processed1 cell)
        as [processed2 rest'].
      cbn [fst snd] in *. destruct IH as [IHo IHt]. split.
      * rewrite cell_paragraphs_app, cell_paragraphs_paragraphs.
        change (cell_paragraphs (CPara p :: cell))
          with ([p] ++ cell_paragraphs cell).
        now apply (translated_once_app processed processed1 processed2).
      * rewrite cell_tables_app, cell_tables_paragraphs. exact IHt.
    + specialize (IH processed).
      destruct (translate_hf_cell TRANSLATOR st processed cell)
        as [processed2 rest'].
      cbn [fst snd] in *. destruct IH as [IHo IHt]. split; [exact IHo|].
      change (CTable rows :: rest') with ([CTable rows] ++ rest').
      change (CTable rows :: cell) with ([CTable rows] ++ cell).
      now rewrite !cell_tables_app, IHt.
Qed.

Lemma translate_hf_cells_once (st : DocumentState) (cells : list Cell)
    (processed : gset (list N)) :
  translated_once processed
    (translate_hf_cells TRANSLATOR st processed cells).1
    (flat_map cell_paragraphs cells)
    (flat_map cell_paragraphs
       (translate_hf_cells TRANSLATOR st processed cells).2)
  /\ map cell_tables (translate_hf_cells TRANSLATOR st processed cells).2
     = map cell_tables cells.
Proof.
  revert processed. induction cells as [|cell cells IH]; intros processed.
  - split; [apply translated_once_refl|reflexivity].
  - cbn [translate_hf_cells].
    pose proof (translate_hf_cell_once st cell processed) as [Hc Ht].
    destruct (translate_hf_cell TRANSLATOR st processed cell)
      as [processed1 cell'].
    specialize (IH processed1).
    destruct (translate_hf_cells TRANSLATOR st processed1 cells)
      as [processed2 rest'].
    cbn [fst snd flat_map map] in *. destruct IH as [IHo IHt]. split.
    + now apply (translated_once_app processed processed1 processed2).
    + now rewrite Ht, IHt.
Qed.

Lemma translate_hf_rows_once (st : DocumentState) (rows : Table)
    (processed : gset (list N)) :
  translated_once processed
    (translate_hf_rows TRANSLATOR st processed rows).1
    (table_paragraphs rows)
    (table_paragraphs (translate_hf_rows TRANSLATOR st processed rows).2)
  /\ map (map cell_tables) (translate_hf_rows TRANSLATOR st processed rows).2
     = map (map cell_tables) rows.
Proof.
  revert processed. induction rows as [|row rows IH]; intros processed.
  - split; [apply translated_once_refl|reflexivity].
  - cbn [translate_hf_rows].
    pose proof (translate_hf_cells_once st row processed) as [Hc Ht].
    destruct (translate_hf_cells TRANSLATOR st processed row)
      as [processed1 row'].
    specialize (IH processed1).
    destruct (translate_hf_rows TRANSLATOR st processed1 rows)
      as [processed2 rest'].
    unfold table_paragraphs in *.
    cbn [fst snd flat_map map] in *. destruct IH as [IHo IHt]. split.
    + now apply (translated_once_app processed processed1 processed2).
    + now rewrite Ht, IHt.
Qed.

(** In a table of a header or footer a source text is translated once:
    the number of paragraphs inserted is the number of distinct texts
    translated, each of which is the trimmed text of a paragraph of the
    table; the rows, the cells and the nested tables stay. *)
Theorem header_table_translated_once (st : DocumentState) (table : Table) :
  (length (table_paragraphs (translate_hf_rows TRANSLATOR st ∅ table).2)
   = length (table_paragraphs table)
     + size (translate_hf_rows TRANSLATOR st ∅ table).1)%nat
  /\ (forall x, x ∈ (translate_hf_rows TRANSLATOR st ∅ table).1 ->
        exists p, p ∈ table_paragraphs table /\ strip (text p) = x)
  /\ map (map cell_tables) (translate_hf_rows TRANSLATOR st ∅ table).2
     = map (map cell_tables) table.
Proof.
  destruct (translate_hf_rows_once st table ∅) as [(_ & Hlen & Hx) Ht].
  rewrite size_empty in Hlen. split; [lia|]. split; [|exact Ht].
  intros x Hin. destruct (Hx x Hin) as [Hempty | Hp]; [|exact Hp].
  now apply not_elem_of_empty in Hempty.
Qed.

End HeaderFooterProperties.
